(** * DSNT: a shallow embedding of [dsnt.py]

    The module [dsnt.py] is a TensorFlow implementation of the
    Differentiable Spatial to Numerical Transform: it rectifies a heatmap
    into a probability distribution, takes the expectation of two fixed
    coordinate grids under it, and offers a Jensen-Shannon regulariser
    against synthetic Gaussians.

    Modelling conventions.
    - A tensor is its shape and its row-major flat data, as TensorFlow
      stores it.
    - A [float32] is a [tfloat]: a real number or one of the IEEE special
      values.  Division by zero and the logarithm of a non-positive
      number give the IEEE special values.  The range of [float32] is
      modelled where the program leans on it: [tf.exp] and
      [tf.nn.sigmoid] return 0 for a result below the smallest normal
      number [2^-126] (TensorFlow flushes denormals to zero), [tf.exp]
      returns infinity for a result of [2^128] or more, and a Python
      constant added to a tensor ([eps]) is first rounded to the nearest
      [float32] by [round32].  Sums, products, quotients and logarithms
      of finite values are exact, and so is the square [fwhm ** 2]:
      their rounding, and the overflow or underflow of a sum or a
      quotient, are not modelled, nor is the sign of zero.  A raw heatmap
      and the target centres are supplied from outside and hold finite
      reals, so they are tensors over [R].
    - The coordinate matrices are computed in [float64] and then cast to
      [float32].  [dsnt_x] and [dsnt_y] hold the values before the cast,
      and the expectation is taken with these; [dsnt_x_cast] and
      [dsnt_y_cast] hold the values after the cast.
    - Shape arithmetic ([tf.shape], [tf.range]) is done on integers, with
      dimensions small enough for TensorFlow's [int32]; the division [/]
      of two integer tensors is Python 3 true division.
    - A TensorFlow operator that rejects the shapes of its operands is
      [Err ShapeError]; Python's [raise ValueError(msg)] is
      [Err (ValueError msg)].
    - An optional Python argument is an [option]; [None] selects the
      default written in the [def]. *)

From Stdlib Require Import String Ascii.
From Stdlib Require Import Reals Lra Lia Arith ZArith Bool List.
Import ListNotations.

Open Scope R_scope.

(** ** Values *)

Inductive tfloat : Type :=
  | Fin (r : R)
  | PInf
  | NInf
  | NaN.

(** Three-way case analysis on the sign of a real. *)
Definition sign_case {A : Type} (r : R) (neg zero pos : A) : A :=
  match total_order_T r 0 with
  | inleft (left _) => neg
  | inleft (right _) => zero
  | inright _ => pos
  end.

Definition tadd (a b : tfloat) : tfloat :=
  match a, b with
  | NaN, _ | _, NaN => NaN
  | Fin x, Fin y => Fin (x + y)
  | PInf, NInf | NInf, PInf => NaN
  | PInf, _ | _, PInf => PInf
  | NInf, _ | _, NInf => NInf
  end.

Definition topp (a : tfloat) : tfloat :=
  match a with
  | Fin x => Fin (- x)
  | PInf => NInf
  | NInf => PInf
  | NaN => NaN
  end.

Definition tsub (a b : tfloat) : tfloat := tadd a (topp b).

Definition tmul (a b : tfloat) : tfloat :=
  match a, b with
  | NaN, _ | _, NaN => NaN
  | Fin x, Fin y => Fin (x * y)
  | PInf, Fin y | Fin y, PInf => sign_case y NInf NaN PInf
  | NInf, Fin y | Fin y, NInf => sign_case y PInf NaN NInf
  | PInf, PInf | NInf, NInf => PInf
  | PInf, NInf | NInf, PInf => NInf
  end.

Definition tdiv (a b : tfloat) : tfloat :=
  match a, b with
  | NaN, _ | _, NaN => NaN
  | Fin x, Fin y =>
      sign_case y (Fin (x / y)) (sign_case x NInf NaN PInf) (Fin (x / y))
  | Fin _, PInf | Fin _, NInf => Fin 0
  | PInf, Fin y => sign_case y NInf PInf PInf
  | NInf, Fin y => sign_case y PInf NInf NInf
  | PInf, PInf | PInf, NInf | NInf, PInf | NInf, NInf => NaN
  end.

(** The smallest positive normal [float32], and the first power of two
    above the largest [float32]. *)
Definition float32_min : R := / 2 ^ 126.

Definition float32_huge : R := 2 ^ 128.

(** A result below the smallest normal number is flushed to zero. *)
Definition flush (v : R) : R :=
  if Rlt_dec (Rabs v) float32_min then 0 else v.

(** [tf.exp] on [float32]: zero below [2^-126], that is for an argument
    below [-126 * ln 2], and infinite from [2^128] on, that is for an
    argument of [128 * ln 2] or more. *)
Definition exp32 (x : R) : R := flush (exp x).

Definition texp (a : tfloat) : tfloat :=
  match a with
  | Fin x => if Rle_dec float32_huge (exp x) then PInf else Fin (exp32 x)
  | PInf => PInf
  | NInf => Fin 0
  | NaN => NaN
  end.

Definition tlog (a : tfloat) : tfloat :=
  match a with
  | Fin x => sign_case x NaN NInf (Fin (ln x))
  | PInf => PInf
  | NInf => NaN
  | NaN => NaN
  end.

(** The integer nearest to a real, ties to the even one. *)
Definition round_even (y : R) : Z :=
  let f := Int_part y in
  match total_order_T (y - IZR f) (1 / 2) with
  | inleft (left _) => f
  | inleft (right _) => if Z.even f then f else (f + 1)%Z
  | inright _ => (f + 1)%Z
  end.

(** The exponent of the unit in the last place of the 24-bit significand
    of a normal [float32] of the magnitude of [x]. *)
Definition float32_ulp (x : R) : Z :=
  (Int_part (ln (Rabs x) / ln 2) - 23)%Z.

(** The [float32] nearest to a real, ties to even: zero below the
    smallest normal number, infinite when the rounded value reaches
    [2^128]. *)
Definition round32 (x : R) : tfloat :=
  if Rlt_dec (Rabs x) float32_min then Fin 0
  else
    let e := float32_ulp x in
    let v := IZR (round_even (x * powerRZ 2 (- e))) * powerRZ 2 e in
    if Rle_dec float32_huge (Rabs v)
    then (if Rlt_dec x 0 then NInf else PInf)
    else Fin v.

(** [tf.cast(v, tf.float32)] of a [float64] value. *)
Definition cast_float32 (v : tfloat) : tfloat :=
  match v with
  | Fin x => round32 x
  | _ => v
  end.

(** [tf.reduce_sum] of a flat list of values. *)
Definition tsum (l : list tfloat) : tfloat := fold_right tadd (Fin 0) l.

(** [tf.reduce_max] of a flat list of finite values; the maximum of no
    value at all is minus infinity. *)
Definition rmax_list (l : list R) : tfloat :=
  match l with
  | [] => NInf
  | x :: l' => Fin (fold_left Rmax l' x)
  end.

(** ** Errors *)

Inductive exn : Type :=
  | ValueError (msg : string)
  | ShapeError.

Inductive result (A : Type) : Type :=
  | Ok (a : A)
  | Err (e : exn).

Arguments Ok {A} a.
Arguments Err {A} e.

Definition bind {A B : Type} (m : result A) (k : A -> result B) : result B :=
  match m with
  | Ok a => k a
  | Err e => Err e
  end.

Notation "x <- m ;; k" := (bind m (fun x => k))
  (at level 61, m at next level, right associativity).

(** ** Tensors *)

Record tensor (A : Type) : Type := Tensor { shape : list nat; data : list A }.

Arguments Tensor {A} shape data.
Arguments shape {A} t.
Arguments data {A} t.

Definition numel (s : list nat) : nat := fold_right Nat.mul 1%nat s.

Fixpoint shape_eqb (s1 s2 : list nat) : bool :=
  match s1, s2 with
  | [], [] => true
  | a :: s1', b :: s2' => Nat.eqb a b && shape_eqb s1' s2'
  | _, _ => false
  end.

(** [chunks n count l]: the first [count] consecutive blocks of [n]
    values of [l]. *)
Fixpoint chunks {A : Type} (n count : nat) (l : list A) : list (list A) :=
  match count with
  | O => []
  | S c => firstn n l :: chunks n c (skipn n l)
  end.

Definition map2 {A B C : Type} (f : A -> B -> C) (l1 : list A) (l2 : list B)
  : list C :=
  map (fun ab => f (fst ab) (snd ab)) (combine l1 l2).

(** [tf.shape(t)[i]] *)
Definition dim {A : Type} (t : tensor A) (i : nat) : result nat :=
  match nth_error (shape t) i with
  | Some d => Ok d
  | None => Err ShapeError
  end.

(** [tf.reshape(t, s)] for a fully specified shape [s]. *)
Definition tf_reshape {A : Type} (t : tensor A) (s : list nat)
  : result (tensor A) :=
  if Nat.eqb (numel s) (length (data t)) then Ok (Tensor s (data t))
  else Err ShapeError.

(** [tf.reshape(t, [-1, h, w])] for [h * w] positive: the leading
    dimension is inferred, which TensorFlow refuses when [h * w] does not
    divide the number of values.  An image without pixels ([h * w = 0])
    is set aside as a shape error; every statement below about this
    reshape takes [h] and [w] positive. *)
Definition tf_reshape_infer {A : Type} (t : tensor A) (h w : nat)
  : result (tensor A) :=
  if Nat.eqb (h * w) 0 then Err ShapeError
  else if Nat.eqb (length (data t) mod (h * w)) 0
       then Ok (Tensor [(length (data t) / (h * w))%nat; h; w] (data t))
       else Err ShapeError.

Definition tf_map {A B : Type} (f : A -> B) (t : tensor A) : tensor B :=
  Tensor (shape t) (map f (data t)).

(** An elementwise binary operator on two tensors of one shape.
    Broadcasting between different shapes is not modelled: every call in
    [dsnt.py] whose operands are both tensors passes operands of one
    shape, apart from the calls handled by [bcast_planes]. *)
Definition tf_map2 {A B C : Type} (f : A -> B -> C)
  (x : tensor A) (y : tensor B) : result (tensor C) :=
  if shape_eqb (shape x) (shape y)
  then Ok (Tensor (shape x) (map2 f (data x) (data y)))
  else Err ShapeError.

(** A reduction over the axes [[1, 2]] of a rank-3 tensor.  A tensor of
    lower rank has no such axes, and none of higher rank reaches these
    calls: [_normalise_heatmap] first reshapes to at most three
    dimensions. *)
Definition reduce_axes12 {A B : Type} (f : list A -> B) (keep_dims : bool)
  (x : tensor A) : result (tensor B) :=
  match shape x with
  | [b; h; w] =>
      Ok (Tensor (if keep_dims then [b; 1%nat; 1%nat] else [b])
                 (map f (chunks (h * w) b (data x))))
  | _ => Err ShapeError
  end.

(** The leading dimensions and the last two of a shape. *)
Definition split_last2 (s : list nat) : option (list nat * nat * nat) :=
  match rev s with
  | w :: h :: lead => Some (rev lead, h, w)
  | _ => None
  end.

(** [tf.reduce_sum(x, [-1, -2])] *)
Definition reduce_sum_last2 (x : tensor tfloat) : result (tensor tfloat) :=
  match split_last2 (shape x) with
  | Some (lead, h, w) =>
      Ok (Tensor lead (map tsum (chunks (h * w) (numel lead) (data x))))
  | None => Err ShapeError
  end.

(** An elementwise operator between a tensor [[b, h, w]] and a tensor
    [[b, 1, 1]]: plane [i] of the first meets value [i] of the second.
    The calls in [dsnt.py] have equal leading dimensions whenever they
    are reached. *)
Definition bcast_planes {A B C : Type} (f : A -> B -> C)
  (x : tensor A) (s : tensor B) : result (tensor C) :=
  match shape x, shape s with
  | [b; h; w], [b'; 1%nat; 1%nat] =>
      if Nat.eqb b b'
      then Ok (Tensor [b; h; w]
                 (concat (map2 (fun plane v => map (fun e => f e v) plane)
                               (chunks (h * w) b (data x)) (data s))))
      else Err ShapeError
  | _, _ => Err ShapeError
  end.

(** Entry [[b, h, w]] of a rank-3 tensor and entry [[i, j]] of a rank-2
    tensor. *)
Definition get3 (t : tensor tfloat) (b h w : nat) : tfloat :=
  match shape t with
  | [_; H; W] => nth ((b * H + h) * W + w) (data t) NaN
  | _ => NaN
  end.

Definition get2 (t : tensor tfloat) (i j : nat) : tfloat :=
  match shape t with
  | [_; W] => nth (i * W + j) (data t) NaN
  | _ => NaN
  end.

(** Block [b] of [n] values of a flat list, and plane [b] of a rank-3
    tensor as a flat list. *)
Definition block {A : Type} (n b : nat) (l : list A) : list A :=
  firstn n (skipn (b * n) l).

Definition plane {A : Type} (t : tensor A) (b : nat) : list A :=
  match shape t with
  | [_; H; W] => block (H * W) b (data t)
  | _ => []
  end.

(** ** The program *)

Definition rsum (l : list R) : R := fold_right Rplus 0 l.

(** [tf.nn.relu] and [tf.nn.sigmoid] on a finite value; the sigmoid of a
    very negative value is below the smallest normal number and comes out
    as 0. *)
Definition relu (x : R) : R := Rmax x 0.

Definition sigmoid (x : R) : R := flush (1 / (1 + exp (- x))).

(** The lambda [normalise] of [_normalise_heatmap]:
    [tf.div(x, tf.reshape(tf.reduce_sum(x, [1, 2]), [2, 1, 1]))]. *)
Definition normalise (x : tensor R) : result (tensor tfloat) :=
  sums <- reduce_axes12 rsum false x ;;
  sums <- tf_reshape sums [2; 1; 1]%nat ;;
  bcast_planes (fun e s => tdiv (Fin e) (Fin s)) x sums.

(** [_softmax2d(target, axes)]; its only call passes [axes=[1, 2]]. *)
Definition _softmax2d (target : tensor R) : result (tensor tfloat) :=
  max_axis <- reduce_axes12 rmax_list true target ;;
  shifted <- bcast_planes (fun e m => tsub (Fin e) m) target max_axis ;;
  let target_exp := tf_map texp shifted in
  normalize <- reduce_axes12 tsum true target_exp ;;
  bcast_planes tdiv target_exp normalize.

Definition quote : string := String (ascii_of_nat 34) EmptyString.

Definition unknown_method_msg (method : string) : string :=
  ("Unknown rectification method " ++ quote ++ method ++ quote)%string.

Definition _normalise_heatmap (inputs : tensor R) (method : option string)
  : result (tensor tfloat) :=
  let method := match method with Some m => m | None => "softmax"%string end in
  inputs <- tf_reshape inputs (firstn 3 (shape inputs)) ;;
  if String.eqb method "softmax" then _softmax2d inputs
  else if String.eqb method "abs" then normalise (tf_map Rabs inputs)
  else if String.eqb method "relu" then normalise (tf_map relu inputs)
  else if String.eqb method "sigmoid" then normalise (tf_map sigmoid inputs)
  else Err (ValueError (unknown_method_msg method)).

(** [(2 * tf.range(1, n+1) - (n + 1)) / n]: integer arithmetic, then a
    true division. *)
Definition grid_row (n : nat) : list tfloat :=
  map (fun i => tdiv (Fin (IZR (2 * Z.of_nat i - (Z.of_nat n + 1))))
                     (Fin (IZR (Z.of_nat n))))
      (seq 1 n).

(** [tf.tile([[row]], [b, h, 1])] *)
Definition tile_row (row : list tfloat) (b h : nat) : tensor tfloat :=
  Tensor [b; h; length row] (concat (repeat row (b * h))).

(** The transpose of an [r]-by-[c] plane given as a flat list. *)
Definition transpose_plane (r c : nat) (pl : list tfloat) : list tfloat :=
  flat_map (fun j => map (fun i => nth (i * c + j) pl NaN) (seq 0 r))
           (seq 0 c).

(** [tf.transpose(t, perm=[0, 2, 1])] *)
Definition transpose_021 (t : tensor tfloat) : result (tensor tfloat) :=
  match shape t with
  | [b; r; c] =>
      Ok (Tensor [b; c; r]
            (concat (map (transpose_plane r c) (chunks (r * c) b (data t)))))
  | _ => Err ShapeError
  end.

(** [tf.stack([x, y], axis=1)] of two vectors of one length. *)
Definition stack_axis1 (x y : tensor tfloat) : result (tensor tfloat) :=
  match shape x with
  | [b] =>
      if shape_eqb (shape x) (shape y)
      then Ok (Tensor [b; 2%nat]
                 (concat (map2 (fun u v => [u; v]) (data x) (data y))))
      else Err ShapeError
  | _ => Err ShapeError
  end.

(** The two coordinate matrices of [dsnt], as computed in [float64]. *)
Definition dsnt_x (batch_count height width : nat) : tensor tfloat :=
  tile_row (grid_row width) batch_count height.

Definition dsnt_y (batch_count height width : nat) : result (tensor tfloat) :=
  transpose_021 (tile_row (grid_row height) batch_count width).

(** The two matrices after [tf.cast(..., tf.float32)]. *)
Definition dsnt_x_cast (batch_count height width : nat) : tensor tfloat :=
  tf_map cast_float32 (dsnt_x batch_count height width).

Definition dsnt_y_cast (batch_count height width : nat)
  : result (tensor tfloat) :=
  gy <- dsnt_y batch_count height width ;;
  Ok (tf_map cast_float32 gy).

(** The body of [dsnt] after the rectification: shape, coordinate
    matrices, Frobenius inner products and the zip into pairs. *)
Definition dsnt_coords (norm_heatmap : tensor tfloat)
  : result (tensor tfloat) :=
  batch_count <- dim norm_heatmap 0 ;;
  height <- dim norm_heatmap 1 ;;
  width <- dim norm_heatmap 2 ;;
  let gx := dsnt_x batch_count height width in
  gy <- dsnt_y batch_count height width ;;
  px <- tf_map2 tmul norm_heatmap gx ;;
  outputs_x <- reduce_axes12 tsum false px ;;
  py <- tf_map2 tmul norm_heatmap gy ;;
  outputs_y <- reduce_axes12 tsum false py ;;
  stack_axis1 outputs_x outputs_y.

Definition dsnt (inputs : tensor R) (method : option string)
  : result (tensor tfloat * tensor tfloat) :=
  norm_heatmap <- _normalise_heatmap inputs method ;;
  coords_zipped <- dsnt_coords norm_heatmap ;;
  Ok (norm_heatmap, coords_zipped).

Definition _kl_2d (p q : tensor tfloat) (eps : option R)
  : result (tensor tfloat) :=
  let eps := match eps with Some e => e | None => 24 end in
  let log_p := tf_map tlog (tf_map (fun v => tadd v (round32 eps)) p) in
  let log_q := tf_map tlog (tf_map (fun v => tadd v (round32 eps)) q) in
  diff <- tf_map2 tsub log_p log_q ;;
  unsummed_kl <- tf_map2 tmul p diff ;;
  reduce_sum_last2 unsummed_kl.

Definition _js_2d (p q : tensor tfloat) (eps : option R)
  : result (tensor tfloat) :=
  let eps := match eps with Some e => e | None => 1 / 10 ^ 24 end in
  s <- tf_map2 tadd p q ;;
  let m := tf_map (tmul (Fin (1 / 2))) s in
  kl_pm <- _kl_2d p m (Some eps) ;;
  kl_qm <- _kl_2d q m (Some eps) ;;
  tf_map2 tadd (tf_map (tmul (Fin (1 / 2))) kl_pm)
               (tf_map (tmul (Fin (1 / 2))) kl_qm).

(** [t[:h, :w]] on a matrix. *)
Definition crop2 (t : tensor tfloat) (h w : nat) : result (tensor tfloat) :=
  match shape t with
  | [r; c] =>
      Ok (Tensor [Nat.min h r; Nat.min w c]
            (concat (map (firstn w) (firstn h (chunks c r (data t))))))
  | _ => Err ShapeError
  end.

(** [_make_gaussian(size, centre, fwhm)] with [size = [height, width]]
    and [centre] the pair of normalised [x, y] coordinates. *)
Definition _make_gaussian (size : nat * nat) (centre : R * R)
  (fwhm : option R) : result (tensor tfloat) :=
  let fwhm := match fwhm with Some f => f | None => 1 end in
  let centre := (fst centre * INR (snd size), snd centre * INR (fst size)) in
  let square_size := Nat.max (fst size) (snd size) in
  let x := map INR (seq 0 square_size) in
  let x0 := fst centre - 1 / 2 in
  let y0 := snd centre - 1 / 2 in
  let square :=
    Tensor [square_size; square_size]
      (flat_map
         (fun y =>
            map (fun x =>
                   texp (tdiv (Fin (- 4 * ln 2
                                    * ((x - x0) ^ 2 + (y - y0) ^ 2)))
                              (Fin (fwhm ^ 2))))
                x)
         x) in
  unnorm <- crop2 square (fst size) (snd size) ;;
  let total := tsum (data unnorm) in
  Ok (tf_map (fun v => tdiv v total) unnorm).

(** [tf.while_loop(cond, body, state)]: [None] when the fuel runs out
    before [cond] turns false. *)
Fixpoint while_loop {S : Type} (fuel : nat) (cond : S -> bool)
  (body : S -> result S) (st : S) : option (result S) :=
  if cond st then
    match fuel with
    | O => None
    | Datatypes.S fuel' =>
        match body st with
        | Ok st' => while_loop fuel' cond body st'
        | Err e => Some (Err e)
        end
    end
  else Some (Ok st).

(** The loop state of [_make_gaussians]: the centres still to draw and
    the flat heatmaps drawn so far. *)
Definition gauss_state : Type := (tensor R * tensor tfloat)%type.

Definition cond (st : gauss_state) : bool :=
  match shape (fst st) with
  | b :: _ => Nat.ltb 0 b
  | [] => false
  end.

Definition body (height width : nat) (fwhm : R) (st : gauss_state)
  : result gauss_state :=
  let centres := fst st in
  let heatmaps := snd st in
  let curr := firstn 2 (data centres) in
  let centres :=
    Tensor (Nat.pred (hd 0%nat (shape centres)) :: tl (shape centres))
           (skipn 2 (data centres)) in
  new_heatmap <- _make_gaussian (height, width)
                   (nth 0 curr 0, nth 1 curr 0) (Some fwhm) ;;
  let new_heatmap := Tensor [length (data new_heatmap)] (data new_heatmap) in
  let heatmaps :=
    Tensor [(length (data heatmaps) + length (data new_heatmap))%nat]
           (data heatmaps ++ data new_heatmap) in
  Ok (centres, heatmaps).

Definition _make_gaussians (fuel : nat) (centres_in : tensor R)
  (height width : nat) (fwhm : option R) : option (result (tensor tfloat)) :=
  let fwhm := match fwhm with Some f => f | None => 1 end in
  match shape centres_in with
  | [_; 2%nat] =>
      match while_loop fuel cond (body height width fwhm)
              (centres_in, Tensor [0%nat] []) with
      | None => None
      | Some (Err e) => Some (Err e)
      | Some (Ok st) => Some (tf_reshape_infer (snd st) height width)
      end
  | _ => Some (Err ShapeError)
  end.

(** [tf.reduce_mean] over every value of a tensor. *)
Definition reduce_mean (t : tensor tfloat) : tfloat :=
  tdiv (tsum (data t)) (Fin (INR (length (data t)))).

Definition js_reg_loss (fuel : nat) (heatmaps : tensor tfloat)
  (centres : tensor R) (fwhm : option R) : option (result tfloat) :=
  let fwhm := match fwhm with Some f => f | None => 1 end in
  match dim heatmaps 1, dim heatmaps 2 with
  | Ok height, Ok width =>
      match _make_gaussians fuel centres height width (Some fwhm) with
      | None => None
      | Some (Err e) => Some (Err e)
      | Some (Ok gauss) =>
          Some (divergences <- _js_2d heatmaps gauss None ;;
                Ok (reduce_mean divergences))
      end
  | Err e, _ | _, Err e => Some (Err e)
  end.

(** ** Plane-wise readings

    What [_softmax2d] and [normalise] do to one plane; the tensor
    functions above are proved to act plane by plane through these. *)

Definition softmax_plane (pl : list R) : list tfloat :=
  let target_exp := map (fun e => texp (tsub (Fin e) (rmax_list pl))) pl in
  map (fun v => tdiv v (tsum target_exp)) target_exp.

Definition normalise_plane (pl : list R) : list tfloat :=
  map (fun e => tdiv (Fin e) (Fin (rsum pl))) pl.

(** The closed form of entry [i], counted from 1, of [grid_row n]. *)
Definition grid_value (n i : nat) : R :=
  (2 * INR i - (INR n + 1)) / INR n.

(** The closed form of the unnormalised Gaussian at row [i], column [j]
    of an image of [H] rows and [W] columns, for the normalised centre
    [(x, y)] and full width at half maximum [f]. *)
Definition gauss_value (H W : nat) (x y f : R) (i j : nat) : R :=
  exp32 (- 4 * ln 2
         * ((INR j - x * INR W + 1 / 2) ^ 2 + (INR i - y * INR H + 1 / 2) ^ 2)
         / f ^ 2).

(** The row-major list of the [H * W] values of a function of the row
    and the column. *)
Definition grid_list {A : Type} (H W : nat) (g : nat -> nat -> A) : list A :=
  concat (map (fun i => map (fun j => g i j) (seq 0 W)) (seq 0 H)).

(** The flat heatmap that one turn of the loop of [_make_gaussians]
    appends for the row [row] of the centres. *)
Definition gaussian_data (H W : nat) (fwhm : R) (row : list R)
  : list tfloat :=
  match _make_gaussian (H, W) (nth 0 row 0, nth 1 row 0) (Some fwhm) with
  | Ok t => data t
  | Err _ => []
  end.

(** What [_kl_2d] and [_js_2d] compute on one plane. *)
Definition kl_plane (pl ql : list tfloat) (eps : R) : tfloat :=
  tsum (map2 tmul pl
          (map2 tsub (map tlog (map (fun v => tadd v (round32 eps)) pl))
                     (map tlog (map (fun v => tadd v (round32 eps)) ql)))).

Definition js_plane (pl ql : list tfloat) (eps : R) : tfloat :=
  let ml := map (tmul (Fin (1 / 2))) (map2 tadd pl ql) in
  tadd (tmul (Fin (1 / 2)) (kl_plane pl ml eps))
       (tmul (Fin (1 / 2)) (kl_plane ql ml eps)).

(** The sums that [kl_plane] and [js_plane] compute when every value is
    finite and every logarithm is taken of a positive number. *)
Definition kl_real (eps : R) (ps ms : list R) : R :=
  rsum (map2 (fun p m => p * (ln (p + eps) - ln (m + eps))) ps ms).

Definition js_real (eps : R) (ps qs : list R) : R :=
  let ms := map (fun s => 1 / 2 * s) (map2 Rplus ps qs) in
  1 / 2 * kl_real eps ps ms + 1 / 2 * kl_real eps qs ms.

(** * Properties *)

(** ** Arithmetic of [tfloat] *)

Lemma sign_case_neg {A : Type} (r : R) (a b c : A) :
  r < 0 -> sign_case r a b c = a.
Proof.
  intros H. unfold sign_case.
  destruct (total_order_T r 0) as [[Hlt | Heq] | Hgt]; try reflexivity; lra.
Qed.

Lemma sign_case_zero {A : Type} (a b c : A) : sign_case 0 a b c = b.
Proof.
  unfold sign_case.
  destruct (total_order_T 0 0) as [[Hlt | Heq] | Hgt]; try reflexivity; lra.
Qed.

Lemma sign_case_pos {A : Type} (r : R) (a b c : A) :
  0 < r -> sign_case r a b c = c.
Proof.
  intros H. unfold sign_case.
  destruct (total_order_T r 0) as [[Hlt | Heq] | Hgt]; try reflexivity; lra.
Qed.

Lemma tdiv_fin (x y : R) : y <> 0 -> tdiv (Fin x) (Fin y) = Fin (x / y).
Proof.
  intros Hy. simpl.
  destruct (Rtotal_order y 0) as [Hlt | [Heq | Hgt]].
  - now rewrite sign_case_neg.
  - contradiction.
  - now rewrite sign_case_pos.
Qed.

Lemma tdiv_zero_zero : tdiv (Fin 0) (Fin 0) = NaN.
Proof. simpl. now rewrite !sign_case_zero. Qed.

Lemma tlog_pos (x : R) : 0 < x -> tlog (Fin x) = Fin (ln x).
Proof. intros H. simpl. now rewrite sign_case_pos. Qed.

Lemma tadd_comm (a b : tfloat) : tadd a b = tadd b a.
Proof.
  destruct a, b; simpl; try reflexivity.
  f_equal. lra.
Qed.

Lemma tadd_assoc (a b c : tfloat) : tadd a (tadd b c) = tadd (tadd a b) c.
Proof.
  destruct a, b, c; simpl; try reflexivity.
  f_equal. lra.
Qed.

Lemma tadd_0_l (a : tfloat) : tadd (Fin 0) a = a.
Proof. destruct a; simpl; try reflexivity. f_equal. lra. Qed.

Lemma tadd_0_r (a : tfloat) : tadd a (Fin 0) = a.
Proof. rewrite tadd_comm. apply tadd_0_l. Qed.

Lemma tsum_cons (a : tfloat) (l : list tfloat) :
  tsum (a :: l) = tadd a (tsum l).
Proof. reflexivity. Qed.

Lemma tsum_app (l1 l2 : list tfloat) :
  tsum (l1 ++ l2) = tadd (tsum l1) (tsum l2).
Proof.
  induction l1 as [| a l1 IH]; cbn [app].
  - symmetry. apply tadd_0_l.
  - now rewrite !tsum_cons, IH, tadd_assoc.
Qed.

Lemma tsum_map_Fin (l : list R) : tsum (map Fin l) = Fin (rsum l).
Proof.
  induction l as [| a l IH]; cbn [map]; [reflexivity |].
  now rewrite tsum_cons, IH.
Qed.

Lemma tsum_zeros (l : list tfloat) :
  (forall v, In v l -> v = Fin 0) -> tsum l = Fin 0.
Proof.
  induction l as [| a l IH]; intros H; [reflexivity |].
  rewrite tsum_cons, IH by (intros; apply H; now right).
  rewrite (H a) by now left. apply tadd_0_l.
Qed.

(** ** The range of [float32] *)

Lemma ln2_pos : 0 < ln 2.
Proof. rewrite <- ln_1. apply ln_increasing; lra. Qed.

Lemma float32_min_pos : 0 < float32_min.
Proof. unfold float32_min. lra. Qed.

Lemma flush_nonneg (v : R) : 0 <= v -> 0 <= flush v.
Proof. intros H. unfold flush. destruct (Rlt_dec _ _); lra. Qed.

Lemma flush_le (v : R) : 0 <= v -> flush v <= v.
Proof. intros H. unfold flush. destruct (Rlt_dec _ _); lra. Qed.

Lemma flush_normal (v : R) : float32_min <= v -> flush v = v.
Proof.
  intros H. unfold flush. pose proof float32_min_pos.
  rewrite Rabs_pos_eq by lra.
  destruct (Rlt_dec _ _); [lra | reflexivity].
Qed.

Lemma flush_small (v : R) : Rabs v < float32_min -> flush v = 0.
Proof. intros H. unfold flush. destruct (Rlt_dec _ _); [reflexivity | lra]. Qed.

Lemma flush_mono (u v : R) : 0 <= u <= v -> flush u <= flush v.
Proof.
  intros [H0 H1]. unfold flush. rewrite !Rabs_pos_eq by lra.
  destruct (Rlt_dec u float32_min), (Rlt_dec v float32_min); lra.
Qed.

Lemma exp_pow2 (n : nat) : exp (INR n * ln 2) = 2 ^ n.
Proof.
  rewrite <- Rpower_pow by lra. reflexivity.
Qed.

Lemma exp_float32_min : exp (- 126 * ln 2) = float32_min.
Proof.
  replace (- 126 * ln 2) with (- (INR 126 * ln 2)).
  - rewrite exp_Ropp, exp_pow2. reflexivity.
  - rewrite INR_IZR_INZ. cbn [Z.of_nat Pos.of_succ_nat Pos.succ]. ring.
Qed.

Lemma exp_float32_huge : exp (128 * ln 2) = float32_huge.
Proof.
  replace (128 * ln 2) with (INR 128 * ln 2).
  - apply exp_pow2.
  - rewrite INR_IZR_INZ. cbn [Z.of_nat Pos.of_succ_nat Pos.succ]. ring.
Qed.

Lemma exp_le_mono (a b : R) : a <= b -> exp a <= exp b.
Proof.
  intros [Hlt | ->]; [apply Rlt_le, exp_increasing, Hlt | apply Rle_refl].
Qed.

(** The exponential of an argument from [-126 * ln 2] up to 0 is
    returned as it is, and that of a smaller argument is 0. *)
Lemma exp32_normal (x : R) : - 126 * ln 2 <= x -> exp32 x = exp x.
Proof.
  intros H. apply flush_normal. rewrite <- exp_float32_min.
  now apply exp_le_mono.
Qed.

Lemma exp32_small (x : R) : x < - 126 * ln 2 -> exp32 x = 0.
Proof.
  intros H. apply flush_small. rewrite Rabs_pos_eq by apply Rlt_le, exp_pos.
  rewrite <- exp_float32_min. now apply exp_increasing.
Qed.

Lemma exp32_nonneg (x : R) : 0 <= exp32 x.
Proof. apply flush_nonneg, Rlt_le, exp_pos. Qed.

Lemma exp32_0 : exp32 0 = 1.
Proof.
  rewrite exp32_normal; [apply exp_0 |]. pose proof ln2_pos. lra.
Qed.

Lemma exp32_mono (a b : R) : a <= b -> exp32 a <= exp32 b.
Proof.
  intros H. apply flush_mono. split; [apply Rlt_le, exp_pos |].
  now apply exp_le_mono.
Qed.

Lemma exp32_le_1 (x : R) : x <= 0 -> exp32 x <= 1.
Proof. intros H. rewrite <- exp32_0. now apply exp32_mono. Qed.

Lemma texp_nonpos (x : R) : x <= 0 -> texp (Fin x) = Fin (exp32 x).
Proof.
  intros H. cbn [texp].
  destruct (Rle_dec float32_huge (exp x)) as [Ho | _]; [| reflexivity].
  exfalso. apply exp_le_mono in H. rewrite exp_0 in H.
  unfold float32_huge in Ho. lra.
Qed.

Lemma ln2_lt_1 : ln 2 < 1.
Proof.
  rewrite <- (ln_exp 1). apply ln_increasing; [lra |].
  pose proof (exp_ineq1 1). lra.
Qed.

Lemma sigmoid_nonneg (x : R) : 0 <= sigmoid x.
Proof.
  unfold sigmoid. apply flush_nonneg. pose proof (exp_pos (- x)).
  apply Rlt_le, Rdiv_lt_0_compat; lra.
Qed.

Lemma round_even_error (y : R) : Rabs (IZR (round_even y) - y) <= 1 / 2.
Proof.
  unfold round_even.
  destruct (base_Int_part y) as [H1 H2].
  destruct (total_order_T (y - IZR (Int_part y)) (1 / 2)) as [[Hlt | Heq] | Hgt].
  - apply Rabs_le. lra.
  - destruct (Z.even (Int_part y)); [| rewrite plus_IZR]; apply Rabs_le; lra.
  - rewrite plus_IZR. apply Rabs_le. lra.
Qed.

Lemma round_even_IZR (k : Z) : round_even (IZR k) = k.
Proof.
  unfold round_even.
  assert (E : Int_part (IZR k) = k).
  { symmetry. apply Int_part_spec. lra. }
  rewrite E.
  destruct (total_order_T (IZR k - IZR k) (1 / 2)) as [[Hlt | Heq] | Hgt];
    [reflexivity | lra | lra].
Qed.

Lemma Int_part_opp_int (y : R) :
  y = IZR (Int_part y) -> Int_part (- y) = (- Int_part y)%Z.
Proof.
  intros E. symmetry. apply Int_part_spec. rewrite opp_IZR. lra.
Qed.

Lemma Int_part_opp_frac (y : R) :
  y <> IZR (Int_part y) -> Int_part (- y) = (- Int_part y - 1)%Z.
Proof.
  intros E. destruct (base_Int_part y) as [H1 H2].
  symmetry. apply Int_part_spec. rewrite minus_IZR, opp_IZR. lra.
Qed.

Lemma round_even_opp (y : R) : round_even (- y) = (- round_even y)%Z.
Proof.
  destruct (Req_dec y (IZR (Int_part y))) as [E | E].
  - rewrite E, <- opp_IZR, !round_even_IZR. reflexivity.
  - unfold round_even. rewrite (Int_part_opp_frac y E).
    destruct (base_Int_part y) as [H1 H2].
    set (f := Int_part y) in *. rewrite minus_IZR, opp_IZR.
    destruct (total_order_T (y - IZR f) (1 / 2)) as [[Hlt | Heq] | Hgt];
      destruct (total_order_T (- y - (- IZR f - 1)) (1 / 2))
        as [[Hlt' | Heq'] | Hgt']; try lra; try lia.
    rewrite Z.even_sub, Z.even_opp. cbn.
    destruct (Z.even f); cbn; lia.
Qed.

Lemma powerRZ_2_exp (e : Z) : powerRZ 2 e = exp (IZR e * ln 2).
Proof. rewrite powerRZ_Rpower by lra. reflexivity. Qed.

Lemma powerRZ_2_pos (e : Z) : 0 < powerRZ 2 e.
Proof. apply powerRZ_lt. lra. Qed.

Lemma powerRZ_2_le (a b : Z) : (a <= b)%Z -> powerRZ 2 a <= powerRZ 2 b.
Proof.
  intros H. rewrite !powerRZ_2_exp.
  apply IZR_le in H. pose proof ln2_pos.
  destruct (Req_dec (IZR a) (IZR b)) as [-> | Hne]; [lra |].
  apply Rlt_le, exp_increasing. nra.
Qed.

Lemma powerRZ_2_inv (e : Z) : powerRZ 2 (- e) * powerRZ 2 e = 1.
Proof.
  rewrite <- powerRZ_add by lra.
  replace (- e + e)%Z with 0%Z by lia. reflexivity.
Qed.

(** The binade of a non-zero real. *)
Lemma binade_bounds (x : R) :
  0 < x ->
  powerRZ 2 (Int_part (ln x / ln 2)) <= x
  /\ x < powerRZ 2 (Int_part (ln x / ln 2) + 1).
Proof.
  intros Hx. pose proof ln2_pos as L.
  destruct (base_Int_part (ln x / ln 2)) as [H1 H2].
  set (E := Int_part (ln x / ln 2)) in *.
  assert (Hq : ln x / ln 2 * ln 2 = ln x) by (field; lra).
  rewrite !powerRZ_2_exp, plus_IZR.
  pose proof (exp_ln x Hx) as Ex.
  split.
  - rewrite <- Ex.
    destruct (Req_dec (IZR E * ln 2) (ln x)) as [-> | Hne]; [lra |].
    apply Rlt_le, exp_increasing. nra.
  - apply Rle_lt_trans with (exp (ln x)); [lra |].
    apply exp_increasing. nra.
Qed.

Lemma binade_unique (x : R) (E : Z) :
  powerRZ 2 E <= x < powerRZ 2 (E + 1) -> Int_part (ln x / ln 2) = E.
Proof.
  intros [H1 H2]. pose proof ln2_pos as L.
  assert (Hx : 0 < x) by (pose proof (powerRZ_2_pos E); lra).
  symmetry. apply Int_part_spec.
  rewrite !powerRZ_2_exp, plus_IZR in *.
  assert (A : IZR E * ln 2 <= ln x).
  { destruct (Rle_dec (IZR E * ln 2) (ln x)) as [|N]; [assumption |].
    exfalso. apply Rnot_le_lt in N. apply exp_increasing in N.
    rewrite exp_ln in N by assumption. lra. }
  assert (B : ln x < (IZR E + 1) * ln 2).
  { destruct (Rlt_dec (ln x) ((IZR E + 1) * ln 2)) as [|N]; [assumption |].
    exfalso. apply Rnot_lt_le in N.
    destruct N as [N | N].
    - apply exp_increasing in N. rewrite exp_ln in N by assumption. lra.
    - rewrite N, exp_ln in H2 by assumption. lra. }
  split.
  - apply Rmult_lt_reg_r with (ln 2); [exact L |].
    replace ((ln x / ln 2 - 1) * ln 2) with (ln x - ln 2) by (field; lra). lra.
  - apply Rmult_le_reg_r with (ln 2); [exact L |].
    replace (ln x / ln 2 * ln 2) with (ln x) by (field; lra). lra.
Qed.

Lemma round32_small (x : R) : Rabs x < float32_min -> round32 x = Fin 0.
Proof.
  intros H. unfold round32. destruct (Rlt_dec _ _); [reflexivity | contradiction].
Qed.

Lemma float32_ulp_opp (x : R) : float32_ulp (- x) = float32_ulp x.
Proof. unfold float32_ulp. now rewrite Rabs_Ropp. Qed.

Lemma round32_opp (x : R) : round32 (- x) = topp (round32 x).
Proof.
  unfold round32. rewrite Rabs_Ropp, float32_ulp_opp.
  destruct (Rlt_dec (Rabs x) float32_min) as [Hs | Hs].
  - cbn. f_equal. lra.
  - assert (Hx : x <> 0).
    { intros ->. rewrite Rabs_R0 in Hs. pose proof float32_min_pos. lra. }
    set (e := float32_ulp x).
    replace (- x * powerRZ 2 (- e)) with (- (x * powerRZ 2 (- e))) by ring.
    rewrite round_even_opp, opp_IZR.
    replace (- IZR (round_even (x * powerRZ 2 (- e))) * powerRZ 2 e)
      with (- (IZR (round_even (x * powerRZ 2 (- e))) * powerRZ 2 e)) by ring.
    rewrite Rabs_Ropp.
    destruct (Rle_dec float32_huge _).
    + destruct (Rlt_dec x 0), (Rlt_dec (- x) 0); try reflexivity; lra.
    + reflexivity.
Qed.

Lemma Rabs_le_bounds (a b : R) : Rabs a <= b -> - b <= a <= b.
Proof. unfold Rabs. destruct (Rcase_abs a); lra. Qed.

Lemma float32_ulp_binade (x : R) (E : Z) :
  powerRZ 2 E <= Rabs x < powerRZ 2 (E + 1) -> float32_ulp x = (E - 23)%Z.
Proof. intros H. unfold float32_ulp. now rewrite (binade_unique _ E H). Qed.

Lemma round32_scaled (x : R) :
  float32_min <= Rabs x ->
  let e := float32_ulp x in
  let v := IZR (round_even (x * powerRZ 2 (- e))) * powerRZ 2 e in
  Rabs (v - x) <= powerRZ 2 e / 2 /\
  (Rabs v < float32_huge -> round32 x = Fin v).
Proof.
  intros Hx e v. split.
  - pose proof (round_even_error (x * powerRZ 2 (- e))) as Hr.
    pose proof (powerRZ_2_pos e) as He.
    pose proof (powerRZ_2_inv e) as Hi.
    replace (v - x)
      with ((IZR (round_even (x * powerRZ 2 (- e))) - x * powerRZ 2 (- e))
            * powerRZ 2 e)
      by (unfold v; rewrite Rmult_minus_distr_r, Rmult_assoc, Hi; ring).
    rewrite Rabs_mult, (Rabs_pos_eq (powerRZ 2 e)) by lra. nra.
  - intros Hv. unfold round32.
    destruct (Rlt_dec (Rabs x) float32_min) as [Hs | _]; [lra |].
    fold e. fold v.
    destruct (Rle_dec float32_huge (Rabs v)) as [Ho | _]; [lra | reflexivity].
Qed.

Lemma float32_huge_big : 4 <= float32_huge.
Proof.
  unfold float32_huge. change (2 ^ 128) with (2 * (2 * 2 ^ 126)).
  assert (1 <= 2 ^ 126) by (apply pow_R1_Rle; lra). nra.
Qed.

(** Inside the unit interval a value moves by at most [2^-25]. *)
Lemma round32_unit (x : R) :
  Rabs x < 1 ->
  exists v, round32 x = Fin v /\ Rabs (v - x) <= / 2 ^ 25.
Proof.
  intros Hx.
  assert (P25 : 0 < / 2 ^ 25) by (apply Rinv_0_lt_compat, pow_lt; lra).
  destruct (Rlt_dec (Rabs x) float32_min) as [Hs | Hs].
  - exists 0. split; [now apply round32_small |].
    replace (0 - x) with (- x) by ring. rewrite Rabs_Ropp.
    apply Rle_trans with float32_min; [lra |].
    unfold float32_min. apply Rinv_le_contravar; [apply pow_lt; lra |].
    apply Rle_pow; [lra | lia].
  - apply Rnot_lt_le in Hs.
    assert (Hpos : 0 < Rabs x) by (pose proof float32_min_pos; lra).
    destruct (binade_bounds (Rabs x) Hpos) as [B1 B2].
    set (E := Int_part (ln (Rabs x) / ln 2)) in *.
    assert (HE : (E <= -1)%Z).
    { destruct (Z_le_gt_dec E (-1)) as [| Hgt]; [assumption |].
      assert (H0 : powerRZ 2 0 <= powerRZ 2 E) by (apply powerRZ_2_le; lia).
      cbn in H0. lra. }
    destruct (round32_scaled x Hs) as [Herr Hfin]. cbv zeta in Herr, Hfin.
    assert (Hu : float32_ulp x = (E - 23)%Z) by reflexivity.
    rewrite Hu in *.
    assert (Hp : powerRZ 2 (E - 23) <= / 2 ^ 24).
    { change (/ 2 ^ 24) with (powerRZ 2 (-24)). apply powerRZ_2_le. lia. }
    set (v := IZR (round_even (x * powerRZ 2 (- (E - 23)))) * powerRZ 2 (E - 23))
      in *.
    assert (Hv : Rabs (v - x) <= / 2 ^ 25).
    { replace (/ 2 ^ 25) with (/ 2 ^ 24 / 2); [lra |].
      change (2 ^ 25) with (2 * 2 ^ 24). field. }
    exists v. split; [| exact Hv].
    apply Hfin.
    assert (Rabs v <= Rabs (v - x) + Rabs x).
    { replace v with ((v - x) + x) at 1 by ring. apply Rabs_triang. }
    assert (/ 2 ^ 25 <= 1).
    { rewrite <- Rinv_1. apply Rinv_le_contravar; [lra |]. apply pow_R1_Rle. lra. }
    pose proof float32_huge_big. lra.
Qed.

(** A positive normal value stays positive. *)
Lemma round32_normal (x : R) :
  float32_min <= x <= 1 ->
  exists v, round32 x = Fin v /\ x / 2 <= v <= 2 * x.
Proof.
  intros [Hlo Hhi].
  assert (Hx : 0 < x) by (pose proof float32_min_pos; lra).
  assert (Ha : Rabs x = x) by (apply Rabs_pos_eq; lra).
  assert (Hs : float32_min <= Rabs x) by lra.
  destruct (binade_bounds x Hx) as [B1 B2].
  destruct (round32_scaled x Hs) as [Herr Hfin]. cbv zeta in Herr, Hfin.
  unfold float32_ulp in *. rewrite Ha in *.
  set (E := Int_part (ln x / ln 2)) in *.
  set (v := IZR (round_even (x * powerRZ 2 (- (E - 23)))) * powerRZ 2 (E - 23))
    in *.
  assert (Hp : powerRZ 2 (E - 23) <= powerRZ 2 E) by (apply powerRZ_2_le; lia).
  pose proof (powerRZ_2_pos (E - 23)) as Hpp.
  apply Rabs_le_bounds in Herr.
  assert (Hv : x / 2 <= v <= 2 * x).
  { clear Hfin B2. clearbody v.
    generalize dependent (powerRZ 2 (E - 23)).
    generalize dependent (powerRZ 2 E). intros. clear Hlo Hs Ha. lra. }
  exists v. split; [| exact Hv].
  apply Hfin. rewrite Rabs_pos_eq by lra.
  pose proof float32_huge_big. lra.
Qed.

Lemma round32_24 : round32 24 = Fin 24.
Proof.
  assert (Ha : Rabs 24 = 24) by (apply Rabs_pos_eq; lra).
  assert (Hs : float32_min <= Rabs 24).
  { rewrite Ha. apply Rle_trans with 1; [| lra].
    unfold float32_min. rewrite <- Rinv_1.
    apply Rinv_le_contravar; [lra | apply pow_R1_Rle; lra]. }
  assert (Hu : float32_ulp 24 = (-19)%Z).
  { apply (float32_ulp_binade 24 4). rewrite Ha.
    change (powerRZ 2 4) with (2 ^ 4). change (powerRZ 2 (4 + 1)) with (2 ^ 5).
    lra. }
  destruct (round32_scaled 24 Hs) as [_ Hfin]. cbv zeta in Hfin.
  rewrite Hu in Hfin.
  assert (Ey : 24 * powerRZ 2 (- -19) = IZR 12582912).
  { change (powerRZ 2 (- -19)) with (2 ^ 19). lra. }
  rewrite Ey, round_even_IZR in Hfin.
  assert (Ev : IZR 12582912 * powerRZ 2 (-19) = 24).
  { change (powerRZ 2 (-19)) with (/ 2 ^ 19). lra. }
  rewrite Ev in Hfin. apply Hfin.
  rewrite Ha. unfold float32_huge. lra.
Qed.

(** The midpoint between 1 and its predecessor goes to 1. *)
Lemma round32_below_one : round32 (1 - / 2 ^ 25) = Fin 1.
Proof.
  set (x := 1 - / 2 ^ 25).
  assert (P : 0 < / 2 ^ 25 <= / 2).
  { split; [apply Rinv_0_lt_compat, pow_lt; lra |].
    apply Rinv_le_contravar; [lra |].
    change (2 ^ 25) with (2 * 2 ^ 24).
    assert (1 <= 2 ^ 24) by (apply pow_R1_Rle; lra). lra. }
  assert (Hx : / 2 <= x < 1) by (unfold x; lra).
  assert (Ha : Rabs x = x) by (apply Rabs_pos_eq; lra).
  assert (Hs : float32_min <= Rabs x).
  { rewrite Ha. apply Rle_trans with (/ 2); [| lra].
    unfold float32_min. apply Rinv_le_contravar; [lra |].
    change (2 ^ 126) with (2 * 2 ^ 125).
    assert (1 <= 2 ^ 125) by (apply pow_R1_Rle; lra). lra. }
  assert (Hu : float32_ulp x = (-24)%Z).
  { apply (float32_ulp_binade x (-1)). rewrite Ha.
    change (powerRZ 2 (-1)) with (/ 2 ^ 1).
    change (powerRZ 2 (-1 + 1)) with 1. lra. }
  destruct (round32_scaled x Hs) as [_ Hfin]. cbv zeta in Hfin.
  rewrite Hu in Hfin.
  assert (Ey : x * powerRZ 2 (- -24) = IZR 16777215 + 1 / 2).
  { unfold x. change (powerRZ 2 (- -24)) with (2 ^ 24).
    change (2 ^ 25) with (2 * 2 ^ 24).
    assert (E24 : 2 ^ 24 = 16777216) by (cbn; lra).
    rewrite E24. lra. }
  assert (Er : round_even (IZR 16777215 + 1 / 2) = 16777216%Z).
  { unfold round_even.
    assert (Ei : Int_part (IZR 16777215 + 1 / 2) = 16777215%Z).
    { symmetry. apply Int_part_spec. lra. }
    rewrite Ei.
    destruct (total_order_T _ _) as [[Hlt | Heq] | Hgt]; [lra | reflexivity | lra]. }
  rewrite Ey, Er in Hfin.
  assert (Ev : IZR 16777216 * powerRZ 2 (-24) = 1).
  { change (powerRZ 2 (-24)) with (/ 2 ^ 24).
    assert (E24 : 2 ^ 24 = 16777216) by (cbn; lra).
    rewrite E24. lra. }
  rewrite Ev in Hfin. apply Hfin.
  rewrite Rabs_pos_eq by lra. pose proof float32_huge_big. lra.
Qed.

(** ** Lists and shapes *)

Lemma shape_eqb_eq (s1 s2 : list nat) : shape_eqb s1 s2 = true <-> s1 = s2.
Proof.
  revert s2. induction s1 as [| a s1 IH]; intros [| b s2]; simpl;
    try (split; [discriminate | discriminate]); try tauto.
  rewrite andb_true_iff, Nat.eqb_eq, IH.
  split; [intros [-> ->]; reflexivity | intros H; inversion H; auto].
Qed.

Lemma shape_eqb_refl (s : list nat) : shape_eqb s s = true.
Proof. now apply shape_eqb_eq. Qed.

Lemma shape_eqb_sym (s1 s2 : list nat) : shape_eqb s1 s2 = shape_eqb s2 s1.
Proof.
  destruct (shape_eqb s1 s2) eqn:E1, (shape_eqb s2 s1) eqn:E2; try reflexivity.
  - apply shape_eqb_eq in E1. subst. rewrite shape_eqb_refl in E2. discriminate.
  - apply shape_eqb_eq in E2. subst. rewrite shape_eqb_refl in E1. discriminate.
Qed.

Lemma map2_comm {A B : Type} (f : A -> A -> B) (l1 l2 : list A) :
  (forall a b, f a b = f b a) -> map2 f l1 l2 = map2 f l2 l1.
Proof.
  intros Hf. unfold map2. revert l2.
  induction l1 as [| a l1 IH]; intros [| b l2]; simpl; try reflexivity.
  now rewrite Hf, IH.
Qed.

Lemma tf_map2_comm (f : tfloat -> tfloat -> tfloat) (x y : tensor tfloat) :
  (forall a b, f a b = f b a) -> tf_map2 f x y = tf_map2 f y x.
Proof.
  intros Hf. unfold tf_map2. rewrite (shape_eqb_sym (shape y)).
  destruct (shape_eqb (shape x) (shape y)) eqn:E; [| reflexivity].
  apply shape_eqb_eq in E. now rewrite E, (map2_comm f _ _ Hf).
Qed.

(** ** The divergences fail with a shape error only *)

Lemma tf_map2_err {A B C : Type} (f : A -> B -> C) x y e :
  tf_map2 f x y = Err e -> e = ShapeError.
Proof.
  unfold tf_map2. destruct (shape_eqb _ _); [discriminate |].
  now intros [= <-].
Qed.

Lemma reduce_sum_last2_err x e : reduce_sum_last2 x = Err e -> e = ShapeError.
Proof.
  unfold reduce_sum_last2.
  destruct (split_last2 (shape x)) as [[[lead h] w] |]; [discriminate |].
  now intros [= <-].
Qed.

Lemma kl_2d_err p q eps e : _kl_2d p q eps = Err e -> e = ShapeError.
Proof.
  unfold _kl_2d.
  destruct (tf_map2 tsub _ _) as [d |e1] eqn:E1; simpl.
  - destruct (tf_map2 tmul p d) as [u | e2] eqn:E2; simpl.
    + apply reduce_sum_last2_err.
    + intros [= <-]. eapply tf_map2_err; eauto.
  - intros [= <-]. eapply tf_map2_err; eauto.
Qed.

(** ** Unknown rectification methods *)

(** C3: a method string outside softmax, abs, relu and sigmoid never
    yields a heatmap, whatever the input; once the input has passed the
    reshape to its first three dimensions (which reads the shape only),
    the failure is the [ValueError] whose message names the unknown
    method, and [dsnt] fails with the same error. *)
Theorem unknown_method_rejected (inputs : tensor R) (method : string) :
  method <> "softmax"%string -> method <> "abs"%string ->
  method <> "relu"%string -> method <> "sigmoid"%string ->
  (forall out, _normalise_heatmap inputs (Some method) <> Ok out) /\
  (length (data inputs) = numel (firstn 3 (shape inputs)) ->
   _normalise_heatmap inputs (Some method)
     = Err (ValueError ("Unknown rectification method " ++ quote
                          ++ method ++ quote)%string) /\
   dsnt inputs (Some method)
     = Err (ValueError ("Unknown rectification method " ++ quote
                          ++ method ++ quote)%string)).
Proof.
  intros H1 H2 H3 H4.
  apply String.eqb_neq in H1, H2, H3, H4.
  assert (Hn : forall t, (if String.eqb method "softmax" then _softmax2d t
              else if String.eqb method "abs" then normalise (tf_map Rabs t)
              else if String.eqb method "relu" then normalise (tf_map relu t)
              else if String.eqb method "sigmoid"
                   then normalise (tf_map sigmoid t)
              else Err (ValueError (unknown_method_msg method)))
              = Err (ValueError (unknown_method_msg method))).
  { intros t. now rewrite H1, H2, H3, H4. }
  split.
  - intros out. unfold _normalise_heatmap.
    destruct (tf_reshape inputs _) as [t | e]; simpl.
    + rewrite Hn. discriminate.
    + discriminate.
  - intros Hlen.
    assert (Hnorm : _normalise_heatmap inputs (Some method)
                    = Err (ValueError (unknown_method_msg method))).
    { unfold _normalise_heatmap, tf_reshape.
      rewrite Hlen, Nat.eqb_refl. simpl. apply Hn. }
    split; [exact Hnorm |].
    unfold dsnt. now rewrite Hnorm.
Qed.

Lemma unknown_method_rejected_witness :
  _normalise_heatmap (Tensor [1; 1; 1]%nat [0]) (Some "tanh"%string)
  = Err (ValueError ("Unknown rectification method " ++ quote
                       ++ "tanh" ++ quote)%string).
Proof.
  apply (unknown_method_rejected (Tensor [1; 1; 1]%nat [0]) "tanh");
    try discriminate.
  reflexivity.
Defined.

(** ** The default [eps] of the Kullback-Leibler helper *)

Lemma ln_ratio_neq (a b c d : R) :
  0 < a -> 0 < b -> 0 < c -> 0 < d -> a * d <> c * b ->
  ln a - ln b <> ln c - ln d.
Proof.
  intros Ha Hb Hc Hd Hne Heq.
  apply Hne. apply ln_inv; try (apply Rmult_lt_0_compat; assumption).
  rewrite !ln_mult by assumption. lra.
Qed.

(** C2: called without [eps], [_kl_2d] adds 24 inside both logarithms,
    not 1e-24: on the one-pixel distributions [p = 1] and [q = 0] it
    returns [ln 25 - ln 24], which is not what [eps = 1e-24] gives.
    [_js_2d] called without [eps] does pass 1e-24 on. *)
Theorem kl_2d_default_eps :
  (forall p q, _kl_2d p q None = _kl_2d p q (Some 24)) /\
  _kl_2d (Tensor [1; 1; 1]%nat [Fin 1]) (Tensor [1; 1; 1]%nat [Fin 0]) None
    = Ok (Tensor [1%nat] [Fin (1 * (ln 25 - ln 24) + 0)]) /\
  _kl_2d (Tensor [1; 1; 1]%nat [Fin 1]) (Tensor [1; 1; 1]%nat [Fin 0]) None
    <> _kl_2d (Tensor [1; 1; 1]%nat [Fin 1]) (Tensor [1; 1; 1]%nat [Fin 0])
         (Some (1 / 10 ^ 24)) /\
  (forall p q, _js_2d p q None = _js_2d p q (Some (1 / 10 ^ 24))).
Proof.
  assert (H24 : _kl_2d (Tensor [1; 1; 1]%nat [Fin 1])
                  (Tensor [1; 1; 1]%nat [Fin 0]) None
                = Ok (Tensor [1%nat] [Fin (1 * (ln 25 - ln 24) + 0)])).
  { unfold _kl_2d. cbv zeta. rewrite round32_24.
    unfold tf_map2, reduce_sum_last2, tf_map, map2. cbn.
    rewrite !sign_case_pos by lra. cbn.
    replace (1 + 24) with 25 by lra.
    replace (0 + 24) with 24 by lra. reflexivity. }
  repeat split; try reflexivity; [exact H24 |].
  rewrite H24. clear H24.
  destruct (round32_normal (1 / 10 ^ 24)) as [v [Ev Hv]].
  { unfold float32_min. lra. }
  assert (Hne : ln 25 - ln 24 <> ln (1 + v) - ln (0 + v)).
  { apply ln_ratio_neq; lra. }
  unfold _kl_2d. cbv zeta. rewrite Ev. clear Ev.
  unfold tf_map2, reduce_sum_last2, tf_map, map2. cbn.
  rewrite !sign_case_pos by lra. cbn.
  intros [= Heq]. apply Hne. lra.
Qed.

(** ** Symmetry of the Jensen-Shannon divergence *)

(** C6: [_js_2d] does not depend on the order of its two distributions,
    for every [eps], the default included. *)
Theorem js_2d_symmetric (p q : tensor tfloat) (eps : option R) :
  _js_2d p q eps = _js_2d q p eps.
Proof.
  unfold _js_2d.
  rewrite (tf_map2_comm tadd q p tadd_comm).
  destruct (tf_map2 tadd p q) as [s | e]; [| reflexivity]. simpl.
  set (m := tf_map (tmul (Fin (1 / 2))) s).
  set (e' := Some _).
  destruct (_kl_2d p m e') as [a | e1] eqn:E1;
    destruct (_kl_2d q m e') as [b | e2] eqn:E2; simpl; try reflexivity.
  - apply tf_map2_comm, tadd_comm.
  - apply kl_2d_err in E1, E2. now subst.
Qed.

(** ** Blocks of a flat list *)

Lemma chunks_length {A : Type} (n k : nat) (l : list A) :
  length (chunks n k l) = k.
Proof.
  revert l. induction k as [| k IH]; intros l; simpl; [reflexivity |].
  now rewrite IH.
Qed.

Lemma In_firstn {A : Type} (n : nat) (l : list A) (v : A) :
  In v (firstn n l) -> In v l.
Proof.
  intros H. rewrite <- (firstn_skipn n l). apply in_or_app. now left.
Qed.

Lemma In_skipn {A : Type} (n : nat) (l : list A) (v : A) :
  In v (skipn n l) -> In v l.
Proof.
  intros H. rewrite <- (firstn_skipn n l). apply in_or_app. now right.
Qed.

Lemma chunks_In {A : Type} (n k : nat) (l c : list A) (v : A) :
  In c (chunks n k l) -> In v c -> In v l.
Proof.
  revert l. induction k as [| k IH]; intros l; simpl; [tauto |].
  intros [<- | Hc] Hv.
  - eapply In_firstn; eauto.
  - eapply In_skipn, IH; eauto.
Qed.

Lemma all_eq_repeat {A : Type} (c : A) (l : list A) :
  (forall v, In v l -> v = c) -> l = repeat c (length l).
Proof.
  induction l as [| a l IH]; intros H; simpl; [reflexivity |].
  rewrite <- IH by (intros; apply H; now right).
  now rewrite (H a) by now left.
Qed.

Lemma map2_map_same {A B C D : Type} (f : B -> C -> D) (g : A -> B)
  (h : A -> C) (l : list A) :
  map2 f (map g l) (map h l) = map (fun x => f (g x) (h x)) l.
Proof.
  unfold map2. induction l as [| a l IH]; simpl; [reflexivity |].
  now rewrite IH.
Qed.

Lemma map2_same {A B : Type} (f : A -> A -> B) (l : list A) :
  map2 f l l = map (fun x => f x x) l.
Proof.
  rewrite <- (map_id l) at 1 2. apply map2_map_same.
Qed.

(** ** The divergence of a distribution from itself *)

Lemma kl_term_self (x eps : R) :
  0 <= x -> float32_min <= eps <= 1 ->
  tmul (Fin x)
    (tsub (tlog (tadd (Fin x) (round32 eps)))
          (tlog (tadd (tmul (Fin (1 / 2)) (tadd (Fin x) (Fin x)))
                      (round32 eps))))
  = Fin 0.
Proof.
  intros Hx He. destruct (round32_normal eps He) as [v [-> Hv]].
  pose proof float32_min_pos. cbn [tadd tmul].
  rewrite !tlog_pos by lra.
  replace (1 / 2 * (x + x) + v) with (x + v) by lra.
  cbn. f_equal. lra.
Qed.

(** C9: the Jensen-Shannon divergence of a distribution from itself is
    zero for every batch element, whenever [eps] lies between the
    smallest normal [float32] and 1 (as does the default) and every
    value of the distribution lies between 0 and 1. *)
Theorem js_2d_self_zero (p : tensor tfloat) (eps : option R) (B H W : nat) :
  shape p = [B; H; W] ->
  (forall v, In v (data p) -> exists x, v = Fin x /\ 0 <= x <= 1) ->
  (forall e, eps = Some e -> float32_min <= e <= 1) ->
  _js_2d p p eps = Ok (Tensor [B] (repeat (Fin 0) B)).
Proof.
  intros Hs Hp He.
  unfold _js_2d.
  set (e := match eps with Some e => e | None => 1 / 10 ^ 24 end).
  assert (Hepos : float32_min <= e <= 1).
  { subst e. destruct eps as [e |]; [now apply He |].
    unfold float32_min. lra. }
  clearbody e.
  unfold tf_map2 at 1. rewrite shape_eqb_refl. cbn [bind].
  rewrite map2_same.
  assert (Hkl : _kl_2d p
      (tf_map (tmul (Fin (1 / 2)))
         (Tensor (shape p) (map (fun x => tadd x x) (data p)))) (Some e)
      = Ok (Tensor [B] (repeat (Fin 0) B))).
  { unfold _kl_2d, tf_map, tf_map2. cbn [shape data].
    rewrite shape_eqb_refl. cbn [bind shape data].
    rewrite shape_eqb_refl. cbn [bind].
    rewrite !map_map, map2_map_same.
    rewrite <- (map_id (data p)) at 1. rewrite map2_map_same.
    unfold reduce_sum_last2. cbn [shape data]. rewrite Hs. cbn [split_last2 rev app].
    cbn [numel fold_right]. rewrite Nat.mul_1_r.
    f_equal. f_equal.
    etransitivity; [apply (all_eq_repeat (Fin 0)) |].
    2: rewrite length_map, chunks_length; reflexivity.
    { intros v Hv. apply in_map_iff in Hv as [c [<- Hc]].
      apply tsum_zeros. intros u Hu.
      eapply chunks_In in Hu; [| exact Hc].
      apply in_map_iff in Hu as [y [<- Hy]].
      destruct (Hp y Hy) as [x [-> [Hx _]]].
      now apply kl_term_self. } }
  rewrite Hkl. cbn [bind].
  unfold tf_map2, tf_map. cbn [shape data]. rewrite shape_eqb_refl.
  f_equal. f_equal. rewrite map2_same, map_map.
  etransitivity; [apply (all_eq_repeat (Fin 0)) |].
  2: rewrite length_map, repeat_length; reflexivity.
  intros v Hv. apply in_map_iff in Hv as [c [<- Hc]].
  apply repeat_spec in Hc. subst c. cbn. f_equal. lra.
Qed.

Lemma js_2d_self_zero_witness :
  _js_2d (Tensor [1; 1; 2]%nat [Fin (1 / 4); Fin (3 / 4)])
         (Tensor [1; 1; 2]%nat [Fin (1 / 4); Fin (3 / 4)]) None
  = Ok (Tensor [1%nat] [Fin 0]).
Proof.
  apply (js_2d_self_zero (Tensor [1; 1; 2]%nat [Fin (1 / 4); Fin (3 / 4)])
           None 1 1 2).
  - reflexivity.
  - simpl. intros v [<- | [<- | []]]; eexists; (split; [reflexivity | lra]).
  - discriminate.
Defined.

(** ** Planes of a tensor built plane by plane *)

Lemma chunks_all_length {A : Type} (n k : nat) (l : list A) :
  (k * n <= length l)%nat ->
  forall c, In c (chunks n k l) -> length c = n.
Proof.
  revert l. induction k as [| k IH]; intros l Hl c; simpl; [tauto |].
  intros [<- | Hc].
  - rewrite length_firstn. lia.
  - eapply IH; [| exact Hc]. rewrite length_skipn. lia.
Qed.

Lemma chunks_concat {A : Type} (n : nat) (ls : list (list A)) :
  (forall c, In c ls -> length c = n) ->
  chunks n (length ls) (concat ls) = ls.
Proof.
  induction ls as [| c ls IH]; intros H; simpl; [reflexivity |].
  assert (Hc : length c = n) by (apply H; now left).
  rewrite firstn_app, skipn_app, Hc, Nat.sub_diag. simpl.
  rewrite app_nil_r, <- Hc, firstn_all, skipn_all. simpl.
  rewrite Hc, IH by (intros; apply H; now right). reflexivity.
Qed.

Lemma chunks_nth {A : Type} (n k b : nat) (l : list A) :
  (b < k)%nat -> nth b (chunks n k l) [] = block n b l.
Proof.
  revert b l. induction k as [| k IH]; intros b l Hb; [lia |].
  destruct b as [| b]; simpl.
  - reflexivity.
  - rewrite IH by lia. unfold block. simpl. rewrite skipn_skipn.
    f_equal. f_equal. lia.
Qed.

Lemma block_concat {A : Type} (n b : nat) (ls : list (list A)) :
  (forall c, In c ls -> length c = n) -> (b < length ls)%nat ->
  block n b (concat ls) = nth b ls [].
Proof.
  intros H Hb. rewrite <- (chunks_nth n (length ls)) by exact Hb.
  now rewrite chunks_concat.
Qed.

Lemma concat_length_const {A : Type} (n : nat) (ls : list (list A)) :
  (forall c, In c ls -> length c = n) ->
  length (concat ls) = (length ls * n)%nat.
Proof.
  induction ls as [| c ls IH]; intros H; simpl; [reflexivity |].
  rewrite length_app, IH by (intros; apply H; now right).
  rewrite (H c) by now left. reflexivity.
Qed.

Lemma map2_map_r {A B C : Type} (f : A -> B -> C) (g : A -> B) (l : list A) :
  map2 f l (map g l) = map (fun x => f x (g x)) l.
Proof.
  rewrite <- (map_id l) at 1. apply map2_map_same.
Qed.

Lemma map_nth_in {A B : Type} (f : A -> B) (l : list A) (n : nat) (d : A)
  (d' : B) :
  (n < length l)%nat -> nth n (map f l) d' = f (nth n l d).
Proof.
  intros H. rewrite (nth_indep _ d' (f d)) by now rewrite length_map.
  apply map_nth.
Qed.

(** A tensor built by mapping a length-preserving function over the
    planes of a well-formed rank-3 tensor has these images as planes. *)
Lemma block_planewise {A B : Type} (F : list A -> list B) (n k b : nat)
  (l : list A) :
  (forall c, length (F c) = length c) ->
  (k * n <= length l)%nat -> (b < k)%nat ->
  block n b (concat (map F (chunks n k l))) = F (block n b l).
Proof.
  intros HF Hl Hb.
  rewrite block_concat.
  - rewrite (map_nth_in F _ _ []) by now rewrite chunks_length.
    now rewrite chunks_nth.
  - intros c Hc. apply in_map_iff in Hc as [c0 [<- Hc0]].
    rewrite HF. eapply chunks_all_length; eauto.
  - now rewrite length_map, chunks_length.
Qed.

Lemma chunks_concat_k {A : Type} (n k : nat) (ls : list (list A)) :
  length ls = k -> (forall c, In c ls -> length c = n) ->
  chunks n k (concat ls) = ls.
Proof. intros <-. apply chunks_concat. Qed.

(** ** The rectifications act plane by plane *)

Lemma softmax2d_planewise (target : tensor R) (B H W : nat) :
  shape target = [B; H; W] ->
  length (data target) = (B * (H * W))%nat ->
  _softmax2d target
  = Ok (Tensor [B; H; W]
          (concat (map softmax_plane (chunks (H * W) B (data target))))).
Proof.
  intros Hs Hl. unfold _softmax2d.
  unfold reduce_axes12 at 1. rewrite Hs. cbn [bind].
  unfold bcast_planes at 1. rewrite Hs. cbn [shape data].
  rewrite Nat.eqb_refl. cbn [bind]. rewrite map2_map_r.
  unfold tf_map. cbn [shape data].
  unfold reduce_axes12. cbn [shape data bind].
  unfold bcast_planes. cbn [shape data]. rewrite Nat.eqb_refl.
  rewrite concat_map, map_map.
  rewrite chunks_concat_k.
  - rewrite map2_map_r, map_map. do 3 f_equal.
    apply map_ext. intros pl. unfold softmax_plane.
    now rewrite !map_map.
  - now rewrite length_map, chunks_length.
  - intros c Hc. apply in_map_iff in Hc as [c0 [<- Hc0]].
    rewrite !length_map. eapply chunks_all_length; [| exact Hc0]. lia.
Qed.

Lemma normalise_planewise (x : tensor R) (H W : nat) :
  shape x = [2%nat; H; W] ->
  normalise x
  = Ok (Tensor [2%nat; H; W]
          (concat (map normalise_plane (chunks (H * W) 2 (data x))))).
Proof.
  intros Hs. unfold normalise, reduce_axes12. rewrite Hs. cbn [bind].
  unfold tf_reshape. cbn [data]. rewrite length_map, chunks_length.
  change (Nat.eqb (numel [2; 1; 1]%nat) 2) with true. cbn [bind].
  unfold bcast_planes. rewrite Hs. cbn [shape data].
  change (Nat.eqb 2 2) with true.
  now rewrite map2_map_r.
Qed.

(** The literal [[2, 1, 1]] of [normalise] rejects every other batch
    size. *)
Lemma normalise_batch_not_two (x : tensor R) (B H W : nat) :
  shape x = [B; H; W] -> B <> 2%nat -> normalise x = Err ShapeError.
Proof.
  intros Hs HB. unfold normalise, reduce_axes12. rewrite Hs. cbn [bind].
  unfold tf_reshape. cbn [data]. rewrite length_map, chunks_length.
  change (numel [2; 1; 1]%nat) with 2%nat.
  destruct (Nat.eqb_spec 2 B) as [E | E]; [congruence | reflexivity].
Qed.

(** ** Sums of reals *)

Lemma rsum_nonneg (l : list R) : (forall v, In v l -> 0 <= v) -> 0 <= rsum l.
Proof.
  induction l as [| a l IH]; intros H; simpl; [lra |].
  assert (0 <= a) by (apply H; now left).
  assert (0 <= rsum l) by (apply IH; intros; apply H; now right).
  lra.
Qed.

Lemma rsum_pos (l : list R) :
  l <> [] -> (forall v, In v l -> 0 < v) -> 0 < rsum l.
Proof.
  intros Hne H. destruct l as [| a l]; [congruence |]. simpl.
  assert (0 < a) by (apply H; now left).
  assert (0 <= rsum l).
  { apply rsum_nonneg. intros v Hv. apply Rlt_le, H. now right. }
  lra.
Qed.

Lemma rsum_map_div (f : R -> R) (s : R) (l : list R) :
  rsum (map (fun x => f x / s) l) = rsum (map f l) / s.
Proof.
  induction l as [| a l IH]; simpl; [unfold Rdiv; ring |].
  rewrite IH. unfold Rdiv. ring.
Qed.

Lemma fold_left_Rmax_ge (l : list R) (a : R) :
  a <= fold_left Rmax l a /\ forall x, In x l -> x <= fold_left Rmax l a.
Proof.
  revert a. induction l as [| b l IH]; intros a; simpl.
  - split; [lra | tauto].
  - destruct (IH (Rmax a b)) as [H1 H2].
    pose proof (Rmax_l a b). pose proof (Rmax_r a b).
    split; [lra |]. intros x [<- | Hx]; [lra | now apply H2].
Qed.

Lemma block_length {A : Type} (n k b : nat) (l : list A) :
  length l = (k * n)%nat -> (b < k)%nat -> length (block n b l) = n.
Proof.
  intros Hl Hb. unfold block. rewrite length_firstn, length_skipn. nia.
Qed.

Lemma block_map {A B : Type} (f : A -> B) (n b : nat) (l : list A) :
  block n b (map f l) = map f (block n b l).
Proof. unfold block. now rewrite skipn_map, firstn_map. Qed.

Lemma block_In {A : Type} (n b : nat) (l : list A) (v : A) :
  In v (block n b l) -> In v l.
Proof. intros H. eapply In_skipn, In_firstn, H. Qed.

(** ** Values of a rectified plane *)

Lemma fold_left_Rmax_In (l : list R) (a : R) :
  In (fold_left Rmax l a) (a :: l).
Proof.
  revert a. induction l as [| b l IH]; intros a; cbn [fold_left].
  - now left.
  - destruct (IH (Rmax a b)) as [E | Hin].
    + rewrite <- E. unfold Rmax. destruct (Rle_dec a b); [right |]; now left.
    + right. now right.
Qed.

Lemma rsum_ge_In (l : list R) (x : R) :
  (forall v, In v l -> 0 <= v) -> In x l -> x <= rsum l.
Proof.
  induction l as [| a l IH]; intros Hnn Hx; [contradiction |].
  cbn [rsum fold_right].
  assert (Ha : 0 <= a) by (apply Hnn; now left).
  assert (Hl : 0 <= rsum l).
  { apply rsum_nonneg. intros v Hv. apply Hnn. now right. }
  destruct Hx as [<- | Hx]; [unfold rsum in Hl; lra |].
  assert (x <= rsum l) by (apply IH; [intros; apply Hnn; now right | exact Hx]).
  unfold rsum in *. lra.
Qed.

(** The maximum of a plane is one of its values and bounds them all. *)
Lemma plane_max (pl : list R) :
  pl <> [] ->
  let m := fold_left Rmax (tl pl) (hd 0 pl) in
  In m pl /\ forall x, In x pl -> x <= m.
Proof.
  intros Hne m. subst m. destruct pl as [| a pl']; [congruence |].
  cbn [tl hd]. split; [apply fold_left_Rmax_In |].
  destruct (fold_left_Rmax_ge pl' a) as [H1 H2].
  intros x [<- | Hx]; [exact H1 | now apply H2].
Qed.

(** The maximum itself contributes [exp 0 = 1] to the sum of the shifted
    exponentials, which therefore never vanishes. *)
Lemma softmax_sum_ge_1 (pl : list R) :
  pl <> [] ->
  let m := fold_left Rmax (tl pl) (hd 0 pl) in
  1 <= rsum (map (fun y => exp32 (y - m)) pl).
Proof.
  intros Hne m. destruct (plane_max pl Hne) as [Hin _]. fold m in Hin.
  apply rsum_ge_In.
  - intros v Hv. apply in_map_iff in Hv as [y [<- _]]. apply exp32_nonneg.
  - apply in_map_iff. exists m. split; [| exact Hin].
    replace (m - m) with 0 by ring. apply exp32_0.
Qed.

Lemma softmax_plane_values (pl : list R) :
  pl <> [] ->
  let m := fold_left Rmax (tl pl) (hd 0 pl) in
  softmax_plane pl
  = map (fun x => Fin (exp32 (x - m) / rsum (map (fun y => exp32 (y - m)) pl)))
        pl.
Proof.
  intros Hne m. unfold softmax_plane.
  assert (Hm : rmax_list pl = Fin m) by (destruct pl; [congruence | reflexivity]).
  rewrite Hm.
  destruct (plane_max pl Hne) as [_ Hmax]. fold m in Hmax.
  assert (He : map (fun e => texp (tsub (Fin e) (Fin m))) pl
               = map Fin (map (fun y => exp32 (y - m)) pl)).
  { rewrite map_map. apply map_ext_in. intros e Hin.
    cbn [tsub topp tadd]. apply texp_nonpos.
    specialize (Hmax e Hin). lra. }
  rewrite He, tsum_map_Fin, !map_map. apply map_ext. intros x.
  apply tdiv_fin. pose proof (softmax_sum_ge_1 pl Hne) as Hge.
  cbv zeta in Hge. fold m in Hge. lra.
Qed.

Lemma softmax_plane_distribution (pl : list R) :
  pl <> [] ->
  exists vals, softmax_plane pl = map Fin vals /\ length vals = length pl /\
               (forall v, In v vals -> 0 <= v) /\ rsum vals = 1.
Proof.
  intros Hne. set (m := fold_left Rmax (tl pl) (hd 0 pl)).
  pose proof (softmax_sum_ge_1 pl Hne) as Hs. cbv zeta in Hs. fold m in Hs.
  exists (map (fun x => exp32 (x - m) / rsum (map (fun y => exp32 (y - m)) pl))
              pl).
  repeat split.
  - rewrite softmax_plane_values by exact Hne. now rewrite map_map.
  - apply length_map.
  - intros v Hv. apply in_map_iff in Hv as [y [<- _]].
    apply Rmult_le_pos; [apply exp32_nonneg |].
    apply Rlt_le, Rinv_0_lt_compat. lra.
  - rewrite rsum_map_div. field. lra.
Qed.

Lemma normalise_plane_distribution (pl : list R) :
  (forall v, In v pl -> 0 <= v) -> rsum pl <> 0 ->
  exists vals, normalise_plane pl = map Fin vals /\ length vals = length pl /\
               (forall v, In v vals -> 0 <= v) /\ rsum vals = 1.
Proof.
  intros Hnn Hs.
  assert (Hpos : 0 < rsum pl) by (pose proof (rsum_nonneg pl Hnn); lra).
  exists (map (fun x => x / rsum pl) pl).
  repeat split.
  - unfold normalise_plane. rewrite map_map. apply map_ext. intros x.
    now apply tdiv_fin.
  - apply length_map.
  - intros v Hv. apply in_map_iff in Hv as [y [<- Hy]].
    apply Rmult_le_pos; [now apply Hnn |].
    apply Rlt_le, Rinv_0_lt_compat, Hpos.
  - rewrite (rsum_map_div (fun x => x)), map_id. now field.
Qed.

Lemma relu_nonneg (x : R) : 0 <= relu x.
Proof. unfold relu. apply Rmax_r. Qed.

Lemma reshape_first3 (inputs : tensor R) (B H W : nat) :
  firstn 3 (shape inputs) = [B; H; W] ->
  length (data inputs) = (B * (H * W))%nat ->
  tf_reshape inputs (firstn 3 (shape inputs))
  = Ok (Tensor [B; H; W] (data inputs)).
Proof.
  intros Hs Hl. unfold tf_reshape. rewrite Hs, Hl.
  replace (numel [B; H; W]) with (B * (H * W))%nat by (simpl; lia).
  now rewrite Nat.eqb_refl.
Qed.

Lemma softmax_plane_length (pl : list R) :
  length (softmax_plane pl) = length pl.
Proof. unfold softmax_plane. now rewrite !length_map. Qed.

Lemma normalise_plane_length (pl : list R) :
  length (normalise_plane pl) = length pl.
Proof. unfold normalise_plane. now rewrite length_map. Qed.

Lemma nonempty_block {A : Type} (n k b : nat) (l : list A) :
  length l = (k * n)%nat -> (b < k)%nat -> (0 < n)%nat -> block n b l <> [].
Proof.
  intros Hl Hb Hn E. apply (f_equal (@length A)) in E.
  rewrite (block_length n k) in E by assumption. simpl in E. lia.
Qed.

(** ** The softmax rectification *)

Lemma softmax_heatmap_planes (inputs : tensor R) (B H W : nat) :
  firstn 3 (shape inputs) = [B; H; W] ->
  length (data inputs) = (B * (H * W))%nat ->
  _normalise_heatmap inputs (Some "softmax"%string)
  = Ok (Tensor [B; H; W]
          (concat (map softmax_plane (chunks (H * W) B (data inputs))))) /\
  forall b, (b < B)%nat ->
    plane (Tensor [B; H; W]
             (concat (map softmax_plane (chunks (H * W) B (data inputs))))) b
    = softmax_plane (block (H * W) b (data inputs)).
Proof.
  intros Hs Hl. split.
  - unfold _normalise_heatmap.
    rewrite (reshape_first3 inputs B H W Hs Hl). cbn [bind String.eqb].
    change (String.eqb "softmax" "softmax") with true. cbv iota.
    now rewrite (softmax2d_planewise (Tensor [B; H; W] (data inputs)) B H W).
  - intros b Hb. unfold plane. cbn [shape data].
    apply block_planewise; [apply softmax_plane_length | lia | exact Hb].
Qed.

(** C10: with method softmax (also as the default), for every batch size
    the normaliser returns, for each image, the exponentials of the
    values shifted by the image's maximum divided by their sum over the
    image.  The maximum is a value of the image, so no exponential
    overflows and their sum is at least 1; every output value is
    non-negative and every plane sums to 1.  An output value is positive
    when its input is no more than 40 below the maximum, and exactly 0
    when it is 130 or more below it.  The literal batch size of the
    divide-by-sum path plays no part. *)
Theorem softmax_any_batch (inputs : tensor R) (method : option string)
  (B H W : nat) :
  method = None \/ method = Some "softmax"%string ->
  firstn 3 (shape inputs) = [B; H; W] ->
  length (data inputs) = (B * (H * W))%nat ->
  (0 < H)%nat -> (0 < W)%nat ->
  exists out,
    _normalise_heatmap inputs method = Ok out /\
    shape out = [B; H; W] /\
    forall b, (b < B)%nat ->
      let pl := block (H * W) b (data inputs) in
      let m := fold_left Rmax (tl pl) (hd 0 pl) in
      let total := rsum (map (fun y => exp32 (y - m)) pl) in
      In m pl /\ (forall x, In x pl -> x <= m) /\
      plane out b = map (fun x => Fin (exp32 (x - m) / total)) pl /\
      1 <= total /\
      (forall x, In x pl -> m - 40 <= x -> 0 < exp32 (x - m) / total) /\
      (forall x, In x pl -> x <= m - 130 -> exp32 (x - m) / total = 0) /\
      exists vals,
        plane out b = map Fin vals /\ length vals = (H * W)%nat /\
        (forall v, In v vals -> 0 <= v) /\ rsum vals = 1.
Proof.
  intros Hm Hs Hl HH HW.
  destruct (softmax_heatmap_planes inputs B H W Hs Hl) as [Eok Hplane].
  exists (Tensor [B; H; W]
            (concat (map softmax_plane (chunks (H * W) B (data inputs))))).
  split; [| split; [reflexivity |]].
  - destruct Hm as [-> | ->]; exact Eok.
  - intros b Hb pl m total.
    assert (Hne : pl <> []).
    { apply (nonempty_block (H * W) B); [exact Hl | exact Hb | nia]. }
    destruct (plane_max pl Hne) as [Hin Hmax]. fold m in Hin, Hmax.
    pose proof (softmax_sum_ge_1 pl Hne) as Hge. cbv zeta in Hge.
    fold m in Hge. fold total in Hge.
    pose proof ln_lt_2 as L. pose proof ln2_lt_1 as L1.
    split; [exact Hin |]. split; [exact Hmax |].
    split; [rewrite (Hplane b Hb); now apply softmax_plane_values |].
    split; [exact Hge |].
    split; [| split].
    + intros x _ Hx. rewrite exp32_normal by lra.
      apply Rdiv_lt_0_compat; [apply exp_pos | lra].
    + intros x _ Hx. rewrite exp32_small by lra. unfold Rdiv. ring.
    + rewrite (Hplane b Hb).
      destruct (softmax_plane_distribution pl Hne) as [vals [E [Hlen Hv]]].
      exists vals. split; [exact E |]. split; [| exact Hv].
      rewrite Hlen. subst pl. now apply (block_length (H * W) B).
Qed.

Lemma softmax_any_batch_witness :
  exists out,
    _normalise_heatmap (Tensor [1; 1; 2]%nat [0; 0]) None = Ok out /\
    shape out = [1; 1; 2]%nat /\
    forall b, (b < 1)%nat ->
      let pl := block (1 * 2) b [0; 0] in
      let m := fold_left Rmax (tl pl) (hd 0 pl) in
      let total := rsum (map (fun y => exp32 (y - m)) pl) in
      In m pl /\ (forall x, In x pl -> x <= m) /\
      plane out b = map (fun x => Fin (exp32 (x - m) / total)) pl /\
      1 <= total /\
      (forall x, In x pl -> m - 40 <= x -> 0 < exp32 (x - m) / total) /\
      (forall x, In x pl -> x <= m - 130 -> exp32 (x - m) / total = 0) /\
      exists vals,
        plane out b = map Fin vals /\ length vals = (1 * 2)%nat /\
        (forall v, In v vals -> 0 <= v) /\ rsum vals = 1.
Proof.
  apply (softmax_any_batch (Tensor [1; 1; 2]%nat [0; 0]) None 1 1 2).
  - now left.
  - reflexivity.
  - reflexivity.
  - lia.
  - lia.
Defined.

(** C10 as stated fails on the one-row image [[0, 128]]: the exponential
    of [0 - 128] is below the smallest normal [float32] and comes out as
    0, so the first output value is exactly 0, not positive. *)
Lemma softmax_underflow_not_positive :
  _normalise_heatmap (Tensor [1; 1; 2]%nat [0; 128]) None
  = Ok (Tensor [1; 1; 2]%nat [Fin 0; Fin 1]) /\
  ~ (exists out,
       _normalise_heatmap (Tensor [1; 1; 2]%nat [0; 128]) None = Ok out /\
       forall b, (b < 1)%nat ->
         exists vals,
           plane out b = map Fin vals /\
           (forall v, In v vals -> 0 < v) /\ rsum vals = 1).
Proof.
  assert (E : _normalise_heatmap (Tensor [1; 1; 2]%nat [0; 128]) None
              = Ok (Tensor [1; 1; 2]%nat [Fin 0; Fin 1])).
  { destruct (softmax_heatmap_planes (Tensor [1; 1; 2]%nat [0; 128]) 1 1 2)
      as [Eok _]; [reflexivity | reflexivity |].
    change (_normalise_heatmap (Tensor [1; 1; 2]%nat [0; 128]) None)
      with (_normalise_heatmap (Tensor [1; 1; 2]%nat [0; 128])
              (Some "softmax"%string)).
    rewrite Eok. cbn [data chunks Nat.mul Nat.add firstn skipn map concat app].
    rewrite softmax_plane_values by discriminate.
    cbn [tl hd fold_left map rsum fold_right].
    assert (Em : Rmax 0 128 = 128) by (apply Rmax_right; lra).
    rewrite Em.
    assert (E0 : exp32 (0 - 128) = 0).
    { apply exp32_small. pose proof ln2_lt_1. lra. }
    assert (E1 : exp32 (128 - 128) = 1).
    { replace (128 - 128) with 0 by ring. apply exp32_0. }
    rewrite E0, E1. cbn [app].
    replace (0 / (0 + (1 + 0))) with 0 by lra.
    replace (1 / (0 + (1 + 0))) with 1 by lra. reflexivity. }
  split; [exact E |].
  intros [out [E' Hp]]. rewrite E in E'. injection E' as <-.
  destruct (Hp 0%nat) as [vals [Hv [Hpos _]]]; [lia |].
  unfold plane, block in Hv. cbn in Hv.
  destruct vals as [| v vals]; [discriminate |].
  injection Hv as Hv _. specialize (Hpos v (or_introl eq_refl)). lra.
Qed.

(** ** The divide-by-sum rectifications *)

Lemma normalise_rectified (r : R -> R) (l : list R) (H W : nat) :
  length l = (2 * (H * W))%nat ->
  (forall x, 0 <= r x) ->
  (forall b, (b < 2)%nat -> rsum (map r (block (H * W) b l)) <> 0) ->
  exists out,
    normalise (tf_map r (Tensor [2%nat; H; W] l)) = Ok out /\
    shape out = [2%nat; H; W] /\
    forall b, (b < 2)%nat ->
      exists vals,
        plane out b = map Fin vals /\ length vals = (H * W)%nat /\
        (forall v, In v vals -> 0 <= v) /\ rsum vals = 1.
Proof.
  intros Hl Hr Hsum.
  exists (Tensor [2%nat; H; W]
            (concat (map normalise_plane (chunks (H * W) 2 (map r l))))).
  split; [| split; [reflexivity |]].
  - now rewrite (normalise_planewise _ H W).
  - intros b Hb. unfold plane. cbn [shape data].
    rewrite block_planewise;
      [| apply normalise_plane_length | rewrite length_map; lia | exact Hb].
    rewrite block_map.
    destruct (normalise_plane_distribution (map r (block (H * W) b l)))
      as [vals [E [Hlen Hv]]].
    + intros v Hv. apply in_map_iff in Hv as [y [<- _]]. apply Hr.
    + now apply Hsum.
    + exists vals. split; [exact E |]. split; [| exact Hv].
      rewrite Hlen, length_map. now apply (block_length (H * W) 2).
Qed.

(** C1, as the code has it: on images with at least one pixel, method
    softmax on any batch, and methods abs, relu and sigmoid on a batch of
    two heatmaps, each of whose rectified images holds a value of at
    least [2^-64] and sums to at most [2^64], return a heatmap of the
    same three dimensions whose values are non-negative and whose planes
    each sum to 1. *)
Theorem normalise_heatmap_distribution (inputs : tensor R) (method : string)
  (B H W : nat) :
  firstn 3 (shape inputs) = [B; H; W] ->
  length (data inputs) = (B * (H * W))%nat ->
  (0 < H)%nat -> (0 < W)%nat ->
  method = "softmax"%string \/
  (B = 2%nat /\
   exists r,
     (method = "abs"%string /\ r = Rabs \/
      method = "relu"%string /\ r = relu \/
      method = "sigmoid"%string /\ r = sigmoid) /\
     forall b, (b < 2)%nat ->
       (exists x, In x (block (H * W) b (data inputs)) /\ / 2 ^ 64 <= r x) /\
       rsum (map r (block (H * W) b (data inputs))) <= 2 ^ 64) ->
  exists out,
    _normalise_heatmap inputs (Some method) = Ok out /\
    shape out = [B; H; W] /\
    forall b, (b < B)%nat ->
      exists vals,
        plane out b = map Fin vals /\ length vals = (H * W)%nat /\
        (forall v, In v vals -> 0 <= v) /\ rsum vals = 1.
Proof.
  intros Hs Hl HH HW [-> | [-> [r [Hm Hr]]]].
  - destruct (softmax_heatmap_planes inputs B H W Hs Hl) as [Eok Hplane].
    eexists. split; [exact Eok |]. split; [reflexivity |].
    intros b Hb. rewrite (Hplane b Hb).
    destruct (softmax_plane_distribution (block (H * W) b (data inputs)))
      as [vals [E1 [E2 [E3 E4]]]].
    { apply (nonempty_block (H * W) B); [exact Hl | exact Hb | nia]. }
    exists vals. split; [exact E1 |].
    split; [rewrite E2; now apply (block_length (H * W) B) |].
    split; [exact E3 | exact E4].
  - assert (Hnn : forall x, 0 <= r x).
    { destruct Hm as [[_ ->] | [[_ ->] | [_ ->]]];
        [apply Rabs_pos | apply relu_nonneg | apply sigmoid_nonneg]. }
    assert (En : _normalise_heatmap inputs (Some method)
                 = normalise (tf_map r (Tensor [2%nat; H; W] (data inputs)))).
    { unfold _normalise_heatmap.
      rewrite (reshape_first3 inputs 2 H W Hs Hl). cbn [bind].
      destruct Hm as [[-> ->] | [[-> ->] | [-> ->]]]; reflexivity. }
    rewrite En. apply normalise_rectified; [exact Hl | exact Hnn |].
    intros b Hb. destruct (Hr b Hb) as [[x [Hin Hx]] _].
    assert (Hge : r x <= rsum (map r (block (H * W) b (data inputs)))).
    { apply rsum_ge_In.
      - intros v Hv. apply in_map_iff in Hv as [y [<- _]]. apply Hnn.
      - now apply in_map. }
    assert (0 < / 2 ^ 64) by lra. lra.
Qed.

Lemma normalise_heatmap_distribution_witness :
  exists out,
    _normalise_heatmap (Tensor [2; 1; 1; 1]%nat [-1; 2]) (Some "abs"%string)
    = Ok out /\
    shape out = [2; 1; 1]%nat /\
    forall b, (b < 2)%nat ->
      exists vals,
        plane out b = map Fin vals /\ length vals = (1 * 1)%nat /\
        (forall v, In v vals -> 0 <= v) /\ rsum vals = 1.
Proof.
  apply (normalise_heatmap_distribution
           (Tensor [2; 1; 1; 1]%nat [-1; 2]) "abs" 2 1 1);
    try reflexivity; try lia.
  right. split; [reflexivity |]. exists Rabs.
  split; [left; split; reflexivity |].
  intros b Hb.
  assert (Hb' : b = 0%nat \/ b = 1%nat) by lia.
  destruct Hb' as [-> | ->]; cbn.
  - rewrite Rabs_left by lra. split; [| lra].
    exists (-1). split; [now left |]. rewrite Rabs_left by lra. lra.
  - rewrite Rabs_right by lra. split; [| lra].
    exists 2. split; [now left |]. rewrite Rabs_right by lra. lra.
Defined.

(** C1 as stated fails on a batch of two all-zero one-pixel heatmaps
    under method abs: each plane is divided by its sum 0 and holds a NaN,
    which is neither non-negative nor part of a sum equal to 1. *)
Lemma normalise_zero_heatmap_not_distribution :
  _normalise_heatmap (Tensor [2; 1; 1]%nat [0; 0]) (Some "abs"%string)
  = Ok (Tensor [2; 1; 1]%nat [NaN; NaN]) /\
  ~ (exists out,
       _normalise_heatmap (Tensor [2; 1; 1]%nat [0; 0]) (Some "abs"%string)
       = Ok out /\
       forall b, (b < 2)%nat ->
         exists vals,
           plane out b = map Fin vals /\
           (forall v, In v vals -> 0 <= v) /\ rsum vals = 1).
Proof.
  assert (E : _normalise_heatmap (Tensor [2; 1; 1]%nat [0; 0])
                (Some "abs"%string)
              = Ok (Tensor [2; 1; 1]%nat [NaN; NaN])).
  { unfold _normalise_heatmap.
    change (tf_reshape _ _) with (Ok (Tensor [2; 1; 1]%nat [0; 0])).
    cbn [bind]. change (String.eqb "abs" "softmax") with false.
    change (String.eqb "abs" "abs") with true. cbv iota.
    rewrite (normalise_planewise _ 1 1) by reflexivity.
    unfold tf_map, normalise_plane. cbn [data map chunks firstn skipn Nat.mul
      Nat.add concat app rsum fold_right].
    rewrite Rabs_R0. replace (0 + 0) with 0 by lra.
    now rewrite tdiv_zero_zero. }
  split; [exact E |].
  intros [out [E' Hp]]. rewrite E in E'. injection E' as <-.
  destruct (Hp 0%nat) as [vals [Hv _]]; [lia |].
  unfold plane, block in Hv. cbn in Hv.
  destruct vals as [| v vals]; discriminate.
Qed.

(** ** Indexing a flat list of equal blocks *)

Lemma nth_concat_uniform {A : Type} (n i j : nat) (ls : list (list A)) (d : A) :
  (forall c, In c ls -> length c = n) ->
  (i < length ls)%nat -> (j < n)%nat ->
  nth (i * n + j) (concat ls) d = nth j (nth i ls []) d.
Proof.
  revert i. induction ls as [| c ls IH]; intros i H Hi Hj; simpl in Hi; [lia |].
  assert (Hc : length c = n) by (apply H; now left).
  destruct i as [| i]; simpl.
  - rewrite app_nth1 by lia. reflexivity.
  - rewrite app_nth2 by lia.
    replace (n + i * n + j - length c)%nat with (i * n + j)%nat by lia.
    apply IH; [intros; apply H; now right | lia | exact Hj].
Qed.

Lemma nth_repeat_in {A : Type} (a d : A) (n i : nat) :
  (i < n)%nat -> nth i (repeat a n) d = a.
Proof.
  revert i. induction n as [| n IH]; intros i Hi; [lia |].
  destruct i; simpl; [reflexivity | apply IH; lia].
Qed.

Lemma nth_concat_repeat {A : Type} (row : list A) (n i j : nat) (d : A) :
  (i < n)%nat -> (j < length row)%nat ->
  nth (i * length row + j) (concat (repeat row n)) d = nth j row d.
Proof.
  intros Hi Hj. rewrite nth_concat_uniform.
  - now rewrite (nth_repeat_in row [] n i).
  - intros c Hc. now apply repeat_spec in Hc as ->.
  - now rewrite repeat_length.
  - exact Hj.
Qed.

Lemma chunks_concat_repeat {A : Type} (row : list A) (k B : nat) :
  chunks (k * length row) B (concat (repeat row (B * k)))
  = repeat (concat (repeat row k)) B.
Proof.
  induction B as [| B IH]; [reflexivity |].
  cbn [chunks repeat]. replace (S B * k)%nat with (k + B * k)%nat by lia.
  rewrite repeat_app, concat_app.
  assert (Hlen : length (concat (repeat row k)) = (k * length row)%nat).
  { rewrite (concat_length_const (length row)).
    - now rewrite repeat_length.
    - intros c Hc. now apply repeat_spec in Hc as ->. }
  rewrite firstn_app, skipn_app, Hlen, Nat.sub_diag. cbn [firstn skipn].
  rewrite app_nil_r, <- Hlen, firstn_all, skipn_all. cbn [app].
  now rewrite Hlen, IH.
Qed.

(** ** The coordinate matrices *)

Lemma grid_row_length (n : nat) : length (grid_row n) = n.
Proof. unfold grid_row. now rewrite length_map, length_seq. Qed.

Lemma grid_row_nth (n i : nat) :
  (i < n)%nat -> nth i (grid_row n) NaN = Fin (grid_value n (S i)).
Proof.
  intros Hi. unfold grid_row.
  rewrite (map_nth_in _ _ _ 0%nat) by now rewrite length_seq.
  rewrite seq_nth by exact Hi.
  rewrite tdiv_fin.
  - f_equal. unfold grid_value.
    rewrite minus_IZR, mult_IZR, plus_IZR, <- !INR_IZR_INZ.
    replace (1 + i)%nat with (S i) by lia. reflexivity.
  - rewrite <- INR_IZR_INZ. apply not_0_INR. lia.
Qed.

Lemma transpose_plane_nth (r c i j : nat) (pl : list tfloat) :
  (i < r)%nat -> (j < c)%nat ->
  nth (j * r + i) (transpose_plane r c pl) NaN = nth (i * c + j) pl NaN.
Proof.
  intros Hi Hj. unfold transpose_plane. rewrite flat_map_concat_map.
  rewrite nth_concat_uniform.
  - rewrite (map_nth_in _ _ _ 0%nat) by now rewrite length_seq.
    rewrite seq_nth by exact Hj.
    rewrite (map_nth_in _ _ _ 0%nat) by now rewrite length_seq.
    now rewrite seq_nth by exact Hi.
  - intros l Hl. apply in_map_iff in Hl as [k [<- _]].
    now rewrite length_map, length_seq.
  - now rewrite length_map, length_seq.
  - exact Hi.
Qed.

Lemma transpose_plane_length (r c : nat) (pl : list tfloat) :
  length (transpose_plane r c pl) = (c * r)%nat.
Proof.
  unfold transpose_plane. rewrite flat_map_concat_map.
  rewrite (concat_length_const r).
  - now rewrite length_map, length_seq.
  - intros l Hl. apply in_map_iff in Hl as [k [<- _]].
    now rewrite length_map, length_seq.
Qed.

Lemma dsnt_x_entry (B H W b h w : nat) :
  (b < B)%nat -> (h < H)%nat -> (w < W)%nat ->
  get3 (dsnt_x B H W) b h w = Fin (grid_value W (S w)).
Proof.
  intros Hb Hh Hw. unfold get3, dsnt_x, tile_row. cbn [shape data].
  rewrite nth_concat_repeat.
  - now apply grid_row_nth.
  - nia.
  - now rewrite grid_row_length.
Qed.

Lemma dsnt_y_ok (B H W : nat) :
  dsnt_y B H W
  = Ok (Tensor [B; H; W]
          (concat (repeat (transpose_plane W H (concat (repeat (grid_row H) W)))
                          B))).
Proof.
  unfold dsnt_y, transpose_021, tile_row. cbn [shape data].
  rewrite grid_row_length.
  pose proof (chunks_concat_repeat (grid_row H) W B) as E.
  rewrite grid_row_length in E. now rewrite E, map_repeat.
Qed.

Lemma dsnt_y_entry (B H W b h w : nat) (gy : tensor tfloat) :
  dsnt_y B H W = Ok gy ->
  (b < B)%nat -> (h < H)%nat -> (w < W)%nat ->
  get3 gy b h w = Fin (grid_value H (S h)).
Proof.
  rewrite dsnt_y_ok. intros [= <-] Hb Hh Hw. unfold get3. cbn [shape data].
  replace ((b * H + h) * W + w)%nat with (b * (H * W) + (h * W + w))%nat by lia.
  rewrite nth_concat_uniform.
  - rewrite (nth_repeat_in _ [] B b) by exact Hb.
    rewrite transpose_plane_nth by assumption.
    pose proof (nth_concat_repeat (grid_row H) W w h NaN) as E.
    rewrite grid_row_length in E. rewrite E by assumption.
    now apply grid_row_nth.
  - intros c Hc. apply repeat_spec in Hc as ->.
    apply transpose_plane_length.
  - now rewrite repeat_length.
  - nia.
Qed.

Lemma grid_value_bounds (n i : nat) :
  (1 <= i <= n)%nat -> -1 < grid_value n i < 1.
Proof.
  intros [H1 H2]. unfold grid_value.
  assert (Hn : 0 < INR n) by (apply lt_0_INR; lia).
  assert (Hi1 : 1 <= INR i) by (change 1 with (INR 1); apply le_INR; lia).
  assert (Hi2 : INR i <= INR n) by (apply le_INR; lia).
  split.
  - apply Rmult_lt_reg_r with (INR n); [exact Hn |].
    unfold Rdiv. rewrite Rmult_assoc, Rinv_l by lra. lra.
  - apply Rmult_lt_reg_r with (INR n); [exact Hn |].
    unfold Rdiv. rewrite Rmult_assoc, Rinv_l by lra. lra.
Qed.

Lemma grid_value_step (n i : nat) :
  (0 < n)%nat -> grid_value n (S i) - grid_value n i = 2 / INR n.
Proof.
  intros Hn. unfold grid_value. rewrite S_INR. field.
  apply not_0_INR. lia.
Qed.

Lemma grid_value_increasing (n i j : nat) :
  (0 < n)%nat -> (i < j)%nat -> grid_value n i < grid_value n j.
Proof.
  intros Hn Hij. unfold grid_value.
  assert (H0 : 0 < INR n) by (apply lt_0_INR; lia).
  assert (Hlt : INR i < INR j) by (apply lt_INR; lia).
  apply Rmult_lt_compat_r; [apply Rinv_0_lt_compat, H0 | lra].
Qed.

Lemma grid_value_symmetric (n i : nat) :
  (1 <= i <= n)%nat -> grid_value n (n + 1 - i) = - grid_value n i.
Proof.
  intros [H1 H2]. unfold grid_value.
  rewrite minus_INR by lia. rewrite plus_INR. simpl (INR 1). field.
  apply not_0_INR. lia.
Qed.

Lemma grid_value_margin (n i : nat) :
  (1 <= i <= n)%nat ->
  -1 + 1 / INR n <= grid_value n i <= 1 - 1 / INR n.
Proof.
  intros [H1 H2]. unfold grid_value.
  assert (Hn : 0 < INR n) by (apply lt_0_INR; lia).
  assert (Hi1 : 1 <= INR i) by (change 1 with (INR 1); apply le_INR; lia).
  assert (Hi2 : INR i <= INR n) by (apply le_INR; lia).
  assert (Hinv : 0 < / INR n) by now apply Rinv_0_lt_compat.
  split.
  - replace (-1 + 1 / INR n) with ((2 * 1 - (INR n + 1)) / INR n)
      by (field; lra).
    apply Rmult_le_compat_r; lra.
  - replace (1 - 1 / INR n) with ((2 * INR n - (INR n + 1)) / INR n)
      by (field; lra).
    apply Rmult_le_compat_r; lra.
Qed.

Lemma get3_tf_map (f : tfloat -> tfloat) (t : tensor tfloat) (b h w : nat) :
  f NaN = NaN -> get3 (tf_map f t) b h w = f (get3 t b h w).
Proof.
  intros Hf. unfold get3, tf_map. cbn [shape data].
  destruct (shape t) as [| ? [| ? [| ? [| ? ?]]]]; try (now rewrite Hf).
  rewrite <- Hf at 1. apply map_nth.
Qed.

(** The cast of a grid value of a side below [2^25]: it moves by at
    most [2^-25], less than the distance [1 / n] to the ends of the
    interval and than half of the spacing [2 / n]. *)
Lemma grid_cast_close (n i : nat) :
  (1 <= i <= n)%nat -> INR n < 2 ^ 25 ->
  exists v,
    round32 (grid_value n i) = Fin v /\
    Rabs (v - grid_value n i) <= / 2 ^ 25 /\ -1 < v < 1.
Proof.
  intros Hi Hn.
  pose proof (grid_value_bounds n i Hi) as Hb.
  pose proof (grid_value_margin n i Hi) as Hm.
  destruct (round32_unit (grid_value n i)) as [v [Ev Hv]].
  { apply Rabs_def1; lra. }
  exists v. split; [exact Ev |]. split; [exact Hv |].
  assert (H0 : 0 < INR n) by (apply lt_0_INR; lia).
  assert (Hinv : / 2 ^ 25 < 1 / INR n).
  { unfold Rdiv. rewrite Rmult_1_l. apply Rinv_lt_contravar; [| exact Hn].
    apply Rmult_lt_0_compat; lra. }
  apply Rabs_le_bounds in Hv. lra.
Qed.

Lemma grid_cast_increasing (n i : nat) :
  (1 <= i < n)%nat -> INR n < 2 ^ 25 ->
  exists u v,
    round32 (grid_value n i) = Fin u /\
    round32 (grid_value n (S i)) = Fin v /\ u < v.
Proof.
  intros Hi Hn.
  destruct (grid_cast_close n i) as [u [Eu [Hu _]]]; [lia | exact Hn |].
  destruct (grid_cast_close n (S i)) as [v [Ev [Hv _]]]; [lia | exact Hn |].
  exists u, v. split; [exact Eu |]. split; [exact Ev |].
  pose proof (grid_value_step n i ltac:(lia)) as Hs.
  assert (H0 : 0 < INR n) by (apply lt_0_INR; lia).
  assert (Hinv : / 2 ^ 25 < 1 / INR n).
  { unfold Rdiv. rewrite Rmult_1_l. apply Rinv_lt_contravar; [| exact Hn].
    apply Rmult_lt_0_compat; lra. }
  assert (E2 : 2 / INR n = 2 * (1 / INR n)) by (field; lra).
  apply Rabs_le_bounds in Hu, Hv. lra.
Qed.

Lemma grid_cast_symmetric (n i : nat) :
  (1 <= i <= n)%nat ->
  round32 (grid_value n (n + 1 - i)) = topp (round32 (grid_value n i)).
Proof.
  intros Hi. rewrite grid_value_symmetric by exact Hi. apply round32_opp.
Qed.

Lemma dsnt_x_cast_entry (B H W b h w : nat) :
  (b < B)%nat -> (h < H)%nat -> (w < W)%nat ->
  get3 (dsnt_x_cast B H W) b h w = round32 (grid_value W (S w)).
Proof.
  intros Hb Hh Hw. unfold dsnt_x_cast.
  rewrite get3_tf_map by reflexivity.
  now rewrite dsnt_x_entry by assumption.
Qed.

(** C5: for every height and width from 1 to [2^25 - 1] (and every batch
    size), entry [[b, h, w]] of the x matrix is [(2*(w+1) - (W+1)) / W]
    and that of the y matrix is [(2*(h+1) - (H+1)) / H] before the cast
    to [float32]; for every side [n], these values lie strictly between
    -1 and 1, consecutive ones differ by [2/n], they increase strictly
    and they are symmetric about 0.  The cast replaces each value by the
    nearest [float32], which is within [2^-25] of it and still strictly
    between -1 and 1; the cast values still increase strictly and are
    still symmetric about 0. *)
Theorem dsnt_grid_values (B H W : nat) :
  (0 < H)%nat -> (0 < W)%nat -> INR H < 2 ^ 25 -> INR W < 2 ^ 25 ->
  shape (dsnt_x B H W) = [B; H; W] /\
  (exists gy gyc,
     dsnt_y B H W = Ok gy /\ shape gy = [B; H; W] /\
     dsnt_y_cast B H W = Ok gyc /\ shape gyc = [B; H; W] /\
     shape (dsnt_x_cast B H W) = [B; H; W] /\
     forall b h w, (b < B)%nat -> (h < H)%nat -> (w < W)%nat ->
       get3 (dsnt_x B H W) b h w
       = Fin ((2 * INR (w + 1) - (INR W + 1)) / INR W) /\
       get3 gy b h w = Fin ((2 * INR (h + 1) - (INR H + 1)) / INR H) /\
       get3 (dsnt_x_cast B H W) b h w = round32 (grid_value W (w + 1)) /\
       get3 gyc b h w = round32 (grid_value H (h + 1))) /\
  (forall n, n = H \/ n = W ->
     (forall i, grid_value n i = (2 * INR i - (INR n + 1)) / INR n) /\
     (forall i, (1 <= i <= n)%nat -> -1 < grid_value n i < 1) /\
     (forall i, grid_value n (S i) - grid_value n i = 2 / INR n) /\
     (forall i j, (i < j)%nat -> grid_value n i < grid_value n j) /\
     (forall i, (1 <= i <= n)%nat ->
        grid_value n (n + 1 - i) = - grid_value n i) /\
     (forall i, (1 <= i <= n)%nat ->
        exists v,
          round32 (grid_value n i) = Fin v /\
          Rabs (v - grid_value n i) <= / 2 ^ 25 /\ -1 < v < 1) /\
     (forall i, (1 <= i < n)%nat ->
        exists u v,
          round32 (grid_value n i) = Fin u /\
          round32 (grid_value n (S i)) = Fin v /\ u < v) /\
     (forall i, (1 <= i <= n)%nat ->
        round32 (grid_value n (n + 1 - i))
        = topp (round32 (grid_value n i)))).
Proof.
  intros HH HW HH24 HW24. split; [| split].
  - unfold dsnt_x, tile_row. cbn [shape]. now rewrite grid_row_length.
  - eexists. eexists. split; [apply dsnt_y_ok |]. split; [reflexivity |].
    split; [unfold dsnt_y_cast; rewrite dsnt_y_ok; reflexivity |].
    split; [reflexivity |].
    split.
    { unfold dsnt_x_cast, tf_map, dsnt_x, tile_row. cbn [shape].
      now rewrite grid_row_length. }
    intros b h w Hb Hh Hw.
    replace (w + 1)%nat with (S w) by lia.
    replace (h + 1)%nat with (S h) by lia.
    split; [| split; [| split]].
    + now rewrite dsnt_x_entry by assumption.
    + now rewrite (dsnt_y_entry B H W b h w _ (dsnt_y_ok B H W)) by assumption.
    + now apply dsnt_x_cast_entry.
    + rewrite get3_tf_map by reflexivity.
      now rewrite (dsnt_y_entry B H W b h w _ (dsnt_y_ok B H W)) by assumption.
  - intros n Hn.
    assert (Hpos : (0 < n)%nat) by (destruct Hn; subst; lia).
    assert (Hn24 : INR n < 2 ^ 25) by (destruct Hn; subst; assumption).
    split; [reflexivity |]. split; [apply grid_value_bounds |].
    split; [intros i; now apply grid_value_step |].
    split; [intros i j; now apply grid_value_increasing |].
    split; [apply grid_value_symmetric |].
    split; [intros i Hi; now apply grid_cast_close |].
    split; [intros i Hi; now apply grid_cast_increasing |].
    apply grid_cast_symmetric.
Qed.

Lemma dsnt_grid_values_witness :
  shape (dsnt_x 1 1 2) = [1; 1; 2]%nat /\
  (exists gy gyc,
     dsnt_y 1 1 2 = Ok gy /\ shape gy = [1; 1; 2]%nat /\
     dsnt_y_cast 1 1 2 = Ok gyc /\ shape gyc = [1; 1; 2]%nat /\
     shape (dsnt_x_cast 1 1 2) = [1; 1; 2]%nat /\
     forall b h w, (b < 1)%nat -> (h < 1)%nat -> (w < 2)%nat ->
       get3 (dsnt_x 1 1 2) b h w
       = Fin ((2 * INR (w + 1) - (INR 2 + 1)) / INR 2) /\
       get3 gy b h w = Fin ((2 * INR (h + 1) - (INR 1 + 1)) / INR 1) /\
       get3 (dsnt_x_cast 1 1 2) b h w = round32 (grid_value 2 (w + 1)) /\
       get3 gyc b h w = round32 (grid_value 1 (h + 1))) /\
  (forall n, n = 1%nat \/ n = 2%nat ->
     (forall i, grid_value n i = (2 * INR i - (INR n + 1)) / INR n) /\
     (forall i, (1 <= i <= n)%nat -> -1 < grid_value n i < 1) /\
     (forall i, grid_value n (S i) - grid_value n i = 2 / INR n) /\
     (forall i j, (i < j)%nat -> grid_value n i < grid_value n j) /\
     (forall i, (1 <= i <= n)%nat ->
        grid_value n (n + 1 - i) = - grid_value n i) /\
     (forall i, (1 <= i <= n)%nat ->
        exists v,
          round32 (grid_value n i) = Fin v /\
          Rabs (v - grid_value n i) <= / 2 ^ 25 /\ -1 < v < 1) /\
     (forall i, (1 <= i < n)%nat ->
        exists u v,
          round32 (grid_value n i) = Fin u /\
          round32 (grid_value n (S i)) = Fin v /\ u < v) /\
     (forall i, (1 <= i <= n)%nat ->
        round32 (grid_value n (n + 1 - i))
        = topp (round32 (grid_value n i)))).
Proof.
  apply (dsnt_grid_values 1 1 2); try lia; simpl; lra.
Defined.

(** C5 as stated, for every width, fails at the width [2^25]: the last
    value of the x matrix, [1 - 2^-25], lies halfway between the two
    nearest [float32] numbers and is cast to 1, which is not strictly
    below 1. *)
Lemma dsnt_grid_cast_reaches_one :
  get3 (dsnt_x 1 1 (2 ^ 25)) 0 0 (2 ^ 25 - 1) = Fin (1 - / 2 ^ 25) /\
  get3 (dsnt_x_cast 1 1 (2 ^ 25)) 0 0 (2 ^ 25 - 1) = Fin 1 /\
  ~ (exists v,
       get3 (dsnt_x_cast 1 1 (2 ^ 25)) 0 0 (2 ^ 25 - 1) = Fin v /\
       -1 < v < 1).
Proof.
  assert (Hpos : (0 < 2 ^ 25)%nat).
  { apply Nat.neq_0_lt_0, Nat.pow_nonzero. discriminate. }
  assert (EW : INR (2 ^ 25) = 2 ^ 25).
  { rewrite pow_INR. reflexivity. }
  assert (Ew : S (2 ^ 25 - 1) = (2 ^ 25)%nat) by lia.
  assert (Eg : grid_value (2 ^ 25) (S (2 ^ 25 - 1)) = 1 - / 2 ^ 25).
  { rewrite Ew. unfold grid_value. rewrite EW. field. }
  assert (Ex : get3 (dsnt_x 1 1 (2 ^ 25)) 0 0 (2 ^ 25 - 1)
               = Fin (1 - / 2 ^ 25)).
  { rewrite dsnt_x_entry by lia. now rewrite Eg. }
  assert (Ec : get3 (dsnt_x_cast 1 1 (2 ^ 25)) 0 0 (2 ^ 25 - 1) = Fin 1).
  { rewrite dsnt_x_cast_entry by lia. rewrite Eg. apply round32_below_one. }
  split; [exact Ex |]. split; [exact Ec |].
  intros [v [Ev Hv]]. rewrite Ec in Ev. injection Ev as <-. lra.
Qed.

(** ** Sums over a plane, row by row *)

Lemma nth_block {A : Type} (n b k : nat) (l : list A) (d : A) :
  (k < n)%nat -> nth k (block n b l) d = nth (b * n + k) l d.
Proof.
  intros Hk. unfold block. rewrite nth_firstn, nth_skipn.
  destruct (Nat.ltb_spec k n); [reflexivity | lia].
Qed.

Lemma nth_map2 {A B C : Type} (f : A -> B -> C) (l1 : list A) (l2 : list B)
  (i : nat) (d1 : A) (d2 : B) (d : C) :
  (i < length l1)%nat -> (i < length l2)%nat ->
  nth i (map2 f l1 l2) d = f (nth i l1 d1) (nth i l2 d2).
Proof.
  unfold map2. revert i l2.
  induction l1 as [| a l1 IH]; intros i [| b l2] H1 H2; simpl in *; try lia.
  destruct i; [reflexivity | apply IH; lia].
Qed.

Lemma map2_length {A B C : Type} (f : A -> B -> C) (l1 : list A)
  (l2 : list B) :
  length (map2 f l1 l2) = Nat.min (length l1) (length l2).
Proof. unfold map2. now rewrite length_map, length_combine. Qed.

Lemma list_as_grid {A : Type} (l : list A) (H W : nat) (d : A) :
  length l = (H * W)%nat ->
  l = flat_map (fun h => map (fun w => nth (h * W + w) l d) (seq 0 W))
               (seq 0 H).
Proof.
  intros Hl. rewrite flat_map_concat_map.
  assert (Hu : forall c,
             In c (map (fun h => map (fun w => nth (h * W + w) l d) (seq 0 W))
                       (seq 0 H)) -> length c = W).
  { intros c Hc. apply in_map_iff in Hc as [h [<- _]].
    now rewrite length_map, length_seq. }
  apply (nth_ext _ _ d d).
  - rewrite (concat_length_const W) by exact Hu.
    now rewrite length_map, length_seq.
  - intros k Hk. rewrite Hl in Hk.
    assert (HW : W <> 0%nat) by nia.
    assert (Hq : (k / W < H)%nat) by (apply Nat.Div0.div_lt_upper_bound; lia).
    assert (Hr : (k mod W < W)%nat) by now apply Nat.mod_upper_bound.
    assert (Hk' : k = (k / W * W + k mod W)%nat).
    { pose proof (Nat.div_mod_eq k W). lia. }
    rewrite Hk' at 2. rewrite nth_concat_uniform; try assumption.
    + rewrite (map_nth_in _ _ _ 0%nat) by now rewrite length_seq.
      rewrite seq_nth by exact Hq.
      rewrite (map_nth_in _ _ _ 0%nat) by now rewrite length_seq.
      rewrite seq_nth by exact Hr. cbn [Nat.add]. now rewrite <- Hk'.
    + now rewrite length_map, length_seq.
Qed.

Lemma tsum_flat_map {A : Type} (f : A -> list tfloat) (l : list A) :
  tsum (flat_map f l) = tsum (map (fun a => tsum (f a)) l).
Proof.
  induction l as [| a l IH]; [reflexivity |].
  cbn [flat_map map]. now rewrite tsum_app, tsum_cons, IH.
Qed.

Lemma tsum_grid (l : list tfloat) (H W : nat) :
  length l = (H * W)%nat ->
  tsum l
  = tsum (map (fun h => tsum (map (fun w => nth (h * W + w) l NaN) (seq 0 W)))
              (seq 0 H)).
Proof.
  intros Hl. rewrite (list_as_grid l H W NaN Hl) at 1.
  now rewrite tsum_flat_map.
Qed.

Lemma tsum_one_nonzero (f : nat -> tfloat) (n i0 : nat) :
  (i0 < n)%nat ->
  (forall i, (i < n)%nat -> i <> i0 -> f i = Fin 0) ->
  tsum (map f (seq 0 n)) = f i0.
Proof.
  intros Hi Hz.
  replace n with (i0 + S (n - S i0))%nat by lia.
  rewrite seq_app, map_app, tsum_app. cbn [seq map Nat.add].
  rewrite tsum_cons.
  rewrite (tsum_zeros (map f (seq 0 i0))).
  - rewrite (tsum_zeros (map f (seq (S i0) (n - S i0)))).
    + now rewrite tadd_0_l, tadd_0_r.
    + intros v Hv. apply in_map_iff in Hv as [i [<- Hin]].
      apply in_seq in Hin. apply Hz; lia.
  - intros v Hv. apply in_map_iff in Hv as [i [<- Hin]].
    apply in_seq in Hin. apply Hz; lia.
Qed.

Lemma tsum_map_ext_seq (f g : nat -> tfloat) (n : nat) :
  (forall i, (i < n)%nat -> f i = g i) ->
  tsum (map f (seq 0 n)) = tsum (map g (seq 0 n)).
Proof.
  intros H. f_equal. apply map_ext_in. intros i Hi.
  apply in_seq in Hi. apply H. lia.
Qed.

(** ** The expectation of the coordinate matrices *)

Lemma dsnt_x_wf (B H W : nat) :
  shape (dsnt_x B H W) = [B; H; W] /\
  length (data (dsnt_x B H W)) = (B * (H * W))%nat.
Proof.
  unfold dsnt_x, tile_row. cbn [shape data]. rewrite grid_row_length.
  split; [reflexivity |].
  rewrite (concat_length_const W).
  - rewrite repeat_length. lia.
  - intros c Hc. apply repeat_spec in Hc as ->. apply grid_row_length.
Qed.

Lemma dsnt_y_wf (B H W : nat) (gy : tensor tfloat) :
  dsnt_y B H W = Ok gy ->
  shape gy = [B; H; W] /\ length (data gy) = (B * (H * W))%nat.
Proof.
  rewrite dsnt_y_ok. intros [= <-]. cbn [shape data].
  split; [reflexivity |].
  rewrite (concat_length_const (H * W)).
  - now rewrite repeat_length.
  - intros c Hc. apply repeat_spec in Hc as ->. apply transpose_plane_length.
Qed.

Lemma flat_index_bound (B H W b h w : nat) :
  (b < B)%nat -> (h < H)%nat -> (w < W)%nat ->
  (h * W + w < H * W)%nat /\ (b * (H * W) + (h * W + w) < B * (H * W))%nat.
Proof.
  intros Hb Hh Hw.
  assert (H1 : (h * W + w < H * W)%nat).
  { assert ((S h) * W <= H * W)%nat by (apply Nat.mul_le_mono_r; lia). lia. }
  split; [exact H1 |].
  assert ((S b) * (H * W) <= B * (H * W))%nat
    by (apply Nat.mul_le_mono_r; lia).
  lia.
Qed.

Lemma plane_inner_product (norm g : tensor tfloat) (B H W b : nat) :
  shape norm = [B; H; W] -> length (data norm) = (B * (H * W))%nat ->
  shape g = [B; H; W] -> length (data g) = (B * (H * W))%nat ->
  (b < B)%nat ->
  tsum (block (H * W) b (map2 tmul (data norm) (data g)))
  = tsum (map (fun h =>
                 tsum (map (fun w => tmul (get3 norm b h w) (get3 g b h w))
                           (seq 0 W)))
              (seq 0 H)).
Proof.
  intros Hs Hl Hsg Hlg Hb.
  assert (Hlen : length (map2 tmul (data norm) (data g)) = (B * (H * W))%nat).
  { rewrite map2_length, Hl, Hlg. lia. }
  rewrite (tsum_grid _ H W) by now apply (block_length (H * W) B).
  apply tsum_map_ext_seq. intros h Hh.
  apply tsum_map_ext_seq. intros w Hw.
  destruct (flat_index_bound B H W b h w Hb Hh Hw) as [Hi1 Hi2].
  rewrite nth_block by exact Hi1.
  rewrite (nth_map2 tmul _ _ _ NaN NaN) by (rewrite ?Hl, ?Hlg; exact Hi2).
  unfold get3. rewrite Hs, Hsg.
  now replace (b * (H * W) + (h * W + w))%nat
    with ((b * H + h) * W + w)%nat by lia.
Qed.

Lemma dsnt_coords_ok (norm : tensor tfloat) (B H W : nat) :
  shape norm = [B; H; W] ->
  exists gy,
    dsnt_y B H W = Ok gy /\
    dsnt_coords norm
    = Ok (Tensor [B; 2%nat]
            (concat
               (map2 (fun u v => [u; v])
                  (map tsum (chunks (H * W) B
                               (map2 tmul (data norm)
                                     (data (dsnt_x B H W)))))
                  (map tsum (chunks (H * W) B
                               (map2 tmul (data norm) (data gy))))))).
Proof.
  intros Hs. eexists. split; [apply dsnt_y_ok |].
  unfold dsnt_coords, dim. rewrite Hs. cbn [nth_error bind].
  rewrite dsnt_y_ok. cbn [bind].
  unfold tf_map2.
  destruct (dsnt_x_wf B H W) as [Hsx _]. rewrite Hs, Hsx.
  cbn [shape]. rewrite shape_eqb_refl. cbn [bind].
  unfold reduce_axes12. cbn [shape data bind].
  unfold stack_axis1. cbn [shape data]. rewrite shape_eqb_refl.
  reflexivity.
Qed.

Lemma stacked_entries (ox oy : list tfloat) (B b : nat) :
  length ox = B -> length oy = B -> (b < B)%nat ->
  let coords := Tensor [B; 2%nat] (concat (map2 (fun u v => [u; v]) ox oy)) in
  get2 coords b 0 = nth b ox NaN /\ get2 coords b 1 = nth b oy NaN.
Proof.
  intros Hx Hy Hb coords. unfold get2, coords. cbn [shape data].
  assert (Hu : forall c, In c (map2 (fun u v => [u; v]) ox oy) ->
                         length c = 2%nat).
  { intros c Hc. unfold map2 in Hc.
    apply in_map_iff in Hc as [uv [<- _]]. reflexivity. }
  assert (Hlen : (b < length (map2 (fun u v => [u; v]) ox oy))%nat).
  { rewrite map2_length. lia. }
  split; rewrite nth_concat_uniform by (try assumption; lia);
    rewrite (nth_map2 _ _ _ _ NaN NaN) by lia; reflexivity.
Qed.

(** ** A returned heatmap is a well-formed rank-3 tensor *)

Lemma planewise_length {A B : Type} (F : list A -> list B) (n k : nat)
  (l : list A) :
  (forall c, length (F c) = length c) -> length l = (k * n)%nat ->
  length (concat (map F (chunks n k l))) = (k * n)%nat.
Proof.
  intros HF Hl. rewrite (concat_length_const n).
  - now rewrite length_map, chunks_length.
  - intros c Hc. apply in_map_iff in Hc as [c0 [<- Hc0]].
    rewrite HF. eapply chunks_all_length; [| exact Hc0]. lia.
Qed.

Lemma softmax2d_ok_wf (t : tensor R) (norm : tensor tfloat) :
  length (data t) = numel (shape t) ->
  _softmax2d t = Ok norm ->
  exists B H W,
    shape norm = [B; H; W] /\ length (data norm) = (B * (H * W))%nat.
Proof.
  intros Hl E.
  destruct (shape t) as [| b [| h [| w [| x s]]]] eqn:Es;
    try (unfold _softmax2d, reduce_axes12 in E; rewrite Es in E;
         discriminate E).
  assert (Hl' : length (data t) = (b * (h * w))%nat) by (simpl in Hl; lia).
  rewrite (softmax2d_planewise t b h w Es Hl') in E. injection E as <-.
  exists b, h, w. split; [reflexivity |]. cbn [data].
  now apply planewise_length; [apply softmax_plane_length |].
Qed.

Lemma normalise_ok_wf (t : tensor R) (norm : tensor tfloat) :
  length (data t) = numel (shape t) ->
  normalise t = Ok norm ->
  exists B H W,
    shape norm = [B; H; W] /\ length (data norm) = (B * (H * W))%nat.
Proof.
  intros Hl E.
  destruct (shape t) as [| b [| h [| w [| x s]]]] eqn:Es;
    try (unfold normalise, reduce_axes12 in E; rewrite Es in E;
         discriminate E).
  destruct (Nat.eq_dec b 2) as [-> | Hb].
  - rewrite (normalise_planewise t h w Es) in E. injection E as <-.
    exists 2%nat, h, w. split; [reflexivity |].
    assert (Hl' : length (data t) = (2 * (h * w))%nat) by (simpl in Hl; lia).
    exact (planewise_length normalise_plane (h * w) 2 (data t)
             normalise_plane_length Hl').
  - rewrite (normalise_batch_not_two t b h w Es Hb) in E. discriminate E.
Qed.

Lemma normalise_heatmap_ok_wf (inputs : tensor R) (method : option string)
  (norm : tensor tfloat) :
  _normalise_heatmap inputs method = Ok norm ->
  exists B H W,
    shape norm = [B; H; W] /\ length (data norm) = (B * (H * W))%nat.
Proof.
  unfold _normalise_heatmap, tf_reshape.
  destruct (Nat.eqb_spec (numel (firstn 3 (shape inputs)))
              (length (data inputs))) as [Hn | Hn]; [| discriminate].
  cbn [bind].
  set (t := Tensor (firstn 3 (shape inputs)) (data inputs)).
  assert (Ht : forall r : R -> R,
             length (data (tf_map r t)) = numel (shape (tf_map r t))).
  { intros r. unfold tf_map, t. cbn [shape data]. now rewrite length_map. }
  assert (Ht0 : length (data t) = numel (shape t)) by (symmetry; exact Hn).
  repeat match goal with
         | |- context [if ?c then _ else _] => destruct c
         end;
    try discriminate;
    first [now apply softmax2d_ok_wf | now apply normalise_ok_wf].
Qed.

Lemma tmul_0_fin (g : R) : tmul (Fin 0) (Fin g) = Fin 0.
Proof. simpl. f_equal. ring. Qed.

Lemma tmul_1_fin (g : R) : tmul (Fin 1) (Fin g) = Fin g.
Proof. simpl. f_equal. ring. Qed.

(** The inner product of a one-hot plane with a finite-valued matrix is
    the matrix entry under the hot pixel. *)
Lemma one_hot_inner_product (p g : nat -> nat -> tfloat) (H W h0 w0 : nat) :
  (h0 < H)%nat -> (w0 < W)%nat ->
  (forall h w, (h < H)%nat -> (w < W)%nat ->
     p h w = if Nat.eqb h h0 && Nat.eqb w w0 then Fin 1 else Fin 0) ->
  (forall h w, (h < H)%nat -> (w < W)%nat -> exists x, g h w = Fin x) ->
  tsum (map (fun h => tsum (map (fun w => tmul (p h w) (g h w)) (seq 0 W)))
            (seq 0 H))
  = g h0 w0.
Proof.
  intros Hh0 Hw0 Hp Hg.
  rewrite (tsum_one_nonzero _ H h0 Hh0).
  - rewrite (tsum_one_nonzero _ W w0 Hw0).
    + rewrite Hp by assumption. rewrite !Nat.eqb_refl. cbn [andb].
      destruct (Hg h0 w0 Hh0 Hw0) as [x ->]. apply tmul_1_fin.
    + intros w Hw Hne. rewrite Hp by assumption.
      rewrite Nat.eqb_refl. cbn [andb].
      destruct (Nat.eqb_spec w w0) as [E | _]; [contradiction |].
      destruct (Hg h0 w Hh0 Hw) as [x ->]. apply tmul_0_fin.
  - intros h Hh Hne. apply tsum_zeros. intros v Hv.
    apply in_map_iff in Hv as [w [<- Hin]]. apply in_seq in Hin.
    rewrite Hp by (try assumption; lia).
    destruct (Nat.eqb_spec h h0) as [E | _]; [contradiction |]. cbn [andb].
    destruct (Hg h w Hh) as [x ->]; [lia |]. apply tmul_0_fin.
Qed.

(** C4: whenever the rectification returns a heatmap [norm], [dsnt]
    returns it with a [[batch, 2]] tensor whose row [b] is the pair of
    inner products of plane [b] with the x matrix and with the y matrix;
    on a plane that is 1 at pixel [(h0, w0)] and 0 elsewhere these are
    exactly the x-matrix value of column [w0] and the y-matrix value of
    row [h0]. *)
Theorem dsnt_expectation (inputs : tensor R) (method : option string)
  (norm : tensor tfloat) :
  _normalise_heatmap inputs method = Ok norm ->
  exists B H W gy coords,
    shape norm = [B; H; W] /\
    dsnt_y B H W = Ok gy /\
    dsnt inputs method = Ok (norm, coords) /\
    shape coords = [B; 2%nat] /\
    forall b, (b < B)%nat ->
      get2 coords b 0
      = tsum (map (fun h =>
                     tsum (map (fun w =>
                                  tmul (get3 norm b h w)
                                       (get3 (dsnt_x B H W) b h w))
                               (seq 0 W)))
                  (seq 0 H)) /\
      get2 coords b 1
      = tsum (map (fun h =>
                     tsum (map (fun w =>
                                  tmul (get3 norm b h w) (get3 gy b h w))
                               (seq 0 W)))
                  (seq 0 H)) /\
      forall h0 w0, (h0 < H)%nat -> (w0 < W)%nat ->
        (forall h w, (h < H)%nat -> (w < W)%nat ->
           get3 norm b h w
           = if Nat.eqb h h0 && Nat.eqb w w0 then Fin 1 else Fin 0) ->
        get2 coords b 0 = get3 (dsnt_x B H W) b h0 w0 /\
        get2 coords b 1 = get3 gy b h0 w0 /\
        get3 (dsnt_x B H W) b h0 w0
        = Fin ((2 * INR (w0 + 1) - (INR W + 1)) / INR W) /\
        get3 gy b h0 w0 = Fin ((2 * INR (h0 + 1) - (INR H + 1)) / INR H).
Proof.
  intros En.
  destruct (normalise_heatmap_ok_wf inputs method norm En)
    as [B [H [W [Hs Hl]]]].
  destruct (dsnt_coords_ok norm B H W Hs) as [gy [Egy Ec]].
  destruct (dsnt_x_wf B H W) as [Hsx Hlx].
  destruct (dsnt_y_wf B H W gy Egy) as [Hsy Hly].
  exists B, H, W, gy. eexists.
  split; [exact Hs |]. split; [exact Egy |].
  split; [unfold dsnt; rewrite En; cbn [bind]; rewrite Ec; reflexivity |].
  split; [reflexivity |].
  intros b Hb.
  match goal with
  | |- context [get2 (Tensor _ (concat (map2 _ ?ox ?oy)))] =>
      destruct (stacked_entries ox oy B b) as [E0 E1];
        [now rewrite length_map, chunks_length
        | now rewrite length_map, chunks_length
        | exact Hb |]
  end.
  cbv zeta in E0, E1.
  rewrite (map_nth_in tsum _ _ []) in E0 by now rewrite chunks_length.
  rewrite (map_nth_in tsum _ _ []) in E1 by now rewrite chunks_length.
  rewrite chunks_nth in E0 by exact Hb.
  rewrite chunks_nth in E1 by exact Hb.
  rewrite (plane_inner_product norm (dsnt_x B H W) B H W b) in E0
    by assumption.
  rewrite (plane_inner_product norm gy B H W b) in E1 by assumption.
  split; [exact E0 |]. split; [exact E1 |].
  intros h0 w0 Hh0 Hw0 Hhot.
  assert (Gx : forall h w, (h < H)%nat -> (w < W)%nat ->
                 get3 (dsnt_x B H W) b h w = Fin (grid_value W (S w)))
    by (intros; now apply dsnt_x_entry).
  assert (Gy : forall h w, (h < H)%nat -> (w < W)%nat ->
                 get3 gy b h w = Fin (grid_value H (S h)))
    by (intros; now apply (dsnt_y_entry B H W)).
  split; [| split; [| split]].
  - rewrite E0.
    apply (one_hot_inner_product (get3 norm b) (get3 (dsnt_x B H W) b));
      try assumption.
    intros h w Hh Hw. eexists. now apply Gx.
  - rewrite E1.
    apply (one_hot_inner_product (get3 norm b) (get3 gy b)); try assumption.
    intros h w Hh Hw. eexists. now apply Gy.
  - rewrite Gx by assumption. unfold grid_value.
    now replace (w0 + 1)%nat with (S w0) by lia.
  - rewrite Gy by assumption. unfold grid_value.
    now replace (h0 + 1)%nat with (S h0) by lia.
Qed.

Lemma normalise_abs_one_hot :
  _normalise_heatmap (Tensor [2; 1; 2]%nat [0; 1; 1; 0]) (Some "abs"%string)
  = Ok (Tensor [2; 1; 2]%nat [Fin 0; Fin 1; Fin 1; Fin 0]).
Proof.
  unfold _normalise_heatmap.
  change (tf_reshape _ _) with (Ok (Tensor [2; 1; 2]%nat [0; 1; 1; 0])).
  cbn [bind]. change (String.eqb "abs" "softmax") with false.
  change (String.eqb "abs" "abs") with true. cbv iota.
  rewrite (normalise_planewise _ 1 2) by reflexivity.
  unfold tf_map, normalise_plane.
  cbn [data map chunks firstn skipn Nat.mul Nat.add concat app rsum
       fold_right].
  rewrite Rabs_R0, Rabs_R1.
  replace (0 + (1 + 0)) with 1 by lra. replace (1 + (0 + 0)) with 1 by lra.
  rewrite !tdiv_fin by lra.
  replace (0 / 1) with 0 by field. replace (1 / 1) with 1 by field.
  reflexivity.
Qed.

Lemma dsnt_expectation_witness :
  exists B H W gy coords,
    shape (Tensor [2; 1; 2]%nat [Fin 0; Fin 1; Fin 1; Fin 0]) = [B; H; W] /\
    dsnt_y B H W = Ok gy /\
    dsnt (Tensor [2; 1; 2]%nat [0; 1; 1; 0]) (Some "abs"%string)
    = Ok (Tensor [2; 1; 2]%nat [Fin 0; Fin 1; Fin 1; Fin 0], coords) /\
    shape coords = [B; 2%nat] /\
    forall b, (b < B)%nat ->
      get2 coords b 0
      = tsum (map (fun h =>
                     tsum (map (fun w =>
                                  tmul (get3 (Tensor [2; 1; 2]%nat
                                                [Fin 0; Fin 1; Fin 1; Fin 0])
                                             b h w)
                                       (get3 (dsnt_x B H W) b h w))
                               (seq 0 W)))
                  (seq 0 H)) /\
      get2 coords b 1
      = tsum (map (fun h =>
                     tsum (map (fun w =>
                                  tmul (get3 (Tensor [2; 1; 2]%nat
                                                [Fin 0; Fin 1; Fin 1; Fin 0])
                                             b h w)
                                       (get3 gy b h w))
                               (seq 0 W)))
                  (seq 0 H)) /\
      forall h0 w0, (h0 < H)%nat -> (w0 < W)%nat ->
        (forall h w, (h < H)%nat -> (w < W)%nat ->
           get3 (Tensor [2; 1; 2]%nat [Fin 0; Fin 1; Fin 1; Fin 0]) b h w
           = if Nat.eqb h h0 && Nat.eqb w w0 then Fin 1 else Fin 0) ->
        get2 coords b 0 = get3 (dsnt_x B H W) b h0 w0 /\
        get2 coords b 1 = get3 gy b h0 w0 /\
        get3 (dsnt_x B H W) b h0 w0
        = Fin ((2 * INR (w0 + 1) - (INR W + 1)) / INR W) /\
        get3 gy b h0 w0 = Fin ((2 * INR (h0 + 1) - (INR H + 1)) / INR H).
Proof.
  apply (dsnt_expectation (Tensor [2; 1; 2]%nat [0; 1; 1; 0])
           (Some "abs"%string)
           (Tensor [2; 1; 2]%nat [Fin 0; Fin 1; Fin 1; Fin 0])).
  exact normalise_abs_one_hot.
Defined.

(** ** The Gaussian target of one image *)

Lemma grid_list_length {A : Type} (H W : nat) (g : nat -> nat -> A) :
  length (grid_list H W g) = (H * W)%nat.
Proof.
  unfold grid_list. rewrite (concat_length_const W).
  - now rewrite length_map, length_seq.
  - intros c Hc. apply in_map_iff in Hc as [i [<- _]].
    now rewrite length_map, length_seq.
Qed.

Lemma grid_list_nth {A : Type} (H W i j : nat) (g : nat -> nat -> A) (d : A) :
  (i < H)%nat -> (j < W)%nat -> nth (i * W + j) (grid_list H W g) d = g i j.
Proof.
  intros Hi Hj. unfold grid_list. rewrite nth_concat_uniform.
  - rewrite (map_nth_in _ _ _ 0%nat) by now rewrite length_seq.
    rewrite seq_nth by exact Hi.
    rewrite (map_nth_in _ _ _ 0%nat) by now rewrite length_seq.
    now rewrite seq_nth by exact Hj.
  - intros c Hc. apply in_map_iff in Hc as [k [<- _]].
    now rewrite length_map, length_seq.
  - now rewrite length_map, length_seq.
  - exact Hj.
Qed.

Lemma grid_list_map {A B : Type} (f : A -> B) (H W : nat)
  (g : nat -> nat -> A) :
  map f (grid_list H W g) = grid_list H W (fun i j => f (g i j)).
Proof.
  unfold grid_list. rewrite concat_map, map_map. f_equal.
  apply map_ext. intros i. now rewrite map_map.
Qed.

Lemma grid_list_In {A : Type} (H W : nat) (g : nat -> nat -> A) (v : A) :
  In v (grid_list H W g) ->
  exists i j, (i < H)%nat /\ (j < W)%nat /\ v = g i j.
Proof.
  unfold grid_list. intros Hv. apply in_concat in Hv as [c [Hc Hv]].
  apply in_map_iff in Hc as [i [<- Hi]].
  apply in_map_iff in Hv as [j [<- Hj]].
  apply in_seq in Hi, Hj. exists i, j. repeat split; lia.
Qed.

Lemma firstn_seq_le (n start len : nat) :
  (n <= len)%nat -> firstn n (seq start len) = seq start n.
Proof.
  revert start len. induction n as [| n IH]; intros start len Hn;
    [reflexivity |].
  destruct len as [| len]; [lia |]. cbn [seq firstn].
  now rewrite IH by lia.
Qed.

(** The square lattice of side [n], cropped to its first [H] rows and
    [W] columns. *)
Lemma crop2_square (n H W : nat) (E : R -> R -> tfloat) :
  (H <= n)%nat -> (W <= n)%nat ->
  crop2 (Tensor [n; n]
           (flat_map (fun y => map (fun x => E y x) (map INR (seq 0 n)))
                     (map INR (seq 0 n)))) H W
  = Ok (Tensor [H; W] (grid_list H W (fun i j => E (INR i) (INR j)))).
Proof.
  intros HH HW. unfold crop2. cbn [shape data].
  rewrite !Nat.min_l by assumption.
  rewrite flat_map_concat_map, chunks_concat_k.
  - rewrite !firstn_map, firstn_seq_le by assumption.
    unfold grid_list. rewrite !map_map. do 3 f_equal.
    apply map_ext. intros i.
    rewrite !firstn_map, firstn_seq_le by assumption.
    now rewrite map_map.
  - now rewrite !length_map, length_seq.
  - intros c Hc. apply in_map_iff in Hc as [y [<- _]].
    now rewrite !length_map, length_seq.
Qed.

Lemma grid_list_ext {A : Type} (H W : nat) (g g' : nat -> nat -> A) :
  (forall i j, (i < H)%nat -> (j < W)%nat -> g i j = g' i j) ->
  grid_list H W g = grid_list H W g'.
Proof.
  intros E. unfold grid_list. f_equal. apply map_ext_in. intros i Hi.
  apply map_ext_in. intros j Hj. apply in_seq in Hi, Hj. apply E; lia.
Qed.

Lemma gauss_value_nonneg (H W : nat) (x y f : R) (i j : nat) :
  0 <= gauss_value H W x y f i j.
Proof. apply exp32_nonneg. Qed.

(** The sum of the unnormalised values is at least each of them. *)
Lemma gauss_total_ge (H W : nat) (x y f : R) (i j : nat) :
  (i < H)%nat -> (j < W)%nat ->
  gauss_value H W x y f i j <= rsum (grid_list H W (gauss_value H W x y f)).
Proof.
  intros Hi Hj. apply rsum_ge_In.
  - intros v Hv. apply grid_list_In in Hv as [i' [j' [_ [_ ->]]]].
    apply gauss_value_nonneg.
  - rewrite <- (grid_list_nth H W i j (gauss_value H W x y f) 0 Hi Hj).
    apply nth_In. rewrite grid_list_length. nia.
Qed.

Lemma gauss_exponent_nonpos (a f : R) : f <> 0 -> 0 <= a -> - 4 * ln 2 * a / f ^ 2 <= 0.
Proof.
  intros Hf Ha. pose proof ln2_pos as L.
  assert (Hf2 : 0 < / f ^ 2).
  { apply Rinv_0_lt_compat. assert (0 < f * f) by nra.
    simpl. now rewrite Rmult_1_r. }
  unfold Rdiv. assert (0 <= 4 * ln 2 * a) by nra. nra.
Qed.

(** Before the division by the total: every exponent is non-positive, so
    no exponential overflows. *)
Lemma make_gaussian_unnorm (H W : nat) (x y : R) (fwhm : option R) :
  let f := match fwhm with Some f => f | None => 1 end in
  let total := rsum (grid_list H W (gauss_value H W x y f)) in
  f <> 0 ->
  _make_gaussian (H, W) (x, y) fwhm
  = Ok (Tensor [H; W]
          (grid_list H W
             (fun i j => tdiv (Fin (gauss_value H W x y f i j)) (Fin total)))).
Proof.
  intros f total Hf. unfold _make_gaussian. fold f. cbn [fst snd].
  rewrite crop2_square by lia. cbn [bind].
  assert (Hv : grid_list H W
                 (fun i j =>
                    texp (tdiv
                            (Fin (- 4 * ln 2
                                  * ((INR j - (x * INR W - 1 / 2)) ^ 2
                                     + (INR i - (y * INR H - 1 / 2)) ^ 2)))
                            (Fin (f ^ 2))))
               = map Fin (grid_list H W (gauss_value H W x y f))).
  { rewrite grid_list_map. apply grid_list_ext. intros i j _ _.
    rewrite tdiv_fin by now apply pow_nonzero.
    rewrite texp_nonpos.
    - unfold gauss_value. do 2 f_equal. now field.
    - apply gauss_exponent_nonpos; [exact Hf |].
      pose proof (pow2_ge_0 (INR j - (x * INR W - 1 / 2))).
      pose proof (pow2_ge_0 (INR i - (y * INR H - 1 / 2))). lra. }
  rewrite Hv. unfold tf_map. cbn [shape data].
  rewrite tsum_map_Fin. fold total.
  f_equal. f_equal. now rewrite map_map, !grid_list_map.
Qed.

Lemma make_gaussian_values (H W : nat) (x y : R) (fwhm : option R) :
  let f := match fwhm with Some f => f | None => 1 end in
  let total := rsum (grid_list H W (gauss_value H W x y f)) in
  f <> 0 -> 0 < total ->
  _make_gaussian (H, W) (x, y) fwhm
  = Ok (Tensor [H; W]
          (map Fin (grid_list H W
                      (fun i j => gauss_value H W x y f i j / total)))).
Proof.
  intros f total Hf Ht.
  pose proof (make_gaussian_unnorm H W x y fwhm) as E. cbv zeta in E.
  fold f in E. fold total in E. rewrite (E Hf).
  f_equal. f_equal. rewrite grid_list_map.
  apply grid_list_ext. intros i j _ _. apply tdiv_fin. lra.
Qed.

(** A point of [[0, n]] lies in one of the [n] unit cells. *)
Lemma pixel_containing (c : R) (n : nat) :
  (0 < n)%nat -> 0 <= c <= INR n ->
  exists j, (j < n)%nat /\ INR j <= c <= INR j + 1.
Proof.
  induction n as [| n IH]; intros Hn Hc; [lia |].
  destruct n as [| n].
  - exists 0%nat. simpl in *. split; [lia | lra].
  - destruct (Rle_lt_dec c (INR (S n))) as [Hle | Hgt].
    + destruct IH as [j [Hj Hcj]]; [lia | lra |].
      exists j. split; [lia | exact Hcj].
    + exists (S n). split; [lia |].
      rewrite (S_INR (S n)) in Hc. lra.
Qed.

(** The centre of the cell that contains [c] is at least as close to
    [c] as the centre of any other cell. *)
Lemma nearest_cell_sq (c : R) (j0 j : nat) :
  INR j0 <= c <= INR j0 + 1 ->
  (INR j0 - c + 1 / 2) ^ 2 <= (INR j - c + 1 / 2) ^ 2.
Proof.
  intros Hc.
  destruct (Nat.lt_trichotomy j j0) as [Hlt | [-> | Hgt]].
  - assert (INR j + 1 <= INR j0).
    { rewrite <- S_INR. apply le_INR. lia. }
    nra.
  - lra.
  - assert (INR j0 + 1 <= INR j).
    { rewrite <- S_INR. apply le_INR. lia. }
    nra.
Qed.

Lemma gauss_value_max (H W : nat) (x y f : R) (i0 j0 i j : nat) :
  f <> 0 ->
  INR j0 <= x * INR W <= INR j0 + 1 ->
  INR i0 <= y * INR H <= INR i0 + 1 ->
  gauss_value H W x y f i j <= gauss_value H W x y f i0 j0.
Proof.
  intros Hf Hx Hy. unfold gauss_value. apply exp32_mono.
  pose proof (nearest_cell_sq (x * INR W) j0 j Hx) as Hj.
  pose proof (nearest_cell_sq (y * INR H) i0 i Hy) as Hi.
  assert (Hln : 0 < ln 2) by (pose proof ln_lt_2; lra).
  assert (Hf2 : 0 < / f ^ 2).
  { apply Rinv_0_lt_compat. assert (0 < f * f) by nra.
    simpl. now rewrite Rmult_1_r. }
  unfold Rdiv. apply Rmult_le_compat_r; [lra |]. nra.
Qed.

(** With [fwhm] of at least 1/4 the pixel that contains the scaled centre
    keeps a positive value: its exponent is at least [-32 * ln 2]. *)
Lemma gauss_value_centre_pos (H W : nat) (x y f : R) (i0 j0 : nat) :
  1 / 4 <= f ->
  INR j0 <= x * INR W <= INR j0 + 1 ->
  INR i0 <= y * INR H <= INR i0 + 1 ->
  0 < gauss_value H W x y f i0 j0.
Proof.
  intros Hf Hx Hy. unfold gauss_value. pose proof ln2_pos as L.
  rewrite exp32_normal; [apply exp_pos |].
  set (u := INR j0 - x * INR W + 1 / 2).
  set (v := INR i0 - y * INR H + 1 / 2).
  assert (Hu : - (1 / 2) <= u <= 1 / 2) by (unfold u; lra).
  assert (Hv : - (1 / 2) <= v <= 1 / 2) by (unfold v; lra).
  clearbody u v.
  assert (Hu2 : 0 <= u ^ 2 <= 1 / 4) by nra.
  assert (Hv2 : 0 <= v ^ 2 <= 1 / 4) by nra.
  set (a := u ^ 2 + v ^ 2).
  assert (Ha : 0 <= a <= 1 / 2) by (unfold a; lra).
  assert (Hf2 : 0 < / f ^ 2 <= 16).
  { assert (Hp : / 16 <= f ^ 2) by nra.
    split; [apply Rinv_0_lt_compat; lra |].
    replace 16 with (/ / 16) by lra.
    apply Rinv_le_contravar; lra. }
  unfold Rdiv. clearbody a.
  assert (a * / f ^ 2 <= 8) by nra.
  replace (- 4 * ln 2 * a * / f ^ 2) with (- (4 * ln 2 * (a * / f ^ 2)))
    by ring.
  nra.
Qed.

Lemma gauss_total_pos (H W : nat) (x y f : R) :
  1 / 4 <= f -> 0 <= x <= 1 -> 0 <= y <= 1 -> (0 < H)%nat -> (0 < W)%nat ->
  0 < rsum (grid_list H W (gauss_value H W x y f)).
Proof.
  intros Hf Hx Hy HH HW.
  destruct (pixel_containing (x * INR W) W HW) as [j0 [Hj0 Hcx]].
  { split; [apply Rmult_le_pos; [lra | apply pos_INR] |].
    assert (0 <= INR W) by apply pos_INR. nra. }
  destruct (pixel_containing (y * INR H) H HH) as [i0 [Hi0 Hcy]].
  { split; [apply Rmult_le_pos; [lra | apply pos_INR] |].
    assert (0 <= INR H) by apply pos_INR. nra. }
  pose proof (gauss_value_centre_pos H W x y f i0 j0 Hf Hcx Hcy).
  pose proof (gauss_total_ge H W x y f i0 j0 Hi0 Hj0). lra.
Qed.

(** C7: for a centre in the unit square, a height and a width of at
    least 1 and an [fwhm] of at least 1/4 (1 by default),
    [_make_gaussian] returns the [H]-by-[W] array whose entry [[i, j]]
    is [exp(-4 ln 2 ((j - x W + 1/2)^2 + (i - y H + 1/2)^2) / fwhm^2)],
    with 0 in the place of an exponential below the smallest normal
    [float32], divided by the sum of these values over the image; the
    sum is positive, the array sums to 1, and it is largest at the pixel
    that contains the scaled centre [(x W, y H)], the pixel whose centre
    is nearest to it, where it is positive. *)
Theorem make_gaussian_distribution (H W : nat) (x y : R) (fwhm : option R)
  (f : R) :
  f = match fwhm with Some v => v | None => 1 end ->
  0 <= x <= 1 -> 0 <= y <= 1 -> (0 < H)%nat -> (0 < W)%nat -> 1 / 4 <= f ->
  exists out total,
    _make_gaussian (H, W) (x, y) fwhm = Ok out /\
    shape out = [H; W] /\ length (data out) = (H * W)%nat /\
    total = rsum (grid_list H W (gauss_value H W x y f)) /\ 0 < total /\
    (forall i j, (i < H)%nat -> (j < W)%nat ->
       get2 out i j
       = Fin (exp32 (- 4 * ln 2
                     * ((INR j - x * INR W + 1 / 2) ^ 2
                        + (INR i - y * INR H + 1 / 2) ^ 2) / f ^ 2)
              / total)) /\
    tsum (data out) = Fin 1 /\
    exists i0 j0,
      (i0 < H)%nat /\ (j0 < W)%nat /\
      INR j0 <= x * INR W <= INR j0 + 1 /\
      INR i0 <= y * INR H <= INR i0 + 1 /\
      forall i j, (i < H)%nat -> (j < W)%nat ->
        exists v v0,
          get2 out i j = Fin v /\ get2 out i0 j0 = Fin v0 /\
          0 <= v <= v0 /\ 0 < v0.
Proof.
  intros Ef Hx Hy HH HW Hf.
  set (total := rsum (grid_list H W (gauss_value H W x y f))).
  assert (Hf0 : f <> 0) by lra.
  destruct (pixel_containing (x * INR W) W HW) as [j0 [Hj0 Hcx]].
  { split; [apply Rmult_le_pos; [lra | apply pos_INR] |].
    assert (0 <= INR W) by apply pos_INR. nra. }
  destruct (pixel_containing (y * INR H) H HH) as [i0 [Hi0 Hcy]].
  { split; [apply Rmult_le_pos; [lra | apply pos_INR] |].
    assert (0 <= INR H) by apply pos_INR. nra. }
  pose proof (gauss_value_centre_pos H W x y f i0 j0 Hf Hcx Hcy) as Hc.
  assert (Ht : 0 < total).
  { pose proof (gauss_total_ge H W x y f i0 j0 Hi0 Hj0). fold total in H0.
    lra. }
  pose proof (make_gaussian_values H W x y fwhm) as Ev.
  cbv zeta in Ev. rewrite <- Ef in Ev. fold total in Ev.
  specialize (Ev Hf0 Ht).
  assert (Hget : forall i j, (i < H)%nat -> (j < W)%nat ->
            get2 (Tensor [H; W]
                    (map Fin (grid_list H W
                       (fun i j => gauss_value H W x y f i j / total)))) i j
            = Fin (gauss_value H W x y f i j / total)).
  { intros i j Hi Hj. unfold get2. cbn [shape data].
    rewrite grid_list_map. now apply grid_list_nth. }
  eexists. exists total.
  split; [exact Ev |]. split; [reflexivity |].
  split; [cbn [data]; now rewrite length_map, grid_list_length |].
  split; [reflexivity |]. split; [exact Ht |].
  split; [exact Hget |]. split.
  - cbn [data]. rewrite tsum_map_Fin. f_equal.
    replace (grid_list H W (fun i j => gauss_value H W x y f i j / total))
      with (map (fun v => v / total) (grid_list H W (gauss_value H W x y f)))
      by apply grid_list_map.
    rewrite (rsum_map_div (fun v => v)), map_id. fold total. field. lra.
  - exists i0, j0. repeat split; try assumption; try lra.
    intros i j Hi Hj.
    exists (gauss_value H W x y f i j / total),
           (gauss_value H W x y f i0 j0 / total).
    split; [now apply Hget |]. split; [now apply Hget |].
    assert (Hinv : 0 < / total) by now apply Rinv_0_lt_compat.
    pose proof (gauss_value_nonneg H W x y f i j) as Hnn.
    pose proof (gauss_value_max H W x y f i0 j0 i j Hf0 Hcx Hcy) as Hmax.
    unfold Rdiv. repeat split; nra.
Qed.

Lemma make_gaussian_distribution_witness :
  exists out total,
    _make_gaussian (2%nat, 3%nat) (1 / 2, 1 / 2) None = Ok out /\
    shape out = [2; 3]%nat /\ length (data out) = (2 * 3)%nat /\
    total = rsum (grid_list 2 3 (gauss_value 2 3 (1 / 2) (1 / 2) 1)) /\
    0 < total /\
    (forall i j, (i < 2)%nat -> (j < 3)%nat ->
       get2 out i j
       = Fin (exp32 (- 4 * ln 2
                     * ((INR j - 1 / 2 * INR 3 + 1 / 2) ^ 2
                        + (INR i - 1 / 2 * INR 2 + 1 / 2) ^ 2) / 1 ^ 2)
              / total)) /\
    tsum (data out) = Fin 1 /\
    exists i0 j0,
      (i0 < 2)%nat /\ (j0 < 3)%nat /\
      INR j0 <= 1 / 2 * INR 3 <= INR j0 + 1 /\
      INR i0 <= 1 / 2 * INR 2 <= INR i0 + 1 /\
      forall i j, (i < 2)%nat -> (j < 3)%nat ->
        exists v v0,
          get2 out i j = Fin v /\ get2 out i0 j0 = Fin v0 /\
          0 <= v <= v0 /\ 0 < v0.
Proof.
  apply (make_gaussian_distribution 2 3 (1 / 2) (1 / 2) None 1);
    try reflexivity; try lia; lra.
Defined.

(** C7 as stated fails for a small positive [fwhm]: on a 2-by-2 image
    with the centre in the middle and [fwhm = 1/16] every exponent is
    [-512 * ln 2], every exponential comes out as 0, and the division by
    their sum 0 leaves NaNs, which do not sum to 1. *)
Lemma make_gaussian_narrow_not_distribution :
  _make_gaussian (2%nat, 2%nat) (1 / 2, 1 / 2) (Some (1 / 16))
  = Ok (Tensor [2; 2]%nat [NaN; NaN; NaN; NaN]) /\
  ~ (exists out,
       _make_gaussian (2%nat, 2%nat) (1 / 2, 1 / 2) (Some (1 / 16)) = Ok out /\
       tsum (data out) = Fin 1).
Proof.
  assert (G : forall i j, (i < 2)%nat -> (j < 2)%nat ->
            gauss_value 2 2 (1 / 2) (1 / 2) (1 / 16) i j = 0).
  { intros i j Hi Hj. unfold gauss_value. apply exp32_small.
    pose proof ln2_pos as L.
    assert (Ei : i = 0%nat \/ i = 1%nat) by lia.
    assert (Ej : j = 0%nat \/ j = 1%nat) by lia.
    destruct Ei as [-> | ->], Ej as [-> | ->]; cbn [INR]; lra. }
  assert (E : _make_gaussian (2%nat, 2%nat) (1 / 2, 1 / 2) (Some (1 / 16))
              = Ok (Tensor [2; 2]%nat [NaN; NaN; NaN; NaN])).
  { pose proof (make_gaussian_unnorm 2 2 (1 / 2) (1 / 2) (Some (1 / 16)))
      as Eu. cbv zeta in Eu. rewrite Eu by lra. clear Eu.
    unfold grid_list. cbn [seq map concat app rsum fold_right].
    rewrite !G by lia.
    replace (0 + (0 + (0 + (0 + 0)))) with 0 by lra.
    now rewrite tdiv_zero_zero. }
  split; [exact E |].
  intros [out [E' Hsum]]. rewrite E in E'. injection E' as <-.
  cbn in Hsum. discriminate.
Qed.

(** ** Blocks commute with the elementwise operators *)

Lemma skipn_combine {A B : Type} (n : nat) (l1 : list A) (l2 : list B) :
  skipn n (combine l1 l2) = combine (skipn n l1) (skipn n l2).
Proof.
  revert l1 l2. induction n as [| n IH]; intros l1 l2; [reflexivity |].
  destruct l1 as [| a l1]; [reflexivity |].
  destruct l2 as [| b l2]; simpl.
  - now rewrite combine_nil.
  - apply IH.
Qed.

Lemma block_map2 {A B C : Type} (f : A -> B -> C) (n b : nat) (l1 : list A)
  (l2 : list B) :
  block n b (map2 f l1 l2) = map2 f (block n b l1) (block n b l2).
Proof.
  unfold block, map2.
  now rewrite skipn_map, firstn_map, skipn_combine, combine_firstn.
Qed.

Lemma chunks_as_map {A : Type} (n k : nat) (l : list A) :
  chunks n k l = map (fun b => block n b l) (seq 0 k).
Proof.
  apply (nth_ext _ _ [] []).
  - now rewrite chunks_length, length_map, length_seq.
  - intros b Hb. rewrite chunks_length in Hb.
    rewrite chunks_nth by exact Hb.
    rewrite (map_nth_in _ _ _ 0%nat) by now rewrite length_seq.
    now rewrite seq_nth.
Qed.

Lemma block_block_0 {A : Type} (n b : nat) (l : list A) :
  block n 0 (block n b l) = block n b l.
Proof.
  unfold block at 1. cbn [Nat.mul skipn]. apply firstn_all2.
  unfold block. rewrite length_firstn. lia.
Qed.

Lemma block_0_all {A : Type} (n : nat) (l : list A) :
  length l = n -> block n 0 l = l.
Proof.
  intros Hl. unfold block. cbn [Nat.mul skipn]. apply firstn_all2. lia.
Qed.

(** ** The divergences act plane by plane *)

Lemma kl_2d_planes (p q : tensor tfloat) (B H W : nat) (eps : R) :
  shape p = [B; H; W] -> shape q = [B; H; W] ->
  _kl_2d p q (Some eps)
  = Ok (Tensor [B]
          (map (fun b => kl_plane (block (H * W) b (data p))
                                  (block (H * W) b (data q)) eps)
               (seq 0 B))).
Proof.
  intros Hp Hq. unfold _kl_2d, tf_map2, tf_map. cbn [shape data].
  rewrite Hp, Hq, shape_eqb_refl. cbn [bind shape data].
  rewrite shape_eqb_refl. cbn [bind].
  unfold reduce_sum_last2. cbn [shape data split_last2 rev app].
  change (numel [B]) with (B * 1)%nat. rewrite Nat.mul_1_r.
  rewrite chunks_as_map, map_map. do 2 f_equal.
  apply map_ext. intros b. unfold kl_plane.
  now rewrite !block_map2, !block_map.
Qed.

Lemma js_2d_planes (p q : tensor tfloat) (B H W : nat) (eps : option R) :
  shape p = [B; H; W] -> shape q = [B; H; W] ->
  _js_2d p q eps
  = Ok (Tensor [B]
          (map (fun b =>
                  js_plane (block (H * W) b (data p))
                           (block (H * W) b (data q))
                           match eps with Some e => e | None => 1 / 10 ^ 24 end)
               (seq 0 B))).
Proof.
  intros Hp Hq. unfold _js_2d.
  set (e := match eps with Some e => e | None => 1 / 10 ^ 24 end).
  clearbody e.
  unfold tf_map2 at 1. rewrite Hp, Hq, shape_eqb_refl. cbn [bind].
  rewrite (kl_2d_planes p _ B H W e Hp) by reflexivity.
  rewrite (kl_2d_planes q _ B H W e Hq) by reflexivity.
  cbn [bind]. unfold tf_map2, tf_map. cbn [shape data].
  rewrite shape_eqb_refl. do 2 f_equal.
  rewrite !map_map, map2_map_same. apply map_ext. intros b.
  unfold js_plane. now rewrite !block_map, !block_map2.
Qed.

(** ** The loop of the batched Gaussian generator *)

Lemma make_gaussian_shape (H W : nat) (c : R * R) (fwhm : option R) :
  exists d,
    _make_gaussian (H, W) c fwhm = Ok (Tensor [H; W] d) /\
    length d = (H * W)%nat.
Proof.
  unfold _make_gaussian. cbn [fst snd].
  rewrite crop2_square by lia. cbn [bind]. unfold tf_map. cbn [shape data].
  eexists. split; [reflexivity |].
  now rewrite length_map, grid_list_length.
Qed.

Lemma gaussian_data_length (H W : nat) (f : R) (row : list R) :
  length (gaussian_data H W f row) = (H * W)%nat.
Proof.
  unfold gaussian_data.
  destruct (make_gaussian_shape H W (nth 0 row 0, nth 1 row 0) (Some f))
    as [d [-> Hd]].
  exact Hd.
Qed.

Lemma body_step (H W n : nat) (f : R) (l : list R) (acc : list tfloat) :
  body H W f (Tensor [S n; 2%nat] l, Tensor [length acc] acc)
  = Ok (Tensor [n; 2%nat] (skipn 2 l),
        Tensor [length (acc ++ gaussian_data H W f (firstn 2 l))]
               (acc ++ gaussian_data H W f (firstn 2 l))).
Proof.
  unfold body, gaussian_data. cbn [fst snd shape data hd tl Nat.pred].
  destruct (make_gaussian_shape H W
              (nth 0 (firstn 2 l) 0, nth 1 (firstn 2 l) 0) (Some f))
    as [d [-> Hd]].
  cbn [bind data]. now rewrite length_app.
Qed.

Lemma gaussians_loop (H W : nat) (f : R) (n : nat) :
  forall (l : list R) (acc : list tfloat) (fuel : nat),
    (n <= fuel)%nat ->
    while_loop fuel cond (body H W f)
      (Tensor [n; 2%nat] l, Tensor [length acc] acc)
    = Some (Ok (Tensor [0%nat; 2%nat] (skipn (2 * n) l),
                Tensor [length (acc ++ concat (map (gaussian_data H W f)
                                                   (chunks 2 n l)))]
                       (acc ++ concat (map (gaussian_data H W f)
                                           (chunks 2 n l))))).
Proof.
  induction n as [| n IH]; intros l acc fuel Hfuel.
  - destruct fuel; cbn [while_loop cond fst shape Nat.ltb Nat.leb chunks map
                        concat Nat.mul skipn];
      now rewrite app_nil_r.
  - destruct fuel as [| fuel]; [lia |].
    cbn [while_loop]. change (cond _) with true. cbv iota.
    rewrite body_step, IH by lia.
    cbn [chunks map concat]. rewrite skipn_skipn, <- !app_assoc.
    now replace (2 * n + 2)%nat with (2 * S n)%nat by lia.
Qed.

Lemma make_gaussians_ok (fuel : nat) (centres : tensor R) (B H W : nat)
  (fwhm : option R) :
  shape centres = [B; 2%nat] -> (0 < H)%nat -> (0 < W)%nat ->
  (B <= fuel)%nat ->
  _make_gaussians fuel centres H W fwhm
  = Some (Ok (Tensor [B; H; W]
                (concat (map (gaussian_data H W
                                match fwhm with Some f => f | None => 1 end)
                             (chunks 2 B (data centres)))))).
Proof.
  intros Hs HH HW Hfuel. unfold _make_gaussians. rewrite Hs.
  set (f := match fwhm with Some f => f | None => 1 end).
  destruct centres as [sh l]. cbn [shape data] in *. subst sh.
  change (Tensor [0%nat] (@nil tfloat))
    with (Tensor [length (@nil tfloat)] (@nil tfloat)).
  rewrite gaussians_loop by exact Hfuel. cbn [snd app].
  unfold tf_reshape_infer. cbn [data].
  assert (Hlen : length (concat (map (gaussian_data H W f) (chunks 2 B l)))
                 = (B * (H * W))%nat).
  { rewrite (concat_length_const (H * W)).
    - now rewrite length_map, chunks_length.
    - intros c Hc. apply in_map_iff in Hc as [row [<- _]].
      apply gaussian_data_length. }
  rewrite Hlen.
  destruct (Nat.eqb_spec (H * W) 0) as [E | E]; [nia |].
  rewrite Nat.Div0.mod_mul, Nat.div_mul by exact E.
  reflexivity.
Qed.

Lemma gaussians_plane (H W B b : nat) (f : R) (l : list R) :
  (b < B)%nat ->
  block (H * W) b (concat (map (gaussian_data H W f) (chunks 2 B l)))
  = gaussian_data H W f [nth (2 * b) l 0; nth (2 * b + 1) l 0].
Proof.
  intros Hb. rewrite block_concat.
  - rewrite (map_nth_in _ _ _ []) by now rewrite chunks_length.
    rewrite chunks_nth by exact Hb. unfold gaussian_data.
    rewrite !nth_block by lia. cbn [nth].
    now replace (b * 2 + 0)%nat with (2 * b)%nat by lia;
      replace (b * 2 + 1)%nat with (2 * b + 1)%nat by lia.
  - intros c Hc. apply in_map_iff in Hc as [row [<- _]].
    apply gaussian_data_length.
  - now rewrite length_map, chunks_length.
Qed.

(** C8: for a batch of [B] centres, whatever [B], and enough fuel for
    [B] turns of the loop, [_make_gaussians] returns a [[B, H, W]] tensor
    whose plane [b] is the single-image Gaussian of row [b] of the
    centres; [js_reg_loss] is the sum over the batch of the
    Jensen-Shannon divergences between plane [b] of the heatmaps and
    that Gaussian, divided by [B]. *)
Theorem make_gaussians_batch (fuel : nat) (heatmaps : tensor tfloat)
  (centres : tensor R) (B H W : nat) (fwhm : option R) :
  shape centres = [B; 2%nat] -> shape heatmaps = [B; H; W] ->
  (0 < H)%nat -> (0 < W)%nat -> (B <= fuel)%nat ->
  exists gauss divs,
    _make_gaussians fuel centres H W fwhm = Some (Ok gauss) /\
    shape gauss = [B; H; W] /\
    length (data gauss) = (B * (H * W))%nat /\
    _js_2d heatmaps gauss None = Ok (Tensor [B] divs) /\
    length divs = B /\
    js_reg_loss fuel heatmaps centres fwhm
    = Some (Ok (tdiv (tsum divs) (Fin (INR B)))) /\
    forall b, (b < B)%nat ->
      exists g,
        _make_gaussian (H, W)
          (nth (2 * b) (data centres) 0, nth (2 * b + 1) (data centres) 0)
          fwhm = Ok g /\
        plane gauss b = data g /\
        _js_2d (Tensor [1%nat; H; W] (plane heatmaps b))
               (Tensor [1%nat; H; W] (data g)) None
        = Ok (Tensor [1%nat] [nth b divs NaN]).
Proof.
  intros Hc Hh HH HW Hfuel.
  set (f := match fwhm with Some f => f | None => 1 end).
  set (gd := concat (map (gaussian_data H W f) (chunks 2 B (data centres)))).
  set (eps := 1 / 10 ^ 24).
  exists (Tensor [B; H; W] gd).
  exists (map (fun b => js_plane (block (H * W) b (data heatmaps))
                                 (block (H * W) b gd) eps) (seq 0 B)).
  assert (Eg : _make_gaussians fuel centres H W fwhm
               = Some (Ok (Tensor [B; H; W] gd)))
    by now apply make_gaussians_ok.
  assert (Ej : _js_2d heatmaps (Tensor [B; H; W] gd) None
               = Ok (Tensor [B]
                       (map (fun b =>
                               js_plane (block (H * W) b (data heatmaps))
                                        (block (H * W) b gd) eps)
                            (seq 0 B))))
    by now apply (js_2d_planes heatmaps (Tensor [B; H; W] gd) B H W None).
  split; [exact Eg |]. split; [reflexivity |].
  split.
  { cbn [data]. unfold gd. rewrite (concat_length_const (H * W)).
    - now rewrite length_map, chunks_length.
    - intros c Hin. apply in_map_iff in Hin as [row [<- _]].
      apply gaussian_data_length. }
  split; [exact Ej |].
  split; [now rewrite length_map, length_seq |].
  split.
  { unfold js_reg_loss, dim. rewrite Hh. cbn [nth_error].
    rewrite (make_gaussians_ok fuel centres B H W (Some _)) by assumption.
    fold f. fold gd. rewrite Ej. cbn [bind]. unfold reduce_mean.
    cbn [data]. now rewrite length_map, length_seq. }
  intros b Hb.
  destruct (make_gaussian_shape H W
              (nth (2 * b) (data centres) 0,
               nth (2 * b + 1) (data centres) 0) (Some f)) as [d [Ed Hd]].
  assert (Epl : block (H * W) b gd = d).
  { unfold gd. rewrite gaussians_plane by exact Hb.
    unfold gaussian_data. cbn [nth]. now rewrite Ed. }
  exists (Tensor [H; W] d).
  split; [destruct fwhm; exact Ed |].
  split; [unfold plane; cbn [shape data]; exact Epl |].
  rewrite (js_2d_planes _ _ 1 H W None) by reflexivity.
  cbn [seq map data]. unfold plane. rewrite Hh.
  rewrite block_block_0, (block_0_all (H * W) d Hd).
  rewrite (map_nth_in _ _ _ 0%nat) by now rewrite length_seq.
  rewrite seq_nth by exact Hb. cbn [Nat.add]. now rewrite Epl.
Qed.

Lemma make_gaussians_batch_witness :
  exists gauss divs,
    _make_gaussians 2 (Tensor [2; 2]%nat [0; 0; 1; 1]) 1 1 None
    = Some (Ok gauss) /\
    shape gauss = [2; 1; 1]%nat /\
    length (data gauss) = (2 * (1 * 1))%nat /\
    _js_2d (Tensor [2; 1; 1]%nat [Fin 1; Fin 1]) gauss None
    = Ok (Tensor [2%nat] divs) /\
    length divs = 2%nat /\
    js_reg_loss 2 (Tensor [2; 1; 1]%nat [Fin 1; Fin 1])
      (Tensor [2; 2]%nat [0; 0; 1; 1]) None
    = Some (Ok (tdiv (tsum divs) (Fin (INR 2)))) /\
    forall b, (b < 2)%nat ->
      exists g,
        _make_gaussian (1%nat, 1%nat)
          (nth (2 * b) (data (Tensor [2; 2]%nat [0; 0; 1; 1])) 0,
           nth (2 * b + 1) (data (Tensor [2; 2]%nat [0; 0; 1; 1])) 0)
          None = Ok g /\
        plane gauss b = data g /\
        _js_2d (Tensor [1; 1; 1]%nat
                  (plane (Tensor [2; 1; 1]%nat [Fin 1; Fin 1]) b))
               (Tensor [1; 1; 1]%nat (data g)) None
        = Ok (Tensor [1%nat] [nth b divs NaN]).
Proof.
  apply (make_gaussians_batch 2 (Tensor [2; 1; 1]%nat [Fin 1; Fin 1])
           (Tensor [2; 2]%nat [0; 0; 1; 1]) 2 1 1 None);
    try reflexivity; lia.
Defined.

(** ** The divergence of a distribution from itself with a tiny [eps] *)

(** C9 as stated, for any [eps], fails at [eps = 1e-50] on the one-hot
    distribution [[1, 0]]: this [eps] is below the smallest normal
    [float32] and is added as 0, so the empty pixel contributes
    [0 * (ln 0 - ln 0)], which is a NaN, and so is the divergence. *)
Lemma js_2d_self_tiny_eps_nan :
  round32 (1 / 10 ^ 50) = Fin 0 /\
  _js_2d (Tensor [1; 1; 2]%nat [Fin 1; Fin 0])
         (Tensor [1; 1; 2]%nat [Fin 1; Fin 0]) (Some (1 / 10 ^ 50))
  = Ok (Tensor [1%nat] [NaN]) /\
  _js_2d (Tensor [1; 1; 2]%nat [Fin 1; Fin 0])
         (Tensor [1; 1; 2]%nat [Fin 1; Fin 0]) (Some (1 / 10 ^ 50))
  <> Ok (Tensor [1%nat] [Fin 0]).
Proof.
  assert (R0 : round32 (1 / 10 ^ 50) = Fin 0).
  { apply round32_small. rewrite Rabs_pos_eq by lra.
    unfold float32_min. lra. }
  set (e := 1 / 10 ^ 50) in *.
  assert (E : _js_2d (Tensor [1; 1; 2]%nat [Fin 1; Fin 0])
                (Tensor [1; 1; 2]%nat [Fin 1; Fin 0]) (Some e)
              = Ok (Tensor [1%nat] [NaN])).
  { rewrite (js_2d_planes _ _ 1 1 2 (Some e)) by reflexivity.
    cbn [seq map data]. do 3 f_equal.
    assert (K : kl_plane [Fin 1; Fin 0]
                  (map (tmul (Fin (1 / 2)))
                       (map2 tadd [Fin 1; Fin 0] [Fin 1; Fin 0])) e
                = NaN).
    { unfold kl_plane, map2. rewrite R0.
      cbn [map combine fst snd tadd tmul].
      replace (0 + 0) with 0 by lra.
      replace (1 / 2 * 0 + 0) with 0 by lra.
      cbn [tlog]. rewrite !sign_case_zero.
      rewrite !sign_case_pos by lra. reflexivity. }
    unfold js_plane, block. cbn [Nat.mul Nat.add skipn firstn].
    rewrite K. reflexivity. }
  split; [exact R0 |]. split; [exact E |]. rewrite E. discriminate.
Qed.

(** * Further properties of the rectifications *)

(** X1: the divide-by-sum methods accept a batch of two heatmaps only.
    For every other batch size the reshape of the per-image sums to the
    literal [[2, 1, 1]] raises a shape error, and so does [dsnt]. *)
Theorem divide_by_sum_rejects_other_batches (inputs : tensor R)
  (method : string) (B H W : nat) :
  firstn 3 (shape inputs) = [B; H; W] ->
  length (data inputs) = (B * (H * W))%nat ->
  B <> 2%nat ->
  method = "abs"%string \/ method = "relu"%string
  \/ method = "sigmoid"%string ->
  _normalise_heatmap inputs (Some method) = Err ShapeError /\
  dsnt inputs (Some method) = Err ShapeError.
Proof.
  intros Hs Hl HB Hm.
  assert (E : _normalise_heatmap inputs (Some method) = Err ShapeError).
  { unfold _normalise_heatmap.
    rewrite (reshape_first3 inputs B H W Hs Hl). cbn [bind].
    destruct Hm as [-> | [-> | ->]];
      match goal with
      | |- context [normalise (tf_map ?r _)] =>
          change (normalise (tf_map r (Tensor [B; H; W] (data inputs)))
                  = Err ShapeError)
      end;
      now apply (normalise_batch_not_two _ B H W). }
  split; [exact E |]. unfold dsnt. now rewrite E.
Qed.

Lemma divide_by_sum_rejects_other_batches_witness :
  _normalise_heatmap (Tensor [1; 1; 2]%nat [1; 3]) (Some "relu"%string)
  = Err ShapeError /\
  dsnt (Tensor [1; 1; 2]%nat [1; 3]) (Some "relu"%string) = Err ShapeError.
Proof.
  apply (divide_by_sum_rejects_other_batches
           (Tensor [1; 1; 2]%nat [1; 3]) "relu" 1 1 2);
    try reflexivity; [lia | right; left; reflexivity].
Defined.

(** X2: a rank-4 input whose last dimension is not 1 and that holds at
    least one value is never squeezed: with the default or any supported
    method the first reshape fails with a shape error, and so does
    [dsnt]. *)
Theorem non_singleton_channel_rejected (inputs : tensor R)
  (method : option string) (B H W C : nat) :
  shape inputs = [B; H; W; C] ->
  length (data inputs) = (B * (H * (W * C)))%nat ->
  C <> 1%nat -> (0 < length (data inputs))%nat ->
  (forall m, method = Some m ->
     m = "softmax"%string \/ m = "abs"%string \/ m = "relu"%string
     \/ m = "sigmoid"%string) ->
  _normalise_heatmap inputs method = Err ShapeError /\
  dsnt inputs method = Err ShapeError.
Proof.
  intros Hs Hl HC Hpos _.
  assert (E : _normalise_heatmap inputs method = Err ShapeError).
  { unfold _normalise_heatmap, tf_reshape. rewrite Hs.
    cbn [firstn numel fold_right].
    destruct (Nat.eqb_spec (B * (H * (W * 1))) (length (data inputs)))
      as [E | E]; [| reflexivity].
    exfalso. rewrite Hl in E, Hpos.
    assert (HBHW : (0 < B * (H * W))%nat).
    { destruct (B * (H * W))%nat eqn:E0; [| lia].
      replace (B * (H * (W * C)))%nat with (B * (H * W) * C)%nat in Hpos
        by lia.
      rewrite E0 in Hpos. simpl in Hpos. lia. }
    replace (B * (H * (W * 1)))%nat with (B * (H * W) * 1)%nat in E by lia.
    replace (B * (H * (W * C)))%nat with (B * (H * W) * C)%nat in E by lia.
    apply Nat.mul_cancel_l in E; [congruence | lia]. }
  split; [exact E |]. unfold dsnt. now rewrite E.
Qed.

Lemma non_singleton_channel_rejected_witness :
  _normalise_heatmap (Tensor [1; 1; 1; 2]%nat [0; 1]) None
  = Err ShapeError /\
  dsnt (Tensor [1; 1; 1; 2]%nat [0; 1]) None = Err ShapeError.
Proof.
  apply (non_singleton_channel_rejected
           (Tensor [1; 1; 1; 2]%nat [0; 1]) None 1 1 1 2);
    try reflexivity; [lia | simpl; lia | discriminate].
Defined.

Lemma rsum_all_zero (l : list R) : (forall v, In v l -> v = 0) -> rsum l = 0.
Proof.
  induction l as [| a l IH]; intros H; simpl; [reflexivity |].
  rewrite (H a) by now left. rewrite IH by (intros; apply H; now right). lra.
Qed.

Lemma normalise_plane_zero (pl : list R) :
  (forall v, In v pl -> v = 0) ->
  normalise_plane pl = repeat NaN (length pl).
Proof.
  intros Hz. unfold normalise_plane. rewrite (rsum_all_zero pl Hz).
  etransitivity; [apply (all_eq_repeat NaN) |].
  - intros v Hv. apply in_map_iff in Hv as [x [<- Hx]].
    rewrite (Hz x Hx). apply tdiv_zero_zero.
  - now rewrite length_map.
Qed.

Lemma normalise_zero_plane (r : R -> R) (l : list R) (H W b : nat) :
  length l = (2 * (H * W))%nat -> (b < 2)%nat ->
  (forall x, In x (block (H * W) b l) -> r x = 0) ->
  exists out,
    normalise (tf_map r (Tensor [2%nat; H; W] l)) = Ok out /\
    shape out = [2%nat; H; W] /\
    plane out b = repeat NaN (H * W).
Proof.
  intros Hl Hb Hz. eexists.
  split; [now rewrite (normalise_planewise _ H W) |].
  split; [reflexivity |].
  unfold plane. cbn [shape data tf_map].
  rewrite block_planewise;
    [| apply normalise_plane_length | rewrite length_map; lia | exact Hb].
  rewrite block_map, normalise_plane_zero.
  - now rewrite length_map, (block_length (H * W) 2).
  - intros v Hv. apply in_map_iff in Hv as [x [<- Hx]]. now apply Hz.
Qed.

(** X3: in a batch of two, an image that is zero everywhere under method
    abs, or positive nowhere under method relu, has sum 0 after the
    rectification; no error is raised, and every value of that image in
    the returned heatmap is a NaN. *)
Theorem zero_sum_plane_is_nan (inputs : tensor R) (method : string)
  (H W b : nat) :
  firstn 3 (shape inputs) = [2%nat; H; W] ->
  length (data inputs) = (2 * (H * W))%nat ->
  (b < 2)%nat ->
  (method = "abs"%string /\
   forall x, In x (block (H * W) b (data inputs)) -> x = 0) \/
  (method = "relu"%string /\
   forall x, In x (block (H * W) b (data inputs)) -> x <= 0) ->
  exists out,
    _normalise_heatmap inputs (Some method) = Ok out /\
    shape out = [2%nat; H; W] /\
    plane out b = repeat NaN (H * W).
Proof.
  intros Hs Hl Hb Hm. unfold _normalise_heatmap.
  rewrite (reshape_first3 inputs 2 H W Hs Hl). cbn [bind].
  destruct Hm as [[-> Hz] | [-> Hz]];
    match goal with
    | |- context [normalise (tf_map ?r _)] =>
        change (exists out,
                  normalise (tf_map r (Tensor [2%nat; H; W] (data inputs)))
                  = Ok out /\ shape out = [2%nat; H; W] /\
                  plane out b = repeat NaN (H * W))
    end;
    apply normalise_zero_plane; try assumption.
  - intros x Hx. rewrite (Hz x Hx). apply Rabs_R0.
  - intros x Hx. unfold relu. apply Rmax_right. now apply Hz.
Qed.

Lemma zero_sum_plane_is_nan_witness :
  exists out,
    _normalise_heatmap (Tensor [2; 1; 2]%nat [-1; -2; 3; 4])
      (Some "relu"%string) = Ok out /\
    shape out = [2; 1; 2]%nat /\
    plane out 0 = repeat NaN (1 * 2).
Proof.
  apply (zero_sum_plane_is_nan (Tensor [2; 1; 2]%nat [-1; -2; 3; 4])
           "relu" 1 2 0); try reflexivity; [lia |].
  right. split; [reflexivity |].
  cbn. intros x [<- | [<- | []]]; lra.
Defined.

Lemma Rmax_shift (a b c : R) : Rmax (a + c) (b + c) = Rmax a b + c.
Proof.
  unfold Rmax. destruct (Rle_dec (a + c) (b + c)), (Rle_dec a b); lra.
Qed.

Lemma fold_left_Rmax_shift (l : list R) (a c : R) :
  fold_left Rmax (map (fun x => x + c) l) (a + c) = fold_left Rmax l a + c.
Proof.
  revert a. induction l as [| b l IH]; intros a; simpl; [reflexivity |].
  now rewrite Rmax_shift, IH.
Qed.

Lemma softmax_plane_shift (pl : list R) (c : R) :
  softmax_plane (map (fun x => x + c) pl) = softmax_plane pl.
Proof.
  unfold softmax_plane.
  assert (E : map (fun e => texp (tsub (Fin e)
                                    (rmax_list (map (fun x => x + c) pl))))
                  (map (fun x => x + c) pl)
              = map (fun e => texp (tsub (Fin e) (rmax_list pl))) pl).
  { destruct pl as [| a pl]; [reflexivity |].
    cbn [rmax_list map]. rewrite fold_left_Rmax_shift.
    change (map (fun e => texp (tsub (Fin e)
                                  (Fin (fold_left Rmax pl a + c))))
                (map (fun x => x + c) (a :: pl))
            = map (fun e => texp (tsub (Fin e) (Fin (fold_left Rmax pl a))))
                  (a :: pl)).
    rewrite map_map. apply map_ext. intros x. cbn [tsub topp tadd].
    do 2 f_equal. ring. }
  now rewrite E.
Qed.

Lemma chunks_map {A B : Type} (f : A -> B) (n k : nat) (l : list A) :
  chunks n k (map f l) = map (map f) (chunks n k l).
Proof.
  rewrite !chunks_as_map, map_map. apply map_ext. intros b.
  apply block_map.
Qed.

(** X4: the softmax rectification does not see a constant added to
    every value of the heatmap: subtracting the per-image maximum cancels
    it, for every batch size. *)
Theorem softmax_shift_invariant (inputs : tensor R) (method : option string)
  (c : R) (B H W : nat) :
  method = None \/ method = Some "softmax"%string ->
  firstn 3 (shape inputs) = [B; H; W] ->
  length (data inputs) = (B * (H * W))%nat ->
  _normalise_heatmap
    (Tensor (shape inputs) (map (fun x => x + c) (data inputs))) method
  = _normalise_heatmap inputs method /\
  exists out, _normalise_heatmap inputs method = Ok out.
Proof.
  intros Hm Hs Hl.
  assert (Em : forall t, _normalise_heatmap t method
                         = _normalise_heatmap t (Some "softmax"%string))
    by (intros t; destruct Hm as [-> | ->]; reflexivity).
  rewrite !Em.
  destruct (softmax_heatmap_planes inputs B H W Hs Hl) as [E _].
  destruct (softmax_heatmap_planes
              (Tensor (shape inputs) (map (fun x => x + c) (data inputs)))
              B H W) as [E' _].
  { exact Hs. }
  { cbn [data]. now rewrite length_map. }
  rewrite E, E'. cbn [data]. split; [| eexists; reflexivity].
  do 3 f_equal. rewrite chunks_map, map_map.
  apply map_ext. intros pl. apply softmax_plane_shift.
Qed.

Lemma softmax_shift_invariant_witness :
  _normalise_heatmap
    (Tensor (shape (Tensor [1; 1; 2]%nat [0; 1]))
       (map (fun x => x + 5) (data (Tensor [1; 1; 2]%nat [0; 1])))) None
  = _normalise_heatmap (Tensor [1; 1; 2]%nat [0; 1]) None /\
  exists out, _normalise_heatmap (Tensor [1; 1; 2]%nat [0; 1]) None = Ok out.
Proof.
  apply (softmax_shift_invariant (Tensor [1; 1; 2]%nat [0; 1]) None 5 1 1 2);
    [now left | reflexivity | reflexivity].
Defined.

(** X5: within one image the softmax rectification keeps the order of
    the values: a pixel whose raw value is at most that of another gets
    at most its probability, and no probability is negative, so the
    largest raw value of an image gets the largest probability. *)
Theorem softmax_order_preserving (inputs : tensor R) (method : option string)
  (B H W : nat) :
  method = None \/ method = Some "softmax"%string ->
  firstn 3 (shape inputs) = [B; H; W] ->
  length (data inputs) = (B * (H * W))%nat ->
  exists out,
    _normalise_heatmap inputs method = Ok out /\
    forall b i j, (b < B)%nat -> (i < H * W)%nat -> (j < H * W)%nat ->
      nth i (block (H * W) b (data inputs)) 0
      <= nth j (block (H * W) b (data inputs)) 0 ->
      exists u v,
        nth i (plane out b) NaN = Fin u /\ nth j (plane out b) NaN = Fin v /\
        0 <= u <= v.
Proof.
  intros Hm Hs Hl.
  destruct (softmax_heatmap_planes inputs B H W Hs Hl) as [E Hplane].
  eexists. split; [destruct Hm as [-> | ->]; exact E |].
  intros b i j Hb Hi Hj Hle.
  pose proof (block_length (H * W) B b (data inputs) Hl Hb) as Hlen.
  set (pl := block (H * W) b (data inputs)) in *.
  assert (Hne : pl <> []).
  { intros E0. rewrite E0 in Hlen. simpl in Hlen. lia. }
  rewrite (Hplane b Hb). fold pl.
  rewrite (softmax_plane_values pl Hne).
  pose proof (softmax_sum_ge_1 pl Hne) as Htot. cbv zeta in Htot.
  set (m := fold_left Rmax (tl pl) (hd 0 pl)) in *.
  set (tot := rsum (map (fun y => exp32 (y - m)) pl)) in *.
  assert (Hinv : 0 < / tot) by (apply Rinv_0_lt_compat; lra).
  exists (exp32 (nth i pl 0 - m) / tot), (exp32 (nth j pl 0 - m) / tot).
  split;
    [apply (map_nth_in (fun x => Fin (exp32 (x - m) / tot)) pl i 0 NaN); lia |].
  split;
    [apply (map_nth_in (fun x => Fin (exp32 (x - m) / tot)) pl j 0 NaN); lia |].
  split.
  - apply Rmult_le_pos; [apply exp32_nonneg | lra].
  - apply Rmult_le_compat_r; [lra |].
    apply exp32_mono. lra.
Qed.

Lemma softmax_order_preserving_witness :
  exists out,
    _normalise_heatmap (Tensor [1; 1; 2]%nat [0; 1]) None = Ok out /\
    forall b i j, (b < 1)%nat -> (i < 1 * 2)%nat -> (j < 1 * 2)%nat ->
      nth i (block (1 * 2) b (data (Tensor [1; 1; 2]%nat [0; 1]))) 0
      <= nth j (block (1 * 2) b (data (Tensor [1; 1; 2]%nat [0; 1]))) 0 ->
      exists u v,
        nth i (plane out b) NaN = Fin u /\ nth j (plane out b) NaN = Fin v /\
        0 <= u <= v.
Proof.
  apply (softmax_order_preserving (Tensor [1; 1; 2]%nat [0; 1]) None 1 1 2);
    [now left | reflexivity | reflexivity].
Defined.

(** * Further properties of the divergences *)

Lemma ln_le_mono (a b : R) : 0 < a -> a <= b -> ln a <= ln b.
Proof.
  intros Ha [Hlt | ->]; [apply Rlt_le, ln_increasing; assumption | lra].
Qed.

Lemma ln_le_sub1 (y : R) : 0 < y -> ln y <= y - 1.
Proof.
  intros Hy. destruct (Req_dec y 1) as [-> | Hne].
  - rewrite ln_1. lra.
  - pose proof (exp_ineq1 (ln y) (ln_neq_0 y Hne Hy)) as H.
    rewrite exp_ln in H by exact Hy. lra.
Qed.

(** One pixel of the Jensen-Shannon sum lies between 0 and its share of
    [ln 2]. *)
Lemma js_term_bounds (p q e : R) :
  0 <= p -> 0 <= q -> 0 < e ->
  let m := 1 / 2 * (p + q) in
  0 <= 1 / 2 * (p * (ln (p + e) - ln (m + e)))
       + 1 / 2 * (q * (ln (q + e) - ln (m + e)))
  <= ln 2 / 2 * (p + q).
Proof.
  intros Hp Hq He m.
  assert (Hm : 0 < m + e) by (unfold m; lra).
  assert (Ha : 0 < p + e) by lra.
  assert (Hb : 0 < q + e) by lra.
  assert (Lp : 1 - (m + e) / (p + e) <= ln (p + e) - ln (m + e)).
  { pose proof (ln_le_sub1 ((m + e) / (p + e))
                  (Rdiv_lt_0_compat _ _ Hm Ha)) as H.
    unfold Rdiv in H at 1. rewrite ln_mult, ln_Rinv in H
      by (try assumption; now apply Rinv_0_lt_compat). lra. }
  assert (Lq : 1 - (m + e) / (q + e) <= ln (q + e) - ln (m + e)).
  { pose proof (ln_le_sub1 ((m + e) / (q + e))
                  (Rdiv_lt_0_compat _ _ Hm Hb)) as H.
    unfold Rdiv in H at 1. rewrite ln_mult, ln_Rinv in H
      by (try assumption; now apply Rinv_0_lt_compat). lra. }
  assert (Up : ln (p + e) - ln (m + e) <= ln 2).
  { assert (ln (p + e) <= ln (2 * (m + e)))
      by (apply ln_le_mono; unfold m; lra).
    rewrite ln_mult in H by lra. lra. }
  assert (Uq : ln (q + e) - ln (m + e) <= ln 2).
  { assert (ln (q + e) <= ln (2 * (m + e)))
      by (apply ln_le_mono; unfold m; lra).
    rewrite ln_mult in H by lra. lra. }
  split.
  - assert (Hlow : 0 <= p * (1 - (m + e) / (p + e))
                        + q * (1 - (m + e) / (q + e))).
    { replace (p * (1 - (m + e) / (p + e)) + q * (1 - (m + e) / (q + e)))
        with (e * (p - q) ^ 2 / (2 * ((p + e) * (q + e))))
        by (unfold m; field; lra).
      apply Rmult_le_pos.
      - apply Rmult_le_pos; [lra | apply pow2_ge_0].
      - apply Rlt_le, Rinv_0_lt_compat.
        assert (0 < (p + e) * (q + e)) by now apply Rmult_lt_0_compat.
        lra. }
    assert (p * (1 - (m + e) / (p + e)) <= p * (ln (p + e) - ln (m + e)))
      by now apply Rmult_le_compat_l.
    assert (q * (1 - (m + e) / (q + e)) <= q * (ln (q + e) - ln (m + e)))
      by now apply Rmult_le_compat_l.
    lra.
  - assert (p * (ln (p + e) - ln (m + e)) <= p * ln 2)
      by now apply Rmult_le_compat_l.
    assert (q * (ln (q + e) - ln (m + e)) <= q * ln 2)
      by now apply Rmult_le_compat_l.
    lra.
Qed.

Lemma js_real_bounds (e : R) (ps : list R) :
  0 < e ->
  forall qs,
    length ps = length qs ->
    (forall v, In v ps -> 0 <= v) -> (forall v, In v qs -> 0 <= v) ->
    0 <= js_real e ps qs <= ln 2 / 2 * (rsum ps + rsum qs).
Proof.
  intros He. unfold js_real, kl_real, map2.
  induction ps as [| p ps IH]; intros [| q qs] Hlen Hp Hq;
    simpl in Hlen; try discriminate.
  - simpl. lra.
  - cbn [combine map rsum fold_right fst snd].
    specialize (IH qs).
    assert (IH' := IH ltac:(lia)
                     (fun v Hv => Hp v (or_intror Hv))
                     (fun v Hv => Hq v (or_intror Hv))).
    pose proof (js_term_bounds p q e (Hp p (or_introl eq_refl))
                  (Hq q (or_introl eq_refl)) He) as Ht.
    cbv zeta in Ht. unfold rsum in *. lra.
Qed.

Lemma map2_tadd_Fin (ps qs : list R) :
  map2 tadd (map Fin ps) (map Fin qs) = map Fin (map2 Rplus ps qs).
Proof.
  unfold map2. revert qs.
  induction ps as [| p ps IH]; intros [| q qs]; simpl; try reflexivity.
  now rewrite IH.
Qed.

Lemma kl_plane_fin (eps e : R) (ps : list R) :
  round32 eps = Fin e ->
  forall ms,
    (forall v, In v ps -> 0 < v + e) -> (forall v, In v ms -> 0 < v + e) ->
    kl_plane (map Fin ps) (map Fin ms) eps = Fin (kl_real e ps ms).
Proof.
  intros Er. unfold kl_plane, kl_real, map2. rewrite Er.
  induction ps as [| p ps IH]; intros [| m ms] Hp Hm; try reflexivity.
  cbn [map combine fst snd]. rewrite tsum_cons.
  rewrite IH
    by (intros v Hv; first [now (apply Hp; right) | now (apply Hm; right)]).
  cbn [tadd].
  rewrite !tlog_pos by first [now (apply Hp; left) | now (apply Hm; left)].
  reflexivity.
Qed.

Lemma js_plane_fin (eps e : R) (ps qs : list R) :
  round32 eps = Fin e -> 0 < e ->
  (forall v, In v ps -> 0 <= v) -> (forall v, In v qs -> 0 <= v) ->
  js_plane (map Fin ps) (map Fin qs) eps = Fin (js_real e ps qs).
Proof.
  intros Er He Hp Hq. unfold js_plane, js_real.
  rewrite map2_tadd_Fin.
  assert (E : map (tmul (Fin (1 / 2))) (map Fin (map2 Rplus ps qs))
              = map Fin (map (fun s => 1 / 2 * s) (map2 Rplus ps qs)))
    by now rewrite !map_map.
  rewrite E. cbv zeta.
  assert (Hms : forall v,
             In v (map (fun s => 1 / 2 * s) (map2 Rplus ps qs)) ->
             0 < v + e).
  { intros v Hv. apply in_map_iff in Hv as [s [<- Hs]].
    unfold map2 in Hs. apply in_map_iff in Hs as [[p q] [<- Hpq]].
    pose proof (in_combine_l _ _ _ _ Hpq) as H1.
    pose proof (in_combine_r _ _ _ _ Hpq) as H2.
    apply Hp in H1. apply Hq in H2. cbn [fst snd]. lra. }
  rewrite !(kl_plane_fin eps e) by
    (first [exact Er | exact Hms
           | intros v Hv; apply Hq in Hv; lra
           | intros v Hv; apply Hp in Hv; lra]).
  reflexivity.
Qed.

(** The default [eps] of [_js_2d], and any [eps] between the smallest
    normal [float32] and 1, is added as a positive value. *)
Lemma round32_eps (eps : option R) :
  (forall e, eps = Some e -> float32_min <= e <= 1) ->
  exists e,
    round32 (match eps with Some e => e | None => 1 / 10 ^ 24 end) = Fin e
    /\ 0 < e.
Proof.
  intros He.
  destruct (round32_normal (match eps with Some e => e | None => 1 / 10 ^ 24 end))
    as [v [Ev Hv]].
  - destruct eps as [e |]; [now apply He |]. unfold float32_min. lra.
  - exists v. split; [exact Ev |].
    assert (0 < match eps with Some e => e | None => 1 / 10 ^ 24 end).
    { destruct eps as [e |]; [| lra].
      pose proof float32_min_pos. specialize (He e eq_refl). lra. }
    lra.
Qed.

(** X6: in exact arithmetic, between two batches of distributions of
    one shape (finite, non-negative values, every plane summing to 1)
    and for an [eps] between the smallest normal [float32] and 1 (as is
    the default), [_js_2d] returns one finite divergence per batch
    element, and each lies between 0 and [ln 2]. *)
Theorem js_2d_between_0_and_ln2 (p q : tensor tfloat) (eps : option R)
  (B H W : nat) :
  shape p = [B; H; W] -> shape q = [B; H; W] ->
  (forall e, eps = Some e -> float32_min <= e <= 1) ->
  (forall b, (b < B)%nat ->
     exists ps qs,
       plane p b = map Fin ps /\ plane q b = map Fin qs /\
       length ps = length qs /\
       (forall v, In v ps -> 0 <= v) /\ (forall v, In v qs -> 0 <= v) /\
       rsum ps = 1 /\ rsum qs = 1) ->
  exists divs,
    _js_2d p q eps = Ok (Tensor [B] divs) /\ length divs = B /\
    forall b, (b < B)%nat ->
      exists v, nth b divs NaN = Fin v /\ 0 <= v <= ln 2.
Proof.
  intros Hp Hq He Hdist.
  destruct (round32_eps eps He) as [e [Er Hepos]].
  eexists. split; [apply (js_2d_planes p q B H W eps Hp Hq) |].
  split; [now rewrite length_map, length_seq |].
  intros b Hb.
  rewrite (map_nth_in _ _ _ 0%nat) by now rewrite length_seq.
  rewrite seq_nth by exact Hb. cbn [Nat.add].
  destruct (Hdist b Hb) as [ps [qs [Ep [Eq [Hlen [Hps [Hqs [Sp Sq]]]]]]]].
  unfold plane in Ep, Eq. rewrite Hp in Ep. rewrite Hq in Eq.
  rewrite Ep, Eq, (js_plane_fin _ e) by assumption.
  eexists. split; [reflexivity |].
  pose proof (js_real_bounds e ps Hepos qs Hlen Hps Hqs) as Hb'.
  rewrite Sp, Sq in Hb'. lra.
Qed.

Lemma js_2d_between_0_and_ln2_witness :
  exists divs,
    _js_2d (Tensor [1; 1; 2]%nat [Fin (1 / 4); Fin (3 / 4)])
           (Tensor [1; 1; 2]%nat [Fin (1 / 2); Fin (1 / 2)]) None
    = Ok (Tensor [1%nat] divs) /\ length divs = 1%nat /\
    forall b, (b < 1)%nat ->
      exists v, nth b divs NaN = Fin v /\ 0 <= v <= ln 2.
Proof.
  apply (js_2d_between_0_and_ln2
           (Tensor [1; 1; 2]%nat [Fin (1 / 4); Fin (3 / 4)])
           (Tensor [1; 1; 2]%nat [Fin (1 / 2); Fin (1 / 2)]) None 1 1 2);
    try reflexivity; [discriminate |].
  intros b Hb. assert (b = 0%nat) as -> by lia.
  exists [1 / 4; 3 / 4], [1 / 2; 1 / 2].
  repeat split; try reflexivity; simpl; try lra;
    intros v Hv; repeat (destruct Hv as [<- | Hv]; [lra |]); destruct Hv.
Defined.

(** * Further properties of the expectation *)

Lemma fin_list (P : R -> Prop) (l : list tfloat) :
  (forall v, In v l -> exists g, v = Fin g /\ P g) ->
  exists gs, l = map Fin gs /\ forall g, In g gs -> P g.
Proof.
  induction l as [| a l IH]; intros H.
  - exists []. split; [reflexivity | intros g []].
  - destruct (H a (or_introl eq_refl)) as [g [-> Hg]].
    destruct IH as [gs [-> Hgs]]; [intros v Hv; apply H; now right |].
    exists (g :: gs). split; [reflexivity |].
    intros g' [<- | Hin]; [exact Hg | now apply Hgs].
Qed.

Lemma tsum_map2_tmul_Fin (vs gs : list R) :
  tsum (map2 tmul (map Fin vs) (map Fin gs)) = Fin (rsum (map2 Rmult vs gs)).
Proof.
  unfold map2. revert gs.
  induction vs as [| v vs IH]; intros [| g gs]; try reflexivity.
  cbn [map combine fst snd]. now rewrite tsum_cons, IH.
Qed.

(** A weighted sum of values within [c] of 0, with non-negative
    weights, stays within [c] times the total weight. *)
Lemma weighted_sum_bounds (c : R) (vs : list R) :
  forall gs,
    length vs = length gs ->
    (forall v, In v vs -> 0 <= v) -> (forall g, In g gs -> - c <= g <= c) ->
    - (c * rsum vs) <= rsum (map2 Rmult vs gs) <= c * rsum vs.
Proof.
  unfold map2.
  induction vs as [| v vs IH]; intros [| g gs] Hlen Hv Hg;
    simpl in Hlen; try discriminate.
  - simpl. lra.
  - cbn [combine map rsum fold_right fst snd].
    destruct (IH gs) as [L U]; [lia | | |].
    { intros x Hx. apply Hv. now right. }
    { intros x Hx. apply Hg. now right. }
    assert (H0 : 0 <= v) by (apply Hv; now left).
    assert (Hg0 : - c <= g <= c) by (apply Hg; now left).
    unfold rsum in *. split; nra.
Qed.

Lemma grid_row_In (n : nat) (v : tfloat) :
  In v (grid_row n) ->
  exists g, v = Fin g /\ - (1 - 1 / INR n) <= g <= 1 - 1 / INR n.
Proof.
  intros Hv. apply (In_nth _ _ NaN) in Hv as [i [Hi <-]].
  rewrite grid_row_length in Hi. rewrite grid_row_nth by exact Hi.
  eexists. split; [reflexivity |].
  pose proof (grid_value_margin n (S i) ltac:(lia)). lra.
Qed.

Lemma dsnt_x_In (B H W : nat) (v : tfloat) :
  In v (data (dsnt_x B H W)) ->
  exists g, v = Fin g /\ - (1 - 1 / INR W) <= g <= 1 - 1 / INR W.
Proof.
  unfold dsnt_x, tile_row. cbn [data]. intros Hv.
  apply in_concat in Hv as [row [Hrow Hv]].
  apply repeat_spec in Hrow as ->. now apply grid_row_In in Hv.
Qed.

Lemma dsnt_y_In (B H W : nat) (gy : tensor tfloat) (v : tfloat) :
  dsnt_y B H W = Ok gy ->
  In v (data gy) ->
  exists g, v = Fin g /\ - (1 - 1 / INR H) <= g <= 1 - 1 / INR H.
Proof.
  rewrite dsnt_y_ok. intros [= <-]. cbn [data]. intros Hv.
  apply in_concat in Hv as [pl [Hpl Hv]].
  apply repeat_spec in Hpl as ->.
  unfold transpose_plane in Hv. apply in_flat_map in Hv as [j [Hj Hv]].
  apply in_map_iff in Hv as [i [<- Hi]]. apply in_seq in Hi, Hj.
  pose proof (nth_concat_repeat (grid_row H) W i j NaN) as E.
  rewrite grid_row_length in E. rewrite E by lia.
  apply (grid_row_In H), nth_In. rewrite grid_row_length. lia.
Qed.

Lemma inner_product_in_range (c : R) (vals : list R) (gl : list tfloat) :
  length gl = length vals ->
  (forall v, In v vals -> 0 <= v) -> rsum vals = 1 ->
  (forall v, In v gl -> exists g, v = Fin g /\ - c <= g <= c) ->
  exists x, tsum (map2 tmul (map Fin vals) gl) = Fin x /\ - c <= x <= c.
Proof.
  intros Hlen Hv Hs Hg.
  destruct (fin_list (fun g => - c <= g <= c) gl Hg) as [gs [-> Hgs]].
  rewrite length_map in Hlen.
  rewrite tsum_map2_tmul_Fin. eexists. split; [reflexivity |].
  destruct (weighted_sum_bounds c vals gs) as [L U]; auto.
  rewrite Hs in L, U. lra.
Qed.

(** The coordinates of an image that is a distribution stay as far from
    -1 and 1 as the outermost values of the coordinate matrices. *)
Lemma coords_in_range (norm : tensor tfloat) (B H W b : nat)
  (vals : list R) :
  shape norm = [B; H; W] -> length (data norm) = (B * (H * W))%nat ->
  (b < B)%nat ->
  plane norm b = map Fin vals ->
  (forall v, In v vals -> 0 <= v) -> rsum vals = 1 ->
  exists coords x y,
    dsnt_coords norm = Ok coords /\
    get2 coords b 0 = Fin x /\ get2 coords b 1 = Fin y /\
    - (1 - 1 / INR W) <= x <= 1 - 1 / INR W /\
    - (1 - 1 / INR H) <= y <= 1 - 1 / INR H.
Proof.
  intros Hs Hl Hb Hpl Hv Hsum.
  destruct (dsnt_coords_ok norm B H W Hs) as [gy [Egy Ec]].
  destruct (dsnt_x_wf B H W) as [_ Hlx].
  destruct (dsnt_y_wf B H W gy Egy) as [_ Hly].
  unfold plane in Hpl. rewrite Hs in Hpl.
  assert (Hlv : length vals = (H * W)%nat).
  { rewrite <- (length_map Fin), <- Hpl. now apply (block_length _ B). }
  match type of Ec with
  | _ = Ok (Tensor _ (concat (map2 _ ?ox ?oy))) =>
      destruct (stacked_entries ox oy B b) as [E0 E1];
        [now rewrite length_map, chunks_length
        | now rewrite length_map, chunks_length
        | exact Hb |]
  end.
  cbv zeta in E0, E1.
  rewrite (map_nth_in tsum _ _ []) in E0 by now rewrite chunks_length.
  rewrite (map_nth_in tsum _ _ []) in E1 by now rewrite chunks_length.
  rewrite chunks_nth in E0 by exact Hb.
  rewrite chunks_nth in E1 by exact Hb.
  rewrite block_map2, Hpl in E0, E1.
  destruct (inner_product_in_range (1 - 1 / INR W) vals
              (block (H * W) b (data (dsnt_x B H W)))) as [x [Ex Hx]];
    try assumption.
  { rewrite Hlv. now apply (block_length _ B). }
  { intros v Hin. apply (block_In (H * W) b) in Hin. now apply dsnt_x_In in Hin. }
  destruct (inner_product_in_range (1 - 1 / INR H) vals
              (block (H * W) b (data gy)))
    as [y [Ey Hy]]; try assumption.
  { rewrite Hlv. now apply (block_length _ B). }
  { intros v Hin. apply (block_In (H * W) b) in Hin. now apply (dsnt_y_In B H W gy). }
  eexists. exists x, y. split; [exact Ec |].
  rewrite E0, E1, Ex, Ey. auto.
Qed.

Lemma block_beyond {A : Type} (n k b : nat) (l : list A) :
  length l = (k * n)%nat -> (k <= b)%nat -> block n b l = [].
Proof.
  intros Hl Hb. unfold block. rewrite skipn_all2; [now rewrite firstn_nil |].
  rewrite Hl. now apply Nat.mul_le_mono_r.
Qed.

Lemma side_margin (n : nat) (x : R) :
  (0 < n)%nat -> INR n <= 2 ^ 24 ->
  - (1 - 1 / INR n) <= x <= 1 - 1 / INR n ->
  -1 < x < 1 /\ Rabs x <= 1 - / 2 ^ 24.
Proof.
  intros Hn H24 Hx.
  assert (H0 : 0 < INR n) by (apply lt_0_INR; lia).
  assert (Hinv : / 2 ^ 24 <= 1 / INR n).
  { unfold Rdiv. rewrite Rmult_1_l. apply Rinv_le_contravar; lra. }
  assert (0 < / 2 ^ 24) by lra.
  split; [lra |]. apply Rabs_le. lra.
Qed.

(** X7: in exact arithmetic (the cast of the coordinate matrices and
    the rounding of the products and sums set aside), whenever the
    rectification returns a heatmap of height and width from 1 to
    [2^24] and image [b] of it is a probability distribution (finite
    non-negative values that sum to 1), [dsnt] returns finite
    coordinates for that image; both lie strictly between -1 and 1, at
    least [2^-24] away from either end. *)
Theorem dsnt_coordinates_in_range (inputs : tensor R)
  (method : option string) (norm : tensor tfloat) (B H W b : nat)
  (vals : list R) :
  _normalise_heatmap inputs method = Ok norm ->
  shape norm = [B; H; W] ->
  (0 < H)%nat -> (0 < W)%nat -> INR H <= 2 ^ 24 -> INR W <= 2 ^ 24 ->
  plane norm b = map Fin vals ->
  (forall v, In v vals -> 0 <= v) -> rsum vals = 1 ->
  exists coords x y,
    dsnt inputs method = Ok (norm, coords) /\
    get2 coords b 0 = Fin x /\ get2 coords b 1 = Fin y /\
    -1 < x < 1 /\ -1 < y < 1 /\
    Rabs x <= 1 - / 2 ^ 24 /\ Rabs y <= 1 - / 2 ^ 24.
Proof.
  intros En Hs HH HW HH24 HW24 Hpl Hv Hsum.
  destruct (normalise_heatmap_ok_wf inputs method norm En)
    as [B' [H' [W' [Hs' Hl]]]].
  rewrite Hs in Hs'. injection Hs' as <- <- <-.
  assert (Hb : (b < B)%nat).
  { destruct (Nat.lt_ge_cases b B) as [Hlt | Hge]; [exact Hlt |].
    exfalso. unfold plane in Hpl. rewrite Hs in Hpl.
    rewrite (block_beyond (H * W) B b) in Hpl by assumption.
    destruct vals; [simpl in Hsum; lra | discriminate]. }
  destruct (coords_in_range norm B H W b vals Hs Hl Hb Hpl Hv Hsum)
    as [coords [x [y [Ec [Ex [Ey [Hx Hy]]]]]]].
  destruct (side_margin W x HW HW24 Hx) as [Hx1 Hx2].
  destruct (side_margin H y HH HH24 Hy) as [Hy1 Hy2].
  exists coords, x, y.
  split; [unfold dsnt; rewrite En; cbn [bind]; now rewrite Ec |].
  auto 8.
Qed.

Lemma dsnt_coordinates_in_range_witness :
  exists coords x y,
    dsnt (Tensor [2; 1; 2]%nat [0; 1; 1; 0]) (Some "abs"%string)
    = Ok (Tensor [2; 1; 2]%nat [Fin 0; Fin 1; Fin 1; Fin 0], coords) /\
    get2 coords 1 0 = Fin x /\ get2 coords 1 1 = Fin y /\
    -1 < x < 1 /\ -1 < y < 1 /\
    Rabs x <= 1 - / 2 ^ 24 /\ Rabs y <= 1 - / 2 ^ 24.
Proof.
  apply (dsnt_coordinates_in_range (Tensor [2; 1; 2]%nat [0; 1; 1; 0])
           (Some "abs"%string)
           (Tensor [2; 1; 2]%nat [Fin 0; Fin 1; Fin 1; Fin 0]) 2 1 2 1
           [1; 0]).
  - exact normalise_abs_one_hot.
  - reflexivity.
  - lia.
  - lia.
  - simpl. lra.
  - simpl. lra.
  - reflexivity.
  - intros v [<- | [<- | []]]; lra.
  - simpl. lra.
Defined.

(** X8: in exact arithmetic (the cast of the coordinate matrices and
    the rounding of the products and sums set aside), with the softmax
    rectification [dsnt] returns, for every batch size and every heatmap
    of height and width from 1 to [2^24], a [[batch, 2]] tensor of
    finite coordinates, each strictly between -1 and 1 and at least
    [2^-24] away from either end. *)
Theorem dsnt_softmax_coordinates_in_range (inputs : tensor R)
  (method : option string) (B H W : nat) :
  method = None \/ method = Some "softmax"%string ->
  firstn 3 (shape inputs) = [B; H; W] ->
  length (data inputs) = (B * (H * W))%nat ->
  (0 < H)%nat -> (0 < W)%nat -> INR H <= 2 ^ 24 -> INR W <= 2 ^ 24 ->
  exists norm coords,
    dsnt inputs method = Ok (norm, coords) /\
    shape coords = [B; 2%nat] /\
    forall b, (b < B)%nat ->
      exists x y,
        get2 coords b 0 = Fin x /\ get2 coords b 1 = Fin y /\
        -1 < x < 1 /\ -1 < y < 1 /\
        Rabs x <= 1 - / 2 ^ 24 /\ Rabs y <= 1 - / 2 ^ 24.
Proof.
  intros Hm Hs Hl HH HW HH24 HW24.
  destruct (softmax_heatmap_planes inputs B H W Hs Hl) as [En Hplane].
  set (norm := Tensor [B; H; W]
                 (concat (map softmax_plane
                            (chunks (H * W) B (data inputs))))) in *.
  assert (En' : _normalise_heatmap inputs method = Ok norm)
    by (destruct Hm as [-> | ->]; exact En).
  assert (Hln : length (data norm) = (B * (H * W))%nat).
  { unfold norm. cbn [data].
    apply planewise_length; [apply softmax_plane_length | exact Hl]. }
  destruct (dsnt_coords_ok norm B H W eq_refl) as [gy [_ Ec]].
  eexists norm, _.
  split; [unfold dsnt; rewrite En'; cbn [bind]; rewrite Ec; reflexivity |].
  split; [reflexivity |].
  intros b Hb.
  destruct (softmax_plane_distribution (block (H * W) b (data inputs)))
    as [vals [E1 [_ [E3 E4]]]].
  { apply (nonempty_block (H * W) B); [exact Hl | exact Hb | nia]. }
  destruct (coords_in_range norm B H W b vals eq_refl Hln Hb)
    as [coords [x [y [Ec' [Ex [Ey [Hx Hy]]]]]]]; try assumption.
  { rewrite (Hplane b Hb). exact E1. }
  rewrite Ec in Ec'. injection Ec' as <-.
  destruct (side_margin W x HW HW24 Hx) as [Hx1 Hx2].
  destruct (side_margin H y HH HH24 Hy) as [Hy1 Hy2].
  exists x, y. auto 8.
Qed.

Lemma dsnt_softmax_coordinates_in_range_witness :
  exists norm coords,
    dsnt (Tensor [3; 1; 2]%nat [0; 1; 2; 3; 4; 5]) None
    = Ok (norm, coords) /\
    shape coords = [3; 2]%nat /\
    forall b, (b < 3)%nat ->
      exists x y,
        get2 coords b 0 = Fin x /\ get2 coords b 1 = Fin y /\
        -1 < x < 1 /\ -1 < y < 1 /\
        Rabs x <= 1 - / 2 ^ 24 /\ Rabs y <= 1 - / 2 ^ 24.
Proof.
  apply (dsnt_softmax_coordinates_in_range
           (Tensor [3; 1; 2]%nat [0; 1; 2; 3; 4; 5]) None 3 1 2);
    [now left | reflexivity | reflexivity | lia | lia
    | simpl; lra | simpl; lra].
Defined.

(** * Further properties of the Gaussian targets *)

Lemma make_gaussian_entry (H W : nat) (x y : R) (fwhm : option R) (f : R)
  (i j : nat) :
  f = match fwhm with Some v => v | None => 1 end ->
  f <> 0 -> 0 < rsum (grid_list H W (gauss_value H W x y f)) ->
  (i < H)%nat -> (j < W)%nat ->
  exists out,
    _make_gaussian (H, W) (x, y) fwhm = Ok out /\
    forall i' j', (i' < H)%nat -> (j' < W)%nat ->
      get2 out i' j'
      = Fin (gauss_value H W x y f i' j'
             / rsum (grid_list H W (gauss_value H W x y f))).
Proof.
  intros Ef Hf Ht Hi Hj.
  pose proof (make_gaussian_values H W x y fwhm) as Ev.
  cbv zeta in Ev. rewrite <- Ef in Ev.
  specialize (Ev Hf Ht).
  eexists. split; [exact Ev |].
  intros i' j' Hi' Hj'. unfold get2. cbn [shape data].
  rewrite grid_list_map. now apply grid_list_nth.
Qed.

(** X9: [fwhm] is the full width at half maximum.  When a pixel centre
    sits exactly on the scaled centre, a pixel whose centre is at
    distance [fwhm / 2] from it holds exactly half of the value of the
    centre pixel. *)
Theorem make_gaussian_half_maximum (H W : nat) (x y : R) (fwhm : option R)
  (f : R) (i0 j0 i j : nat) :
  f = match fwhm with Some v => v | None => 1 end ->
  f <> 0 ->
  (i0 < H)%nat -> (j0 < W)%nat -> (i < H)%nat -> (j < W)%nat ->
  INR j0 + 1 / 2 = x * INR W -> INR i0 + 1 / 2 = y * INR H ->
  (INR j - x * INR W + 1 / 2) ^ 2 + (INR i - y * INR H + 1 / 2) ^ 2
  = (f / 2) ^ 2 ->
  exists out v,
    _make_gaussian (H, W) (x, y) fwhm = Ok out /\
    0 < v /\ get2 out i0 j0 = Fin v /\ get2 out i j = Fin (v / 2).
Proof.
  intros Ef Hf Hi0 Hj0 Hi Hj Hcx Hcy Hd.
  assert (G0 : gauss_value H W x y f i0 j0 = 1).
  { unfold gauss_value.
    replace (INR j0 - x * INR W + 1 / 2) with 0 by lra.
    replace (INR i0 - y * INR H + 1 / 2) with 0 by lra.
    replace (- 4 * ln 2 * (0 ^ 2 + 0 ^ 2) / f ^ 2) with 0
      by (field; exact Hf).
    apply exp32_0. }
  assert (G1 : gauss_value H W x y f i j = 1 / 2).
  { unfold gauss_value. rewrite Hd.
    replace (- 4 * ln 2 * (f / 2) ^ 2 / f ^ 2) with (- ln 2)
      by (field; exact Hf).
    rewrite exp32_normal by (pose proof ln2_pos; lra).
    rewrite exp_Ropp, exp_ln by lra. lra. }
  assert (Ht : 0 < rsum (grid_list H W (gauss_value H W x y f))).
  { pose proof (gauss_total_ge H W x y f i0 j0 Hi0 Hj0) as Hge.
    rewrite G0 in Hge. lra. }
  destruct (make_gaussian_entry H W x y fwhm f i j Ef Hf Ht Hi Hj)
    as [out [Eo Hget]].
  set (total := rsum (grid_list H W (gauss_value H W x y f))) in *.
  exists out, (1 / total).
  split; [exact Eo |].
  split; [apply Rdiv_lt_0_compat; lra |].
  split.
  - rewrite Hget by assumption. now rewrite G0.
  - rewrite Hget by assumption. rewrite G1. f_equal. field. lra.
Qed.

Lemma make_gaussian_half_maximum_witness :
  exists out v,
    _make_gaussian (1%nat, 3%nat) (1 / 2, 1 / 2) (Some 2) = Ok out /\
    0 < v /\ get2 out 0 1 = Fin v /\ get2 out 0 2 = Fin (v / 2).
Proof.
  apply (make_gaussian_half_maximum 1 3 (1 / 2) (1 / 2) (Some 2) 2 0 1 0 2);
    try reflexivity; try lia; simpl; lra.
Defined.

Lemma zero_fwhm_entry (a : R) :
  a <= 0 ->
  texp (tdiv (Fin a) (Fin (0 ^ 2))) = Fin 0
  \/ texp (tdiv (Fin a) (Fin (0 ^ 2))) = NaN.
Proof.
  intros Ha. replace (0 ^ 2) with 0 by ring. cbn [tdiv].
  rewrite sign_case_zero. destruct Ha as [Hlt | ->].
  - left. now rewrite sign_case_neg.
  - right. now rewrite sign_case_zero.
Qed.

Lemma tsum_zero_or_nan (l : list tfloat) :
  (forall v, In v l -> v = Fin 0 \/ v = NaN) -> tsum l = Fin 0 \/ tsum l = NaN.
Proof.
  induction l as [| a l IH]; intros H; [now left |].
  rewrite tsum_cons.
  destruct (H a (or_introl eq_refl)) as [-> | ->]; [| now right].
  rewrite tadd_0_l. apply IH. intros v Hv. apply H. now right.
Qed.

(** X10: a zero [fwhm] raises nothing: the exponent is divided by 0, and
    after the division by the total every entry of the returned
    [H]-by-[W] array is a NaN, wherever the centre is. *)
Theorem make_gaussian_zero_fwhm (H W : nat) (x y : R) :
  _make_gaussian (H, W) (x, y) (Some 0)
  = Ok (Tensor [H; W] (repeat NaN (H * W))).
Proof.
  unfold _make_gaussian. cbn [fst snd].
  rewrite crop2_square by lia. cbn [bind]. unfold tf_map. cbn [shape data].
  set (l := grid_list H W _).
  assert (Hl : forall v, In v l -> v = Fin 0 \/ v = NaN).
  { intros v Hv. apply grid_list_In in Hv as [i [j [_ [_ ->]]]].
    apply zero_fwhm_entry.
    assert (Hln : 0 < ln 2) by (pose proof ln_lt_2; lra).
    assert (0 <= (INR j - (x * INR W - 1 / 2)) ^ 2) by apply pow2_ge_0.
    assert (0 <= (INR i - (y * INR H - 1 / 2)) ^ 2) by apply pow2_ge_0.
    nra. }
  do 2 f_equal.
  etransitivity; [apply (all_eq_repeat NaN) |].
  - intros v Hv. apply in_map_iff in Hv as [u [<- Hu]].
    destruct (tsum_zero_or_nan l Hl) as [-> | ->];
      destruct (Hl u Hu) as [-> | ->]; try reflexivity.
    apply tdiv_zero_zero.
  - rewrite length_map. unfold l. now rewrite grid_list_length.
Qed.

(** * Further properties of the regularisation loss *)

(** X11: on an empty batch (no centre and no heatmap) the loop of
    [_make_gaussians] never runs, the divergences are an empty vector and
    their mean is [0 / 0]: [js_reg_loss] returns a NaN, with any fuel. *)
Theorem js_reg_loss_empty_batch (fuel : nat) (heatmaps : tensor tfloat)
  (centres : tensor R) (H W : nat) (fwhm : option R) :
  shape centres = [0%nat; 2%nat] -> shape heatmaps = [0%nat; H; W] ->
  (0 < H)%nat -> (0 < W)%nat ->
  _make_gaussians fuel centres H W fwhm = Some (Ok (Tensor [0%nat; H; W] []))
  /\ js_reg_loss fuel heatmaps centres fwhm = Some (Ok NaN).
Proof.
  intros Hc Hh HH HW.
  assert (Eg : forall fw, _make_gaussians fuel centres H W fw
                          = Some (Ok (Tensor [0%nat; H; W] []))).
  { intros fw.
    now rewrite (make_gaussians_ok fuel centres 0 H W fw Hc HH HW)
      by lia. }
  split; [apply Eg |].
  unfold js_reg_loss, dim. rewrite Hh. cbn [nth_error]. rewrite Eg.
  rewrite (js_2d_planes heatmaps _ 0 H W None Hh) by reflexivity.
  cbn [bind seq map]. unfold reduce_mean. cbn [data tsum fold_right length].
  change (INR 0) with 0. now rewrite tdiv_zero_zero.
Qed.

Lemma js_reg_loss_empty_batch_witness :
  _make_gaussians 0 (Tensor [0; 2]%nat []) 4 4 None
  = Some (Ok (Tensor [0; 4; 4]%nat []))
  /\ js_reg_loss 0 (Tensor [0; 4; 4]%nat []) (Tensor [0; 2]%nat []) None
     = Some (Ok NaN).
Proof.
  apply (js_reg_loss_empty_batch 0 (Tensor [0; 4; 4]%nat [])
           (Tensor [0; 2]%nat []) 4 4 None); try reflexivity; lia.
Defined.

Lemma gaussian_data_distribution (H W : nat) (f : R) (row : list R) :
  1 / 4 <= f -> 0 <= nth 0 row 0 <= 1 -> 0 <= nth 1 row 0 <= 1 ->
  (0 < H)%nat -> (0 < W)%nat ->
  exists qs,
    gaussian_data H W f row = map Fin qs /\ length qs = (H * W)%nat /\
    (forall v, In v qs -> 0 <= v) /\ rsum qs = 1.
Proof.
  intros Hf Hx Hy HH HW. unfold gaussian_data.
  pose proof (gauss_total_pos H W _ _ f Hf Hx Hy HH HW) as Ht.
  pose proof (make_gaussian_values H W (nth 0 row 0) (nth 1 row 0) (Some f))
    as Ev.
  cbv zeta in Ev. rewrite (Ev ltac:(lra) Ht). cbn [data].
  set (g := gauss_value H W (nth 0 row 0) (nth 1 row 0) f) in *.
  set (total := rsum (grid_list H W g)) in *.
  eexists. split; [reflexivity |].
  split; [apply grid_list_length |]. split.
  - intros v Hv. apply grid_list_In in Hv as [i [j [_ [_ ->]]]].
    apply Rmult_le_pos; [apply gauss_value_nonneg |].
    now apply Rlt_le, Rinv_0_lt_compat.
  - replace (grid_list H W (fun i j => g i j / total))
      with (map (fun v => v / total) (grid_list H W g))
      by apply grid_list_map.
    rewrite (rsum_map_div (fun v => v)), map_id. fold total. field. lra.
Qed.

Lemma rsum_between (c : R) (l : list R) :
  (forall v, In v l -> 0 <= v <= c) ->
  0 <= rsum l <= INR (length l) * c.
Proof.
  induction l as [| a l IH]; intros H.
  - simpl. lra.
  - cbn [rsum fold_right length]. rewrite S_INR.
    assert (0 <= a <= c) by (apply H; now left).
    assert (0 <= rsum l <= INR (length l) * c)
      by (apply IH; intros; apply H; now right).
    unfold rsum in *. lra.
Qed.

(** X12: in exact arithmetic, for a batch of at least one heatmap whose
    images are probability distributions (finite non-negative values
    that sum to 1), as many centres, each in the unit square, an [fwhm]
    of at least 1/4 (1 by default) and enough fuel for the loop,
    [js_reg_loss] returns a finite number between 0 and [ln 2]. *)
Theorem js_reg_loss_between_0_and_ln2 (fuel : nat)
  (heatmaps : tensor tfloat) (centres : tensor R) (B H W : nat)
  (fwhm : option R) (f : R) :
  f = match fwhm with Some v => v | None => 1 end -> 1 / 4 <= f ->
  shape centres = [B; 2%nat] -> shape heatmaps = [B; H; W] ->
  (forall k, (k < 2 * B)%nat -> 0 <= nth k (data centres) 0 <= 1) ->
  (0 < B)%nat -> (0 < H)%nat -> (0 < W)%nat -> (B <= fuel)%nat ->
  (forall b, (b < B)%nat ->
     exists ps,
       plane heatmaps b = map Fin ps /\ length ps = (H * W)%nat /\
       (forall v, In v ps -> 0 <= v) /\ rsum ps = 1) ->
  exists v,
    js_reg_loss fuel heatmaps centres fwhm = Some (Ok (Fin v)) /\
    0 <= v <= ln 2.
Proof.
  intros Ef Hf Hc Hh Hcen HB HH HW Hfuel Hdist.
  destruct (round32_eps None) as [e [Er Heps]]; [discriminate |].
  cbv iota in Er.
  set (eps := 1 / 10 ^ 24) in *.
  set (gd := concat (map (gaussian_data H W f)
                         (chunks 2 B (data centres)))).
  set (divs := map (fun b => js_plane (block (H * W) b (data heatmaps))
                                      (block (H * W) b gd) eps) (seq 0 B)).
  assert (El : js_reg_loss fuel heatmaps centres fwhm
               = Some (Ok (tdiv (tsum divs) (Fin (INR B))))).
  { unfold js_reg_loss, dim. rewrite Hh. cbn [nth_error].
    rewrite (make_gaussians_ok fuel centres B H W (Some _)) by assumption.
    rewrite <- Ef. fold gd.
    rewrite (js_2d_planes heatmaps (Tensor [B; H; W] gd) B H W None Hh)
      by reflexivity.
    cbn [bind]. unfold reduce_mean. cbn [data]. fold eps. fold divs.
    unfold divs at 2. now rewrite length_map, length_seq. }
  assert (Hd : forall d, In d divs -> exists v, d = Fin v /\ 0 <= v <= ln 2).
  { intros d Hin. unfold divs in Hin.
    apply in_map_iff in Hin as [b [<- Hb]]. apply in_seq in Hb.
    assert (Hb' : (b < B)%nat) by lia.
    destruct (Hdist b Hb') as [ps [Ep [Lp [Np Sp]]]].
    unfold plane in Ep. rewrite Hh in Ep. rewrite Ep.
    unfold gd. rewrite gaussians_plane by exact Hb'.
    destruct (gaussian_data_distribution H W f
                [nth (2 * b) (data centres) 0;
                 nth (2 * b + 1) (data centres) 0] Hf)
      as [qs [-> [Lq [Nq Sq]]]];
      [cbn [nth]; apply Hcen; lia | cbn [nth]; apply Hcen; lia
      | exact HH | exact HW |].
    rewrite (js_plane_fin eps e) by assumption.
    eexists. split; [reflexivity |].
    pose proof (js_real_bounds e ps Heps qs ltac:(lia) Np Nq) as Hb2.
    rewrite Sp, Sq in Hb2. lra. }
  destruct (fin_list (fun v => 0 <= v <= ln 2) divs Hd) as [vs [Evs Hvs]].
  assert (Lvs : length vs = B).
  { rewrite <- (length_map Fin), <- Evs. unfold divs.
    now rewrite length_map, length_seq. }
  assert (HBR : 0 < INR B) by (apply lt_0_INR; lia).
  exists (rsum vs / INR B).
  split.
  - rewrite El, Evs, tsum_map_Fin, tdiv_fin by lra. reflexivity.
  - pose proof (rsum_between (ln 2) vs Hvs) as Hr. rewrite Lvs in Hr.
    split.
    + apply Rmult_le_pos; [lra | apply Rlt_le, Rinv_0_lt_compat, HBR].
    + apply Rmult_le_reg_r with (INR B); [exact HBR |].
      unfold Rdiv. rewrite Rmult_assoc, Rinv_l by lra. lra.
Qed.

Lemma js_reg_loss_between_0_and_ln2_witness :
  exists v,
    js_reg_loss 1 (Tensor [1; 1; 2]%nat [Fin (1 / 4); Fin (3 / 4)])
      (Tensor [1; 2]%nat [1 / 2; 1 / 2]) None
    = Some (Ok (Fin v)) /\
    0 <= v <= ln 2.
Proof.
  apply (js_reg_loss_between_0_and_ln2 1
           (Tensor [1; 1; 2]%nat [Fin (1 / 4); Fin (3 / 4)])
           (Tensor [1; 2]%nat [1 / 2; 1 / 2]) 1 1 2 None 1);
    try reflexivity; try lia; try lra.
  - intros k Hk. assert (Ek : k = 0%nat \/ k = 1%nat) by lia.
    destruct Ek as [-> | ->]; cbn [data nth]; lra.
  - intros b Hb. assert (b = 0%nat) as -> by lia.
    exists [1 / 4; 3 / 4].
    repeat split; try reflexivity; simpl; try lra.
    intros v Hv; repeat (destruct Hv as [<- | Hv]; [lra |]); destruct Hv.
Defined.

(** * Further properties: images are rectified one by one *)

Lemma normalise_rect_planes (r : R -> R) (l : list R) (H W : nat) :
  length l = (2 * (H * W))%nat ->
  exists out,
    normalise (tf_map r (Tensor [2%nat; H; W] l)) = Ok out /\
    shape out = [2%nat; H; W] /\
    forall b, (b < 2)%nat ->
      plane out b = normalise_plane (map r (block (H * W) b l)).
Proof.
  intros Hl. eexists.
  split; [now rewrite (normalise_planewise _ H W) |].
  split; [reflexivity |].
  intros b Hb. unfold plane. cbn [shape data tf_map].
  rewrite block_planewise;
    [| apply normalise_plane_length | rewrite length_map; lia | exact Hb].
  now rewrite block_map.
Qed.

(** X13: every supported method rectifies the images of a batch one by
    one: two batches of one shape that agree on image [b] get the same
    image [b] in the returned heatmap, whatever their other images
    hold. *)
Theorem rectification_per_image (inputs1 inputs2 : tensor R)
  (method : string) (B H W b : nat) :
  firstn 3 (shape inputs1) = [B; H; W] ->
  firstn 3 (shape inputs2) = [B; H; W] ->
  length (data inputs1) = (B * (H * W))%nat ->
  length (data inputs2) = (B * (H * W))%nat ->
  (b < B)%nat ->
  method = "softmax"%string \/
  (B = 2%nat /\ (method = "abs"%string \/ method = "relu"%string
                 \/ method = "sigmoid"%string)) ->
  block (H * W) b (data inputs1) = block (H * W) b (data inputs2) ->
  exists out1 out2,
    _normalise_heatmap inputs1 (Some method) = Ok out1 /\
    _normalise_heatmap inputs2 (Some method) = Ok out2 /\
    plane out1 b = plane out2 b.
Proof.
  intros Hs1 Hs2 Hl1 Hl2 Hb Hm Heq.
  destruct Hm as [-> | [-> Hm]].
  - destruct (softmax_heatmap_planes inputs1 B H W Hs1 Hl1) as [E1 P1].
    destruct (softmax_heatmap_planes inputs2 B H W Hs2 Hl2) as [E2 P2].
    eexists. eexists. split; [exact E1 |]. split; [exact E2 |].
    now rewrite (P1 b Hb), (P2 b Hb), Heq.
  - unfold _normalise_heatmap.
    rewrite (reshape_first3 inputs1 2 H W Hs1 Hl1).
    rewrite (reshape_first3 inputs2 2 H W Hs2 Hl2). cbn [bind].
    destruct Hm as [-> | [-> | ->]];
      repeat match goal with
             | |- context [String.eqb ?a ?b] =>
                 let v := eval vm_compute in (String.eqb a b) in
                 change (String.eqb a b) with v
             end;
      cbv iota;
      match goal with
      | |- context [normalise (tf_map ?r _)] =>
          destruct (normalise_rect_planes r (data inputs1) H W Hl1)
            as [o1 [E1 [_ P1]]];
          destruct (normalise_rect_planes r (data inputs2) H W Hl2)
            as [o2 [E2 [_ P2]]]
      end;
      exists o1, o2; (split; [exact E1 |]); (split; [exact E2 |]);
      now rewrite (P1 b Hb), (P2 b Hb), Heq.
Qed.

Lemma rectification_per_image_witness :
  exists out1 out2,
    _normalise_heatmap (Tensor [2; 1; 2]%nat [1; 2; 3; 4])
      (Some "sigmoid"%string) = Ok out1 /\
    _normalise_heatmap (Tensor [2; 1; 2]%nat [1; 2; 5; 6])
      (Some "sigmoid"%string) = Ok out2 /\
    plane out1 0 = plane out2 0.
Proof.
  apply (rectification_per_image (Tensor [2; 1; 2]%nat [1; 2; 3; 4])
           (Tensor [2; 1; 2]%nat [1; 2; 5; 6]) "sigmoid" 2 1 2 0);
    try reflexivity; [lia |].
  right. split; [reflexivity |]. right. now right.
Defined.

(** * Further properties: rescaling the heatmap *)

Lemma sign_case_scale {A : Type} (c r : R) (a b d : A) :
  0 < c -> sign_case (c * r) a b d = sign_case r a b d.
Proof.
  intros Hc. destruct (Rtotal_order r 0) as [Hlt | [-> | Hgt]].
  - rewrite !sign_case_neg by nra. reflexivity.
  - replace (c * 0) with 0 by ring. reflexivity.
  - rewrite !sign_case_pos by nra. reflexivity.
Qed.

Lemma tdiv_scale (c a s : R) :
  0 < c -> tdiv (Fin (c * a)) (Fin (c * s)) = tdiv (Fin a) (Fin s).
Proof.
  intros Hc. cbn [tdiv]. rewrite !sign_case_scale by exact Hc.
  destruct (Rtotal_order s 0) as [Hlt | [-> | Hgt]].
  - rewrite !sign_case_neg by exact Hlt. f_equal. field. lra.
  - now rewrite !sign_case_zero.
  - rewrite !sign_case_pos by exact Hgt. f_equal. field. lra.
Qed.

Lemma rsum_scale (c : R) (l : list R) :
  rsum (map (fun x => c * x) l) = c * rsum l.
Proof.
  induction l as [| a l IH]; [simpl; ring |].
  cbn [map rsum fold_right]. fold (rsum (map (fun x => c * x) l)).
  fold (rsum l). rewrite IH. ring.
Qed.

Lemma normalise_plane_scale (r : R -> R) (c : R) (pl : list R) :
  0 < c -> (forall x, r (c * x) = c * r x) ->
  normalise_plane (map r (map (fun x => c * x) pl))
  = normalise_plane (map r pl).
Proof.
  intros Hc Hr. unfold normalise_plane.
  assert (E : map r (map (fun x => c * x) pl)
              = map (fun x => c * x) (map r pl)).
  { rewrite !map_map. apply map_ext. intros x. apply Hr. }
  rewrite E, rsum_scale, map_map. apply map_ext. intros x.
  now apply tdiv_scale.
Qed.

(** X14: the abs and relu rectifications do not see a positive factor
    applied to every value of the heatmap: values and per-image sums
    scale together, and an image of sum 0 keeps its NaNs. *)
Theorem divide_by_sum_scale_invariant (inputs : tensor R) (method : string)
  (c : R) (H W : nat) :
  0 < c ->
  firstn 3 (shape inputs) = [2%nat; H; W] ->
  length (data inputs) = (2 * (H * W))%nat ->
  method = "abs"%string \/ method = "relu"%string ->
  _normalise_heatmap
    (Tensor (shape inputs) (map (fun x => c * x) (data inputs)))
    (Some method)
  = _normalise_heatmap inputs (Some method) /\
  exists out, _normalise_heatmap inputs (Some method) = Ok out.
Proof.
  intros Hc Hs Hl Hm.
  assert (Hl' : length (map (fun x => c * x) (data inputs))
                = (2 * (H * W))%nat) by now rewrite length_map.
  unfold _normalise_heatmap.
  rewrite (reshape_first3 inputs 2 H W Hs Hl).
  rewrite (reshape_first3
             (Tensor (shape inputs) (map (fun x => c * x) (data inputs)))
             2 H W Hs Hl').
  cbn [bind data].
  assert (Hgen : forall r : R -> R,
             (forall x, r (c * x) = c * r x) ->
             normalise (tf_map r (Tensor [2%nat; H; W]
                                    (map (fun x => c * x) (data inputs))))
             = normalise (tf_map r (Tensor [2%nat; H; W] (data inputs)))
             /\ exists out,
                  normalise (tf_map r (Tensor [2%nat; H; W] (data inputs)))
                  = Ok out).
  { intros r Hr.
    rewrite !(normalise_planewise _ H W) by reflexivity.
    split; [| eexists; reflexivity].
    unfold tf_map. cbn [data]. do 3 f_equal.
    rewrite !chunks_map, !map_map. apply map_ext. intros pl.
    now apply normalise_plane_scale. }
  destruct Hm as [-> | ->];
    repeat match goal with
           | |- context [String.eqb ?a ?b] =>
               let v := eval vm_compute in (String.eqb a b) in
               change (String.eqb a b) with v
           end;
    cbv iota; apply Hgen.
  - intros x. rewrite Rabs_mult, (Rabs_right c) by lra. reflexivity.
  - intros x. unfold relu. unfold Rmax.
    destruct (Rle_dec (c * x) 0), (Rle_dec x 0); nra.
Qed.

Lemma divide_by_sum_scale_invariant_witness :
  _normalise_heatmap
    (Tensor (shape (Tensor [2; 1; 2]%nat [1; -2; 0; 0]))
       (map (fun x => 3 * x) (data (Tensor [2; 1; 2]%nat [1; -2; 0; 0]))))
    (Some "relu"%string)
  = _normalise_heatmap (Tensor [2; 1; 2]%nat [1; -2; 0; 0])
      (Some "relu"%string) /\
  exists out,
    _normalise_heatmap (Tensor [2; 1; 2]%nat [1; -2; 0; 0])
      (Some "relu"%string) = Ok out.
Proof.
  apply (divide_by_sum_scale_invariant
           (Tensor [2; 1; 2]%nat [1; -2; 0; 0]) "relu" 3 1 2);
    [lra | reflexivity | reflexivity | now right].
Defined.

(** * Further properties: the centred Gaussian *)

(** X15: a Gaussian drawn at the centre [(1/2, 1/2)] of the frame with
    an [fwhm] of at least 1/4 is mirror-symmetric: every entry is a
    finite non-negative number and equals its mirror image across the
    vertical axis and across the horizontal axis of the image. *)
Theorem make_gaussian_centred_symmetric (H W : nat) (fwhm : option R)
  (f : R) (i j : nat) :
  f = match fwhm with Some v => v | None => 1 end -> 1 / 4 <= f ->
  (i < H)%nat -> (j < W)%nat ->
  exists out v,
    _make_gaussian (H, W) (1 / 2, 1 / 2) fwhm = Ok out /\
    get2 out i j = Fin v /\ 0 <= v /\
    get2 out i (W - 1 - j) = Fin v /\
    get2 out (H - 1 - i) j = Fin v.
Proof.
  intros Ef Hf Hi Hj.
  assert (Ht : 0 < rsum (grid_list H W (gauss_value H W (1 / 2) (1 / 2) f)))
    by (apply gauss_total_pos; try lia; lra).
  destruct (make_gaussian_entry H W (1 / 2) (1 / 2) fwhm f i j Ef
              ltac:(lra) Ht Hi Hj) as [out [Eo Hget]].
  set (total := rsum (grid_list H W (gauss_value H W (1 / 2) (1 / 2) f)))
    in *.
  exists out, (gauss_value H W (1 / 2) (1 / 2) f i j / total).
  split; [exact Eo |]. split; [now apply Hget |].
  split.
  { apply Rmult_le_pos; [apply gauss_value_nonneg |].
    now apply Rlt_le, Rinv_0_lt_compat. }
  assert (Ej : INR (W - 1 - j) = INR W - 1 - INR j).
  { rewrite !minus_INR by lia. simpl. lra. }
  assert (Ei : INR (H - 1 - i) = INR H - 1 - INR i).
  { rewrite !minus_INR by lia. simpl. lra. }
  split.
  - rewrite Hget by lia. do 2 f_equal. unfold gauss_value.
    rewrite Ej. do 3 f_equal. field.
  - rewrite Hget by lia. do 2 f_equal. unfold gauss_value.
    rewrite Ei. do 3 f_equal. field.
Qed.

Lemma make_gaussian_centred_symmetric_witness :
  exists out v,
    _make_gaussian (5%nat, 5%nat) (1 / 2, 1 / 2) (Some 2) = Ok out /\
    get2 out 1 0 = Fin v /\ 0 <= v /\
    get2 out 1 (5 - 1 - 0) = Fin v /\
    get2 out (5 - 1 - 1) 0 = Fin v.
Proof.
  apply (make_gaussian_centred_symmetric 5 5 (Some 2) 2 1 0);
    try reflexivity; try lia; lra.
Defined.

(** * Further properties: the sigmoid of a very negative image *)

Lemma sigmoid_underflow (x : R) : x <= -126 -> sigmoid x = 0.
Proof.
  intros Hx. unfold sigmoid. apply flush_small.
  pose proof (exp_pos (- x)) as Hp.
  rewrite Rabs_pos_eq by (apply Rlt_le, Rdiv_lt_0_compat; lra).
  assert (Hbig : 2 ^ 126 < exp (- x)).
  { rewrite <- (exp_pow2 126).
    apply exp_increasing. pose proof ln2_lt_1.
    replace (INR 126) with 126
      by (rewrite INR_IZR_INZ; reflexivity).
    nra. }
  unfold float32_min, Rdiv. rewrite Rmult_1_l.
  apply Rinv_lt_contravar; [| lra].
  apply Rmult_lt_0_compat; lra.
Qed.

(** X17: under method sigmoid, in a batch of two, an image all of whose
    values are at most -126 holds only sigmoids below the smallest
    normal [float32], which come out as 0: the sum of the image is 0, no
    error is raised, and every value of that image in the returned
    heatmap is a NaN. *)
Theorem sigmoid_underflow_plane_is_nan (inputs : tensor R) (H W b : nat) :
  firstn 3 (shape inputs) = [2%nat; H; W] ->
  length (data inputs) = (2 * (H * W))%nat ->
  (b < 2)%nat ->
  (forall x, In x (block (H * W) b (data inputs)) -> x <= -126) ->
  exists out,
    _normalise_heatmap inputs (Some "sigmoid"%string) = Ok out /\
    shape out = [2%nat; H; W] /\
    plane out b = repeat NaN (H * W).
Proof.
  intros Hs Hl Hb Hz. unfold _normalise_heatmap.
  rewrite (reshape_first3 inputs 2 H W Hs Hl). cbn [bind].
  change (exists out,
            normalise (tf_map sigmoid (Tensor [2%nat; H; W] (data inputs)))
            = Ok out /\ shape out = [2%nat; H; W] /\
            plane out b = repeat NaN (H * W)).
  apply normalise_zero_plane; try assumption.
  intros x Hx. apply sigmoid_underflow. now apply Hz.
Qed.

Lemma sigmoid_underflow_plane_is_nan_witness :
  exists out,
    _normalise_heatmap (Tensor [2; 1; 1]%nat [-128; -128])
      (Some "sigmoid"%string) = Ok out /\
    shape out = [2; 1; 1]%nat /\
    plane out 0 = repeat NaN (1 * 1).
Proof.
  apply (sigmoid_underflow_plane_is_nan (Tensor [2; 1; 1]%nat [-128; -128])
           1 1 0); try reflexivity; [lia |].
  cbn. intros x [<- | []]. lra.
Defined.

(** * Further properties: a flat heatmap *)

Lemma rsum_cons (a : R) (l : list R) : rsum (a :: l) = a + rsum l.
Proof. reflexivity. Qed.

Lemma rsum_app (l1 l2 : list R) : rsum (l1 ++ l2) = rsum l1 + rsum l2.
Proof.
  induction l1 as [| a l1 IH]; cbn [app].
  - change (rsum []) with 0. lra.
  - rewrite !rsum_cons, IH. lra.
Qed.

Lemma grid_numerators_sum (n k : nat) :
  rsum (map (fun i => 2 * INR (S i) - (INR n + 1)) (seq 0 k))
  = INR k * (INR k + 1) - INR k * (INR n + 1).
Proof.
  induction k as [| k IH]; [simpl; lra |].
  rewrite seq_S, map_app, rsum_app, IH. cbn [map Nat.add].
  rewrite rsum_cons. change (rsum []) with 0. rewrite !S_INR. ring.
Qed.

Lemma grid_value_sum (n : nat) :
  (0 < n)%nat -> rsum (map (fun i => grid_value n (S i)) (seq 0 n)) = 0.
Proof.
  intros Hn. unfold grid_value.
  replace (map (fun i => (2 * INR (S i) - (INR n + 1)) / INR n) (seq 0 n))
    with (map (fun v => v / INR n)
              (map (fun i => 2 * INR (S i) - (INR n + 1)) (seq 0 n)))
    by now rewrite map_map.
  rewrite (rsum_map_div (fun v => v)), map_id, grid_numerators_sum.
  field. apply not_0_INR. lia.
Qed.

Lemma grid_row_fin (n : nat) :
  grid_row n = map Fin (map (fun i => grid_value n (S i)) (seq 0 n)).
Proof.
  apply (nth_ext _ _ NaN NaN).
  - now rewrite grid_row_length, !length_map, length_seq.
  - intros i Hi. rewrite grid_row_length in Hi.
    rewrite grid_row_nth by exact Hi. rewrite map_map.
    rewrite (map_nth_in _ _ _ 0%nat) by now rewrite length_seq.
    now rewrite seq_nth.
Qed.

Lemma rsum_concat_repeat (r : list R) (k : nat) :
  rsum (concat (repeat r k)) = INR k * rsum r.
Proof.
  induction k as [| k IH]; [simpl; lra |].
  cbn [repeat concat]. rewrite rsum_app, IH, S_INR. ring.
Qed.

Lemma dsnt_x_plane (B H W b : nat) :
  (b < B)%nat ->
  block (H * W) b (data (dsnt_x B H W))
  = map Fin (concat (repeat (map (fun i => grid_value W (S i)) (seq 0 W)) H)).
Proof.
  intros Hb. unfold dsnt_x, tile_row. cbn [data].
  rewrite <- chunks_nth with (k := B) by exact Hb.
  pose proof (chunks_concat_repeat (grid_row W) H B) as E.
  rewrite grid_row_length in E. rewrite E.
  rewrite (nth_repeat_in _ [] B b) by exact Hb.
  now rewrite grid_row_fin, concat_map, map_repeat.
Qed.

Lemma dsnt_y_plane (B H W b : nat) (gy : tensor tfloat) :
  dsnt_y B H W = Ok gy -> (b < B)%nat ->
  block (H * W) b (data gy)
  = map Fin (flat_map (fun j => map (fun _ => grid_value H (S j)) (seq 0 W))
                      (seq 0 H)).
Proof.
  rewrite dsnt_y_ok. intros [= <-] Hb. cbn [data].
  rewrite block_concat.
  - rewrite (nth_repeat_in _ [] B b) by exact Hb.
    unfold transpose_plane. rewrite !flat_map_concat_map, concat_map, map_map.
    f_equal. apply map_ext_in. intros j Hj. apply in_seq in Hj.
    rewrite map_map. apply map_ext_in. intros i Hi. apply in_seq in Hi.
    pose proof (nth_concat_repeat (grid_row H) W i j NaN) as E.
    rewrite grid_row_length in E. rewrite E by lia.
    apply grid_row_nth. lia.
  - intros c Hc. apply repeat_spec in Hc as ->.
    apply transpose_plane_length.
  - now rewrite repeat_length.
Qed.

Lemma rsum_flat_map_const (g : nat -> R) (H W : nat) :
  rsum (flat_map (fun j => map (fun _ => g j) (seq 0 W)) (seq 0 H))
  = INR W * rsum (map g (seq 0 H)).
Proof.
  assert (E : forall (k : nat) (c : R) (s : nat),
             rsum (map (fun _ => c) (seq s k)) = INR k * c).
  { induction k as [| k IHk]; intros c s; [simpl; lra |].
    cbn [seq map]. rewrite rsum_cons, IHk, S_INR. ring. }
  induction (seq 0 H) as [| j l IH]; [simpl; lra |].
  cbn [flat_map map]. rewrite rsum_app, IH, rsum_cons, E. ring.
Qed.

Lemma uniform_inner_product (u : R) (gs : list R) :
  tsum (map2 tmul (map Fin (repeat u (length gs))) (map Fin gs))
  = Fin (u * rsum gs).
Proof.
  rewrite tsum_map2_tmul_Fin. f_equal. unfold map2.
  induction gs as [| g gs IH]; [simpl; ring |].
  cbn [length repeat combine map fst snd].
  rewrite !rsum_cons, IH. ring.
Qed.

Lemma coords_as_inner_products (norm : tensor tfloat) (B H W b : nat) :
  shape norm = [B; H; W] -> (b < B)%nat ->
  exists gy coords,
    dsnt_y B H W = Ok gy /\ dsnt_coords norm = Ok coords /\
    shape coords = [B; 2%nat] /\
    get2 coords b 0
    = tsum (map2 tmul (block (H * W) b (data norm))
                 (block (H * W) b (data (dsnt_x B H W)))) /\
    get2 coords b 1
    = tsum (map2 tmul (block (H * W) b (data norm))
                 (block (H * W) b (data gy))).
Proof.
  intros Hs Hb.
  destruct (dsnt_coords_ok norm B H W Hs) as [gy [Egy Ec]].
  match type of Ec with
  | _ = Ok (Tensor _ (concat (map2 _ ?ox ?oy))) =>
      destruct (stacked_entries ox oy B b) as [E0 E1];
        [now rewrite length_map, chunks_length
        | now rewrite length_map, chunks_length
        | exact Hb |]
  end.
  cbv zeta in E0, E1.
  rewrite (map_nth_in tsum _ _ []) in E0 by now rewrite chunks_length.
  rewrite (map_nth_in tsum _ _ []) in E1 by now rewrite chunks_length.
  rewrite chunks_nth in E0 by exact Hb.
  rewrite chunks_nth in E1 by exact Hb.
  rewrite block_map2 in E0, E1.
  exists gy. eexists. split; [exact Egy |]. split; [exact Ec |].
  split; [reflexivity |]. split; [exact E0 | exact E1].
Qed.

Lemma fold_left_Rmax_const (l : list R) (a : R) :
  (forall x, In x l -> x = a) -> fold_left Rmax l a = a.
Proof.
  induction l as [| b l IH]; intros H; [reflexivity |].
  cbn [fold_left]. rewrite (H b) by now left.
  replace (Rmax a a) with a by (unfold Rmax; destruct (Rle_dec a a); lra).
  apply IH. intros x Hx. apply H. now right.
Qed.

Lemma rsum_ones {A : Type} (l : list A) :
  rsum (map (fun _ => 1) l) = INR (length l).
Proof.
  induction l as [| a l IH]; [reflexivity |].
  cbn [map length]. rewrite rsum_cons, IH, S_INR. ring.
Qed.

Lemma softmax_plane_constant (c : R) (pl : list R) :
  pl <> [] -> (forall x, In x pl -> x = c) ->
  softmax_plane pl = repeat (Fin (1 / INR (length pl))) (length pl).
Proof.
  intros Hne Hc. rewrite (softmax_plane_values pl Hne).
  assert (Hm : fold_left Rmax (tl pl) (hd 0 pl) = c).
  { destruct pl as [| a pl]; [congruence |]. cbn [tl hd].
    rewrite (Hc a) by now left.
    apply fold_left_Rmax_const. intros x Hx. apply Hc. now right. }
  rewrite Hm.
  assert (Hs : rsum (map (fun y => exp32 (y - c)) pl) = INR (length pl)).
  { rewrite <- rsum_ones. f_equal. apply map_ext_in. intros y Hy.
    rewrite (Hc y Hy). replace (c - c) with 0 by ring. apply exp32_0. }
  rewrite Hs.
  etransitivity; [apply (all_eq_repeat (Fin (1 / INR (length pl)))) |].
  - intros v Hv. apply in_map_iff in Hv as [x [<- Hx]].
    rewrite (Hc x Hx). replace (c - c) with 0 by ring. now rewrite exp32_0.
  - now rewrite length_map.
Qed.

(** X16: a flat heatmap has no preferred place.  When every raw value is
    the same, the softmax rectification returns the uniform distribution
    [1 / (H * W)] on every image and [dsnt] returns the centre [(0, 0)]
    of the coordinate frame for every batch element. *)
Theorem dsnt_flat_heatmap_centre (inputs : tensor R)
  (method : option string) (c : R) (B H W : nat) :
  method = None \/ method = Some "softmax"%string ->
  firstn 3 (shape inputs) = [B; H; W] ->
  length (data inputs) = (B * (H * W))%nat ->
  (0 < H)%nat -> (0 < W)%nat ->
  (forall x, In x (data inputs) -> x = c) ->
  exists norm coords,
    dsnt inputs method = Ok (norm, coords) /\
    shape coords = [B; 2%nat] /\
    forall b, (b < B)%nat ->
      plane norm b = repeat (Fin (1 / INR (H * W))) (H * W) /\
      get2 coords b 0 = Fin 0 /\ get2 coords b 1 = Fin 0.
Proof.
  intros Hm Hs Hl HH HW Hc.
  destruct (softmax_heatmap_planes inputs B H W Hs Hl) as [En Hplane].
  set (norm := Tensor [B; H; W]
                 (concat (map softmax_plane
                            (chunks (H * W) B (data inputs))))) in *.
  assert (En' : _normalise_heatmap inputs method = Ok norm)
    by (destruct Hm as [-> | ->]; exact En).
  destruct (dsnt_coords_ok norm B H W eq_refl) as [gy0 [Egy0 Ec]].
  match type of Ec with _ = Ok ?C => set (coords0 := C) in * end.
  assert (Hsc : shape coords0 = [B; 2%nat]) by reflexivity.
  clearbody coords0.
  exists norm, coords0.
  split; [unfold dsnt; rewrite En'; cbn [bind]; rewrite Ec; reflexivity |].
  split; [exact Hsc |].
  intros b Hb.
  assert (Hpl : plane norm b = repeat (Fin (1 / INR (H * W))) (H * W)).
  { rewrite (Hplane b Hb).
    rewrite (softmax_plane_constant c).
    - now rewrite (block_length (H * W) B).
    - apply (nonempty_block (H * W) B); [exact Hl | exact Hb | nia].
    - intros x Hx. apply Hc. eapply block_In, Hx. }
  split; [exact Hpl |].
  destruct (coords_as_inner_products norm B H W b eq_refl Hb)
    as [gy [coords [Egy [Ec' [_ [E0 E1]]]]]].
  rewrite Ec in Ec'. injection Ec' as <-.
  change (block (H * W) b (data norm)
          = repeat (Fin (1 / INR (H * W))) (H * W)) in Hpl.
  rewrite Hpl, <- map_repeat in E0, E1.
  rewrite dsnt_x_plane in E0 by exact Hb.
  rewrite (dsnt_y_plane B H W b gy Egy Hb) in E1.
  assert (L0 : length (concat (repeat (map (fun i => grid_value W (S i))
                                           (seq 0 W)) H)) = (H * W)%nat).
  { rewrite (concat_length_const W).
    - now rewrite repeat_length.
    - intros l Hin. apply repeat_spec in Hin as ->.
      now rewrite length_map, length_seq. }
  assert (L1 : length (flat_map (fun j => map (fun _ => grid_value H (S j))
                                              (seq 0 W)) (seq 0 H))
               = (H * W)%nat).
  { rewrite flat_map_concat_map, (concat_length_const W).
    - now rewrite length_map, length_seq.
    - intros l Hin. apply in_map_iff in Hin as [j [<- _]].
      now rewrite length_map, length_seq. }
  pose proof (uniform_inner_product (1 / INR (H * W))
                (concat (repeat (map (fun i => grid_value W (S i))
                                     (seq 0 W)) H))) as U0.
  pose proof (uniform_inner_product (1 / INR (H * W))
                (flat_map (fun j => map (fun _ => grid_value H (S j))
                                        (seq 0 W)) (seq 0 H))) as U1.
  rewrite L0 in U0. rewrite L1 in U1.
  rewrite rsum_concat_repeat, grid_value_sum in U0 by exact HW.
  rewrite rsum_flat_map_const, grid_value_sum in U1 by exact HH.
  rewrite E0, E1, U0, U1. split; f_equal; ring.
Qed.

Lemma dsnt_flat_heatmap_centre_witness :
  exists norm coords,
    dsnt (Tensor [1; 2; 2]%nat [7; 7; 7; 7]) None = Ok (norm, coords) /\
    shape coords = [1; 2]%nat /\
    forall b, (b < 1)%nat ->
      plane norm b = repeat (Fin (1 / INR (2 * 2))) (2 * 2) /\
      get2 coords b 0 = Fin 0 /\ get2 coords b 1 = Fin 0.
Proof.
  apply (dsnt_flat_heatmap_centre (Tensor [1; 2; 2]%nat [7; 7; 7; 7])
           None 7 1 2 2);
    [now left | reflexivity | reflexivity | lia | lia |].
  cbn. intros x Hx. repeat (destruct Hx as [<- | Hx]; [reflexivity |]).
  destruct Hx.
Defined.
